(** * treenodes: closure table of an electrical network by breadth-first search

    Shallow embedding of [network_builder.py], [models.py], the row loops of
    [data_loader.py] and the traversal loop of [main.py], with the properties
    of the closure table that the specification states about them and
    further properties of the code. *)

From Stdlib Require Import Ascii.
From stdpp Require Import base tactics numbers strings option list sets gmap.

Local Open Scope Z_scope.

(** ** Outcomes of Python code

    A call returns a value, raises an exception, or (in the model only) stops
    because the iteration budget of a [while] loop is used up. *)

Inductive exn : Type :=
  | KeyError
  | ValueError
  | NetworkXError.

Inductive outcome (A : Type) : Type :=
  | Ret (a : A)
  | Raise (e : exn)
  | Timeout.
Arguments Ret {A} a.
Arguments Raise {A} e.
Arguments Timeout {A}.

#[global] Instance outcome_ret : MRet outcome := @Ret.

#[global] Instance outcome_bind : MBind outcome := λ A B k m,
  match m with
  | Ret a => k a
  | Raise e => Raise e
  | Timeout => Timeout
  end.

(** [for x in xs: st = body(st, x)] where the body may raise. *)
Fixpoint for_each {S A : Type} (body : S → A → outcome S) (st : S) (xs : list A)
    : outcome S :=
  match xs with
  | [] => Ret st
  | x :: xs' => st' ← body st x ; for_each body st' xs'
  end.

(** ** Python values

    [float] values are kept as the decimal numeral that [float(s)] reads,
    before it is rounded to a double: sign, digits and power of ten. *)

Inductive pyfloat : Type :=
  | FNan
  | FInf (negative : bool)
  | FDec (negative : bool) (digits : N) (exponent : Z).

(** [x < 0] *)
Definition float_negative (x : pyfloat) : bool :=
  match x with
  | FNan => false
  | FInf negative => negative
  | FDec negative digits _ => negative && negb (N.eqb digits 0)
  end.

Inductive pyvalue : Type :=
  | PyStr (s : string)
  | PyInt (n : Z)
  | PyFloat (x : pyfloat).

#[global] Instance pyfloat_eq_dec : EqDecision pyfloat.
Proof. solve_decision. Defined.

#[global] Instance pyvalue_eq_dec : EqDecision pyvalue.
Proof. solve_decision. Defined.

(** An attribute bag, the [**attributes] of the adapters. *)
Abbreviation attributes := (gmap string pyvalue).

(** *** [int(s)] and [float(s)] on text *)

Definition is_space (c : ascii) : bool :=
  let n := nat_of_ascii c in
  ((9 <=? n) && (n <=? 13) || (28 <=? n) && (n <=? 32))%nat.

Definition digit_of (c : ascii) : option N :=
  let n := N_of_ascii c in
  if ((48 <=? n) && (n <=? 57))%N then Some (n - 48)%N else None.

Fixpoint skip_space (cs : list ascii) : list ascii :=
  match cs with
  | c :: cs' => if is_space c then skip_space cs' else cs
  | [] => []
  end.

Definition strip (cs : list ascii) : list ascii :=
  reverse (skip_space (reverse (skip_space cs))).

(** Reads on after a digit: digits, each optionally preceded by one
    underscore. Returns the value, the number of digits and the rest. *)
Fixpoint scan_digits (acc : N) (n : nat) (cs : list ascii) : N * nat * list ascii :=
  match cs with
  | [] => (acc, n, cs)
  | c :: cs' =>
      match digit_of c with
      | Some d => scan_digits (10 * acc + d)%N (S n) cs'
      | None =>
          if decide (c = "_"%char) then
            match cs' with
            | c2 :: cs'' =>
                match digit_of c2 with
                | Some d => scan_digits (10 * acc + d)%N (S n) cs''
                | None => (acc, n, cs)
                end
            | [] => (acc, n, cs)
            end
          else (acc, n, cs)
      end
  end.

(** [digitpart ::= digit (["_"] digit)*] at the start of [cs]. *)
Definition digitpart (cs : list ascii) : option (N * nat * list ascii) :=
  match cs with
  | c :: cs' =>
      match digit_of c with
      | Some d => Some (scan_digits d 1 cs')
      | None => None
      end
  | [] => None
  end.

Definition read_sign (cs : list ascii) : bool * list ascii :=
  match cs with
  | c :: cs' =>
      if decide (c = "-"%char) then (true, cs')
      else if decide (c = "+"%char) then (false, cs')
      else (false, cs)
  | [] => (false, cs)
  end.

(** [int(s)] for a [str]: surrounding white space, a sign, decimal digits.
    (CPython's limit on the length of the numeral, 4300 digits by default, is
    not modelled.) *)
Definition py_int (s : string) : outcome Z :=
  let '(negative, cs) := read_sign (strip (String.list_ascii_of_string s)) in
  match digitpart cs with
  | Some (v, _, []) => Ret (if negative then - Z.of_N v else Z.of_N v)
  | _ => Raise ValueError
  end.

Definition lower (c : ascii) : ascii :=
  let n := nat_of_ascii c in
  if ((65 <=? n) && (n <=? 90))%nat then ascii_of_nat (n + 32) else c.

(** [exponent ::= ("e" | "E") [sign] digitpart], or nothing, up to the end. *)
Definition read_exponent (cs : list ascii) : option Z :=
  match cs with
  | [] => Some 0
  | c :: cs' =>
      if decide (lower c = "e"%char) then
        let '(negative, ds) := read_sign cs' in
        match digitpart ds with
        | Some (v, _, []) => Some (if negative then - Z.of_N v else Z.of_N v)
        | _ => None
        end
      else None
  end.

(** [number ::= [digitpart] "." digitpart | digitpart ["."]], then the
    exponent. *)
Definition read_floatnumber (negative : bool) (cs : list ascii) : option pyfloat :=
  let '(int_digits, rest) :=
    match digitpart cs with
    | Some (v, _, rest) => (Some v, rest)
    | None => (None, cs)
    end in
  let no_fraction (rest : list ascii) : option (option (N * nat) * list ascii) :=
    match int_digits with
    | Some _ => Some (None, rest)
    | None => None
    end in
  let fraction :=
    match rest with
    | c :: rest' =>
        if decide (c = "."%char) then
          match digitpart rest' with
          | Some (v, n, rest'') => Some (Some (v, n), rest'')
          | None => no_fraction rest'
          end
        else no_fraction rest
    | [] => no_fraction rest
    end in
  match fraction with
  | None => None
  | Some (frac, rest') =>
      match read_exponent rest' with
      | None => None
      | Some e =>
          let i := default 0%N int_digits in
          match frac with
          | Some (f, n) =>
              Some (FDec negative (i * 10 ^ N.of_nat n + f)%N (e - Z.of_nat n))
          | None => Some (FDec negative i e)
          end
      end
  end.

(** [float(s)] for a [str]. *)
Definition py_float (s : string) : outcome pyfloat :=
  let '(negative, cs) := read_sign (strip (String.list_ascii_of_string s)) in
  let word := String.string_of_list_ascii (lower <$> cs) in
  if decide (word = "inf" ∨ word = "infinity") then Ret (FInf negative)
  else if decide (word = "nan") then Ret FNan
  else match read_floatnumber negative cs with
       | Some x => Ret x
       | None => Raise ValueError
       end.

(** [row[key]] of a [dict] of strings. *)
Definition row_get (row : gmap string string) (key : string) : outcome string :=
  match row !! key with
  | Some v => Ret v
  | None => Raise KeyError
  end.

(** ** [models.py]

    A row is the [dict] that [csv.DictReader] yields: column name to text. *)

Module Nodo.
Record t : Type := Build {
  id_nodo : Z;
  nombre : string;
  tipo : string;
  voltaje_kv : pyfloat;
  x : pyfloat;
  y : pyfloat
}.

Definition from_csv_row (row : gmap string string) : outcome t :=
  id_nodo ← row_get row "id_nodo" ≫= py_int;
  nombre ← row_get row "nombre";
  tipo ← row_get row "tipo";
  voltaje_kv ← row_get row "voltaje_kv" ≫= py_float;
  x ← row_get row "x" ≫= py_float;
  y ← row_get row "y" ≫= py_float;
  Ret (Build id_nodo nombre tipo voltaje_kv x y).
End Nodo.

Module Segmento.
Record t : Type := Build {
  id_segmento : Z;
  id_circuito : string;
  nodo_inicio : Z;
  nodo_fin : Z;
  longitud_m : pyfloat;
  tipo_conductor : Z;
  capacidad_amp : Z
}.

Definition from_csv_row (row : gmap string string) : outcome t :=
  id_segmento ← row_get row "id_segmento" ≫= py_int;
  id_circuito ← row_get row "id_circuito";
  nodo_inicio ← row_get row "nodo_inicio" ≫= py_int;
  nodo_fin ← row_get row "nodo_fin" ≫= py_int;
  longitud_m ← row_get row "longitud_m" ≫= py_float;
  tipo_conductor ← row_get row "tipo_conductor" ≫= py_int;
  capacidad_amp ← row_get row "capacidad_amp" ≫= py_int;
  Ret (Build id_segmento id_circuito nodo_inicio nodo_fin longitud_m
         tipo_conductor capacidad_amp).
End Segmento.

(** ** [data_loader.py]

    [csv.DictReader] yields one row for every record of the file; the rows
    it yields are the argument here, in the order of the file. *)
Module DataLoader.
Definition load_nodos (reader : list (gmap string string)) : outcome (list Nodo.t) :=
  for_each (λ nodos row, nodo ← Nodo.from_csv_row row; Ret (nodos ++ [nodo]))
    [] reader.

Definition load_segmentos (reader : list (gmap string string))
    : outcome (list Segmento.t) :=
  for_each (λ segmentos row,
              segmento ← Segmento.from_csv_row row; Ret (segmentos ++ [segmento]))
    [] reader.

(** [return self.load_nodos(), self.load_segmentos()] *)
Definition load_all (nodos_reader segmentos_reader : list (gmap string string))
    : outcome (list Nodo.t * list Segmento.t) :=
  nodos ← load_nodos nodos_reader;
  segmentos ← load_segmentos segmentos_reader;
  Ret (nodos, segmentos).
End DataLoader.

(** ** Closure entries and the traversal state *)

(** [(ancestor, descendant, depth)] *)
Definition entry : Type := Z * Z * Z.

Definition ancestor (e : entry) : Z := e.1.1.
Definition descendant (e : entry) : Z := e.1.2.
Definition depth (e : entry) : Z := e.2.

(** The local variables of [bfs_traversal]. [parent_map] maps the start node
    to [None] (Python's [None]) and every other visited node to its parent. *)
Record bfs_state : Type := BfsState {
  closure_entries : list entry;
  visited : gset Z;
  queue : list entry;
  parent_map : gmap Z (option Z)
}.

(** ** [bfs_traversal]

    The bodies of [NetworkXAdapter.bfs_traversal] and
    [ManualNetworkAdapter.bfs_traversal] are the same text; they differ in the
    [get_neighbors] they call, which is the parameter here. *)
Section bfs.
Variable get_neighbors : Z → outcome (list Z).

(** The inner loop
<<
    while temp_ancestor in parent_map and parent_map[temp_ancestor] is not None:
        temp_ancestor = parent_map[temp_ancestor]
        temp_depth += 1
        closure_entries.append((temp_ancestor, neighbor, temp_depth))
>> *)
Fixpoint walk_parents (fuel : nat) (parent_map : gmap Z (option Z))
    (neighbor temp_ancestor temp_depth : Z) (closure_entries : list entry)
    : outcome (list entry) :=
  match parent_map !! temp_ancestor with
  | Some (Some p) =>
      match fuel with
      | O => Timeout
      | S fuel' =>
          walk_parents fuel' parent_map neighbor p (temp_depth + 1)
            (closure_entries ++ [(p, neighbor, temp_depth + 1)])
      end
  | _ => Ret closure_entries
  end.

(** The body of [for neighbor in self.get_neighbors(current)]. *)
Definition visit_neighbor (fuel : nat) (current : Z) (st : bfs_state)
    (neighbor : Z) : outcome bfs_state :=
  if decide (neighbor ∈ visited st) then Ret st
  else
    let visited' := {[neighbor]} ∪ visited st in
    let parent_map' := <[neighbor := Some current]> (parent_map st) in
    let queue' := queue st ++ [(current, neighbor, 1)] in
    let entries' := closure_entries st ++ [(current, neighbor, 1)] in
    entries'' ← walk_parents fuel parent_map' neighbor current 1 entries' ;
    Ret (BfsState entries'' visited' queue' parent_map').

(** One iteration of [while queue], after [queue.popleft()]. *)
Definition process_item (fuel : nat) (item : entry) (st : bfs_state)
    : outcome bfs_state :=
  let '(anc, current, _) := item in
  let entries' :=
    if decide (anc = current)
    then closure_entries st ++ [(current, current, 0)]
    else closure_entries st in
  nbrs ← get_neighbors current ;
  for_each (visit_neighbor fuel current)
    (BfsState entries' (visited st) (queue st) (parent_map st)) nbrs.

Fixpoint bfs_loop (wfuel fuel : nat) (st : bfs_state) : outcome bfs_state :=
  match queue st with
  | [] => Ret st
  | item :: rest =>
      match fuel with
      | O => Timeout
      | S fuel' =>
          st' ← process_item wfuel item
                  (BfsState (closure_entries st) (visited st) rest (parent_map st)) ;
          bfs_loop wfuel fuel' st'
      end
  end.

Definition bfs_init (start_node : Z) : bfs_state :=
  BfsState [] {[start_node]} [(start_node, start_node, 0)]
           {[start_node := None]}.

(** The traversal with its final local variables. *)
Definition bfs_run (fuel : nat) (start_node : Z) : outcome bfs_state :=
  bfs_loop fuel fuel (bfs_init start_node).

Definition bfs_traversal (fuel : nat) (start_node : Z) : outcome (list entry) :=
  st ← bfs_run fuel start_node ; Ret (closure_entries st).

(** *** The graph that [get_neighbors] describes *)

(** [y] is listed among the neighbours of [x]. *)
Definition edge (x y : Z) : Prop := ∃ l, get_neighbors x = Ret l ∧ y ∈ l.

(** [path x y n]: [n] edges lead from [x] to [y]. *)
Inductive path : Z → Z → nat → Prop :=
  | path_refl x : path x x 0
  | path_step x y z n : edge x y → path y z n → path x z (S n).

(** [n] is the minimum number of edges from [x] to [y]. *)
Definition distance (x y : Z) (n : nat) : Prop :=
  path x y n ∧ ∀ m, path x y m → (n ≤ m)%nat.

Definition reachable (x y : Z) : Prop := ∃ n, path x y n.
End bfs.

(** ** Python dictionaries

    A [dict] keeps its keys in insertion order; assigning to a key that is
    present keeps its place. *)
Section odict.
Context {K A : Type} `{EqDecision K}.

Fixpoint od_get (k : K) (d : list (K * A)) : option A :=
  match d with
  | [] => None
  | (k', v) :: d' => if decide (k = k') then Some v else od_get k d'
  end.

(** [d[k] = v] *)
Fixpoint od_set (k : K) (v : A) (d : list (K * A)) : list (K * A) :=
  match d with
  | [] => [(k, v)]
  | (k', v') :: d' =>
      if decide (k = k') then (k, v) :: d' else (k', v') :: od_set k v d'
  end.

(** [list(d.keys())] *)
Definition od_keys (d : list (K * A)) : list K := d.*1.
End odict.

(** ** [ManualNetworkAdapter] *)

(** [list(s)] for a [set]: Python fixes no iteration order, so the order is
    a parameter: any listing of the elements, each once. *)
Class SetIteration : Type := {
  set_list : gset Z → list Z;
  set_list_perm : ∀ X, set_list X ≡ₚ elements X
}.

Module ManualNetworkAdapter.
Section manual.
Context `{SetIteration}.

Record t : Type := Build {
  nodes : list (Z * attributes);
  edges : gmap Z (gset Z)
}.

Definition init : t := Build [] ∅.

Definition add_node (self : t) (node_id : Z) (attrs : attributes) : t :=
  Build (od_set node_id attrs (nodes self))
        (if decide (node_id ∈ dom (edges self)) then edges self
         else <[node_id := ∅]> (edges self)).

Definition add_edge (self : t) (node_from node_to : Z) (attrs : attributes) : t :=
  let edges1 :=
    if decide (node_from ∈ dom (edges self)) then edges self
    else <[node_from := ∅]> (edges self) in
  let edges2 :=
    if decide (node_to ∈ dom edges1) then edges1
    else <[node_to := ∅]> edges1 in
  let edges3 := alter (λ s, s ∪ {[node_to]}) node_from edges2 in
  let edges4 := alter (λ s, s ∪ {[node_from]}) node_to edges3 in
  Build (nodes self) edges4.

Definition get_nodes (self : t) : list Z := od_keys (nodes self).

Definition get_neighbors (self : t) (node_id : Z) : list Z :=
  set_list (default ∅ (edges self !! node_id)).

Definition get_node_attributes (self : t) (node_id : Z) : attributes :=
  default ∅ (od_get node_id (nodes self)).
End manual.
End ManualNetworkAdapter.

(** ** [NetworkXAdapter]

    [networkx.Graph] is a library class. Its state is the node dictionary
    [_node] and the adjacency dictionary of dictionaries [_adj], which has a
    key for every node; [add_node] updates the attributes of a node that is
    present, [add_edge] adds the end points that are absent with empty
    attributes, [neighbors] iterates over the keys of [_adj[n]] and raises
    [NetworkXError] for a node that is absent, and [nodes[n]] raises
    [KeyError] for one. *)
Module NetworkXAdapter.

Record Graph : Type := BuildGraph {
  _node : list (Z * attributes);
  _adj : gmap Z (list (Z * attributes))
}.

Definition nx_Graph : Graph := BuildGraph [] ∅.

Definition nx_add_node (G : Graph) (n : Z) (attr : attributes) : Graph :=
  match od_get n (_node G) with
  | None => BuildGraph (od_set n attr (_node G)) (<[n := []]> (_adj G))
  | Some old => BuildGraph (od_set n (attr ∪ old) (_node G)) (_adj G)
  end.

(** [if u not in self._node: self._adj[u] = {}; self._node[u] = {}] *)
Definition nx_ensure_node (G : Graph) (u : Z) : Graph :=
  match od_get u (_node G) with
  | None => BuildGraph (od_set u ∅ (_node G)) (<[u := []]> (_adj G))
  | Some _ => G
  end.

Definition nx_add_edge (G : Graph) (u v : Z) (attr : attributes) : Graph :=
  let G := nx_ensure_node (nx_ensure_node G u) v in
  let datadict' :=
    attr ∪ default ∅ (od_get v (default [] (_adj G !! u))) in
  let adj1 := alter (od_set v datadict') u (_adj G) in
  let adj2 := alter (od_set u datadict') v adj1 in
  BuildGraph (_node G) adj2.

Definition nx_neighbors (G : Graph) (n : Z) : outcome (list Z) :=
  match _adj G !! n with
  | Some nbrs => Ret (od_keys nbrs)
  | None => Raise NetworkXError
  end.

Definition nx_nodes_getitem (G : Graph) (n : Z) : outcome attributes :=
  match od_get n (_node G) with
  | Some attr => Ret attr
  | None => Raise KeyError
  end.

(** The adapter holds [self.graph]. *)
Definition t : Type := Graph.
Definition init : t := nx_Graph.
Definition add_node (self : t) (node_id : Z) (attrs : attributes) : t :=
  nx_add_node self node_id attrs.
Definition add_edge (self : t) (node_from node_to : Z) (attrs : attributes) : t :=
  nx_add_edge self node_from node_to attrs.
Definition get_nodes (self : t) : list Z := od_keys (_node self).
Definition get_neighbors (self : t) (node_id : Z) : outcome (list Z) :=
  nx_neighbors self node_id.
Definition get_node_attributes (self : t) (node_id : Z) : outcome attributes :=
  nx_nodes_getitem self node_id.
End NetworkXAdapter.

(** ** [NetworkInterface]

    The abstract class; [init] is the constructor of the implementation. *)
Class NetworkInterface (G : Type) : Type := {
  init : G;
  add_node : G → Z → attributes → G;
  add_edge : G → Z → Z → attributes → G;
  get_nodes : G → list Z;
  get_neighbors : G → Z → outcome (list Z);
  get_node_attributes : G → Z → outcome attributes
}.

#[global] Instance manual_interface `{SetIteration}
    : NetworkInterface ManualNetworkAdapter.t := {
  init := ManualNetworkAdapter.init;
  add_node := ManualNetworkAdapter.add_node;
  add_edge := ManualNetworkAdapter.add_edge;
  get_nodes := ManualNetworkAdapter.get_nodes;
  get_neighbors self node_id := Ret (ManualNetworkAdapter.get_neighbors self node_id);
  get_node_attributes self node_id :=
    Ret (ManualNetworkAdapter.get_node_attributes self node_id)
}.

#[global] Instance networkx_interface : NetworkInterface NetworkXAdapter.t := {
  init := NetworkXAdapter.init;
  add_node := NetworkXAdapter.add_node;
  add_edge := NetworkXAdapter.add_edge;
  get_nodes := NetworkXAdapter.get_nodes;
  get_neighbors := NetworkXAdapter.get_neighbors;
  get_node_attributes := NetworkXAdapter.get_node_attributes
}.

(** The method [bfs_traversal] of an adapter [self]. *)
Definition adapter_bfs_traversal {G : Type} `{NetworkInterface G}
    (self : G) (fuel : nat) (start_node : Z) : outcome (list entry) :=
  bfs_traversal (get_neighbors self) fuel start_node.

(** ** [NetworkBuilder] *)
Section builder.
Context {G : Type} `{NetworkInterface G}.

(** The keyword arguments of the call of [add_node]. *)
Definition nodo_attributes (nodo : Nodo.t) : attributes :=
  {[ "nombre" := PyStr (Nodo.nombre nodo); "tipo" := PyStr (Nodo.tipo nodo);
     "voltaje_kv" := PyFloat (Nodo.voltaje_kv nodo);
     "x" := PyFloat (Nodo.x nodo); "y" := PyFloat (Nodo.y nodo) ]}.

(** The keyword arguments of the call of [add_edge]. *)
Definition segmento_attributes (segmento : Segmento.t) : attributes :=
  {[ "id_segmento" := PyInt (Segmento.id_segmento segmento);
     "id_circuito" := PyStr (Segmento.id_circuito segmento);
     "longitud_m" := PyFloat (Segmento.longitud_m segmento);
     "tipo_conductor" := PyInt (Segmento.tipo_conductor segmento);
     "capacidad_amp" := PyInt (Segmento.capacidad_amp segmento) ]}.

Definition build_network (network : G) (nodos : list Nodo.t)
    (segmentos : list Segmento.t) : G :=
  let network :=
    foldl (λ net nodo, add_node net (Nodo.id_nodo nodo) (nodo_attributes nodo))
      network nodos in
  foldl (λ net segmento,
           add_edge net (Segmento.nodo_inicio segmento) (Segmento.nodo_fin segmento)
             (segmento_attributes segmento))
    network segmentos.

Fixpoint find_subestacion_in (network : G) (ids : list Z) : outcome Z :=
  match ids with
  | [] => Raise ValueError
  | node_id :: ids' =>
      attrs ← get_node_attributes network node_id;
      if decide (attrs !! "tipo" = Some (PyStr "Subestacion")) then Ret node_id
      else find_subestacion_in network ids'
  end.

Definition find_subestacion_node (network : G) : outcome Z :=
  find_subestacion_in network (get_nodes network).

(** ** The traversal loop of [main]

    The body of the [try] block of step 3: [all_closure_entries] and
    [visited_global] after the loop over [network.get_nodes()]. *)
Definition main_visit (fuel : nat) (network : G)
    (acc : list entry * gset Z) (start_node : Z) : outcome (list entry * gset Z) :=
  let '(all_closure_entries, visited_global) := acc in
  if decide (start_node ∈ visited_global) then Ret acc
  else
    closure_entries ← adapter_bfs_traversal network fuel start_node;
    Ret (all_closure_entries ++ closure_entries,
         foldl (λ vg e, {[descendant e]} ∪ ({[ancestor e]} ∪ vg))
           visited_global closure_entries).

Definition main_traversal (fuel : nat) (network : G) : outcome (list entry * gset Z) :=
  for_each (main_visit fuel network) ([], ∅) (get_nodes network).
End builder.

(** The graphs that the adapters build: from the constructor by [add_node]
    and [add_edge]. *)
Inductive built {G : Type} `{NetworkInterface G} : G → Prop :=
  | built_init : built init
  | built_add_node g n attrs : built g → built (add_node g n attrs)
  | built_add_edge g u v attrs : built g → built (add_edge g u v attrs).

(** * Notions of the specification *)

(** The (ancestor, descendant) pair of an entry. *)
Definition pair_of (e : entry) : Z * Z := (ancestor e, descendant e).

(** Two enumerations of the same neighbours: for every node the two lists are
    permutations of each other (or both calls raise). *)
Definition same_neighbors (nb1 nb2 : Z → outcome (list Z)) : Prop :=
  ∀ n, match nb1 n, nb2 n with
       | Ret l1, Ret l2 => l1 ≡ₚ l2
       | Raise e1, Raise e2 => e1 = e2
       | Timeout, Timeout => True
       | _, _ => False
       end.

(** Every node has at most one neighbour that is one step nearer to [root],
    as in a tree. *)
Definition unique_parent (nb : Z → outcome (list Z)) (root : Z) : Prop :=
  ∀ d p q n,
    distance nb root d (S n) → distance nb root p n → distance nb root q n →
    edge nb p d → edge nb q d → p = q.

(** ** The traversal tree

    [dep] is the level at which the traversal discovered each visited node;
    it is not a variable of the program but determines what the parent chain
    walk emits. *)

(** The [j]-th node above [d] in the traversal tree. *)
Fixpoint nth_ancestor (pm : gmap Z (option Z)) (j : nat) (d : Z) : option Z :=
  match j with
  | O => Some d
  | S j' =>
      match pm !! d with
      | Some (Some p) => nth_ancestor pm j' p
      | _ => None
      end
  end.

(** The entry that relates [d] to its [j]-th tree ancestor. *)
Definition ancestor_entry (pm : gmap Z (option Z)) (d : Z) (j : nat) : option entry :=
  a ← nth_ancestor pm j d; Some (a, d, Z.of_nat j).

(** The entries the parent chain walk appends for [d], from the ancestor [x]
    of [d] at distance [k] upwards: [n] steps. *)
Fixpoint ups (pm : gmap Z (option Z)) (d x k : Z) (n : nat) : list entry :=
  match n with
  | O => []
  | S n' =>
      match pm !! x with
      | Some (Some p) => (p, d, k + 1) :: ups pm d p (k + 1) n'
      | _ => []
      end
  end.

(** All entries with descendant [d]: its parent at depth 1, then the chain. *)
Definition chain (pm : gmap Z (option Z)) (dep : gmap Z nat) (d : Z) : list entry :=
  match pm !! d with
  | Some (Some c) => (c, d, 1) :: ups pm d c 1 (default 0%nat (dep !! c))
  | _ => []
  end.

Section tree_invariant.
Context (get_neighbors : Z → outcome (list Z)) (root : Z).

Record tree (pm : gmap Z (option Z)) (dep : gmap Z nat) : Prop := {
  tree_dom : ∀ x, pm !! x = None ↔ dep !! x = None;
  tree_root : dep !! root = Some 0%nat;
  tree_zero : ∀ x, dep !! x = Some 0%nat → x = root ∧ pm !! x = Some None;
  tree_succ : ∀ x n, dep !! x = Some (S n) →
    ∃ p, pm !! x = Some (Some p) ∧ dep !! p = Some n ∧ edge get_neighbors p x
}.
End tree_invariant.

(** ** Invariants of the traversal loops *)

Fixpoint sorted_by (f : entry → nat) (q : list entry) : Prop :=
  match q with
  | [] => True
  | e :: q' => (∀ e', e' ∈ q' → (f e ≤ f e')%nat) ∧ sorted_by f q'
  end.

(** The level of the node a queue item stands for. *)
Definition dq (dep : gmap Z nat) (e : entry) : nat :=
  default 0%nat (dep !! descendant e).

Section loop_invariants.
Context (get_neighbors : Z → outcome (list Z)) (V : gset Z) (root : Z).

(** The self-entry is in [closure_entries] once the start item has been
    taken from the queue. *)
Definition self_part (q : list entry) : list entry :=
  if decide ((root, root, 0) ∈ q) then [] else [(root, root, 0)].

(** All neighbours of [w] are visited, at most one level below [w]. *)
Definition closed (dep : gmap Z nat) (w : Z) : Prop :=
  ∀ y, edge get_neighbors w y →
    ∃ n m, dep !! w = Some n ∧ dep !! y = Some m ∧ (m ≤ S n)%nat.

(** [order] lists the visited nodes other than the start node in the order
    of their discovery. *)
Record core_inv (dep : gmap Z nat) (order : list Z) (st : bfs_state) : Prop := {
  ci_tree : tree get_neighbors root (parent_map st) dep;
  ci_vis : ∀ x, x ∈ visited st ↔ is_Some (dep !! x);
  ci_V : visited st ⊆ V;
  ci_size : ∀ x n, dep !! x = Some n → (n < size (visited st))%nat;
  ci_nodup : NoDup order;
  ci_order : ∀ x, x ∈ order ↔ x ∈ visited st ∧ x ≠ root;
  ci_queue : ∀ e, e ∈ queue st →
    descendant e ∈ visited st ∧ (e = (root, root, 0) ∨ ancestor e ≠ descendant e);
  ci_sorted : sorted_by (dq dep) (queue st);
  ci_entries : closure_entries st =
    self_part (queue st) ++ flat_map (chain (parent_map st) dep) order
}.

(** At the head of [while queue]. *)
Record loop_inv (dep : gmap Z nat) (order : list Z) (st : bfs_state) : Prop := {
  li_closed : ∀ w, w ∈ visited st →
    (∀ e, e ∈ queue st → descendant e ≠ w) → closed dep w;
  li_bound : ∀ v n e, dep !! v = Some n → e ∈ queue st → (n ≤ S (dq dep e))%nat;
  li_start : (root, root, 0) ∈ queue st →
    queue st = [(root, root, 0)] ∧ order = []
}.

(** Inside [for neighbor in self.get_neighbors(u)], [u] at level [du]. *)
Record for_inv (u : Z) (du : nat) (dep : gmap Z nat) (st : bfs_state) : Prop := {
  fi_cur : dep !! u = Some du;
  fi_closed : ∀ w, w ∈ visited st → w ≠ u →
    (∀ e, e ∈ queue st → descendant e ≠ w) → closed dep w;
  fi_bound : ∀ v n, dep !! v = Some n → (n ≤ S du)%nat;
  fi_low : ∀ e, e ∈ queue st → (du ≤ dq dep e)%nat;
  fi_noroot : (root, root, 0) ∉ queue st
}.

(** The number of iterations [while queue] still has to make, at most. *)
Definition measure (st : bfs_state) : nat :=
  (size (V ∖ visited st) + length (queue st))%nat.

(** The state in which [while queue] ends. *)
Definition final (dep : gmap Z nat) (order : list Z) (st : bfs_state) : Prop :=
  core_inv dep order st ∧ loop_inv dep order st ∧ queue st = [].
End loop_invariants.

(** [n] occurs in an entry of [entries], as ancestor or as descendant. *)
Definition covered (entries : list entry) (n : Z) : Prop :=
  ∃ e, e ∈ entries ∧ (n = ancestor e ∨ n = descendant e).

(** ** The adapters as graphs *)

(** What a traversal needs of an adapter: from a valid start node only
    finitely many nodes can be met, and [get_neighbors] returns on each of
    them. Every node of a graph that the adapter has built is a valid start
    node. *)
Class TraversalLaws (G : Type) `{NetworkInterface G} : Type := {
  valid_start : G → Z → Prop;
  universe : G → Z → gset Z;
  valid_start_built g r : built g → r ∈ get_nodes g → valid_start g r;
  universe_root g r : valid_start g r → r ∈ universe g r;
  universe_total g r n :
    valid_start g r → n ∈ universe g r → ∃ l, get_neighbors g n = Ret l;
  universe_closed g r n l m :
    valid_start g r → n ∈ universe g r → get_neighbors g n = Ret l → m ∈ l →
    m ∈ universe g r;
  built_undirected g a b :
    built g → edge (get_neighbors g) a b → edge (get_neighbors g) b a
}.

(** [b] is in the neighbour set of [a]. *)
Definition adjacent (self : ManualNetworkAdapter.t) (a b : Z) : Prop :=
  ∃ s, ManualNetworkAdapter.edges self !! a = Some s ∧ b ∈ s.

(** The start node, the nodes with a neighbour set and the members of the
    neighbour sets. *)
Definition manual_universe (self : ManualNetworkAdapter.t) (r : Z) : gset Z :=
  {[r]} ∪ dom (ManualNetworkAdapter.edges self)
        ∪ ⋃ (map_to_list (ManualNetworkAdapter.edges self)).*2.

(** [b] is a key of [_adj[a]]. *)
Definition nx_adjacent (G : NetworkXAdapter.Graph) (a b : Z) : Prop :=
  ∃ nbrs, NetworkXAdapter._adj G !! a = Some nbrs ∧ b ∈ od_keys nbrs.

(** The state of a [networkx.Graph]: the two dictionaries have the same
    keys, and adjacency is symmetric. *)
Record nx_wf (G : NetworkXAdapter.Graph) : Prop := {
  nx_wf_keys : ∀ n,
    n ∈ od_keys (NetworkXAdapter._node G) ↔ n ∈ dom (NetworkXAdapter._adj G);
  nx_wf_sym : ∀ a b, nx_adjacent G a b → nx_adjacent G b a
}.

(** ** Further notions *)

(** The node [n] carries the attribute [tipo = 'Subestacion']. *)
Definition is_subestacion {G : Type} `{NetworkInterface G} (network : G) (n : Z)
    : Prop :=
  ∃ attrs, get_node_attributes network n = Ret attrs ∧
           attrs !! "tipo" = Some (PyStr "Subestacion").

(** The segment [s] joins [a] and [b], in either direction. *)
Definition joins (s : Segmento.t) (a b : Z) : Prop :=
  (a = Segmento.nodo_inicio s ∧ b = Segmento.nodo_fin s) ∨
  (a = Segmento.nodo_fin s ∧ b = Segmento.nodo_inicio s).

(** The keys of the inner dictionaries of [_adj] are not repeated. *)
Definition nx_adj_NoDup (G : NetworkXAdapter.Graph) : Prop :=
  ∀ n nbrs, NetworkXAdapter._adj G !! n = Some nbrs → NoDup (od_keys nbrs).



(** ** Concrete networks and records *)

(** Two iteration orders for sets. *)
Definition elements_order : SetIteration :=
  {| set_list := elements; set_list_perm X := reflexivity (elements X) |}.

Definition reverse_order : SetIteration :=
  {| set_list X := reverse (elements X);
     set_list_perm X := reverse_Permutation (elements X) |}.

(** The chain 1 - 2 - 3 - 4. *)
Definition nx_chain4 : NetworkXAdapter.t :=
  add_edge (add_edge (add_edge init 1 2 ∅) 2 3 ∅) 3 4 ∅.

(** The single segment 1 - 2. *)
Definition nx_segment : NetworkXAdapter.t := add_edge init 1 2 ∅.

(** The square 1 - 2 - 4 - 3 - 1. *)
Definition manual_square : ManualNetworkAdapter.t :=
  ManualNetworkAdapter.add_edge
    (ManualNetworkAdapter.add_edge
      (ManualNetworkAdapter.add_edge
        (ManualNetworkAdapter.add_edge ManualNetworkAdapter.init 1 2 ∅) 1 3 ∅)
      2 4 ∅)
    3 4 ∅.

(** The star with centre 1 and leaves 2 and 3, a tree. *)
Definition manual_star : ManualNetworkAdapter.t :=
  ManualNetworkAdapter.add_edge
    (ManualNetworkAdapter.add_edge ManualNetworkAdapter.init 1 2 ∅) 1 3 ∅.

(** The segment 1 - 2 with node 1 registered as a substation. *)
Definition manual_registered : ManualNetworkAdapter.t :=
  ManualNetworkAdapter.add_edge
    (ManualNetworkAdapter.add_node ManualNetworkAdapter.init 1
       {[ "tipo" := PyStr "Subestacion" ]}) 1 2 ∅.

Definition nx_registered : NetworkXAdapter.t :=
  add_edge (add_node init 1 {[ "tipo" := PyStr "Subestacion" ]}) 1 2 ∅.

Definition poste (id : Z) : Nodo.t :=
  Nodo.Build id "N" "POSTE EN H" (FDec false 138 (-1)) (FDec false 0 0) (FDec false 0 0).

Definition subestacion (id : Z) : Nodo.t :=
  Nodo.Build id "S" "Subestacion" (FDec false 345 (-1)) (FDec false 0 0) (FDec false 0 0).

Definition segmento (id a b : Z) : Segmento.t :=
  Segmento.Build id "C1" a b (FDec false 1000 (-1)) 1 200.

(** Two segments that do not meet: 1 - 2 and 3 - 4. *)
Definition nx_two_segments : NetworkXAdapter.t :=
  add_edge (add_edge init 1 2 ∅) 3 4 ∅.

(** The networks of [test_subestacion.py]. *)
Definition test_network_1 : NetworkXAdapter.t :=
  build_network init [subestacion 1; poste 2; poste 3]
    [segmento 1 1 2; segmento 2 2 3].

Definition test_network_2 : NetworkXAdapter.t :=
  build_network init [poste 1; poste 2] [segmento 1 1 2].

Definition test_network_3 : NetworkXAdapter.t :=
  build_network init [subestacion 1; poste 2; poste 3; poste 4]
    [segmento 1 1 2; segmento 2 2 3; segmento 3 3 4].

(** A segment record with a negative length and a negative capacity. *)
Definition negative_row : gmap string string :=
  {[ "id_segmento" := "7"; "id_circuito" := "C1"; "nodo_inicio" := "1";
     "nodo_fin" := "2"; "longitud_m" := "-5.0"; "tipo_conductor" := "1";
     "capacidad_amp" := "-10" ]}.

(** A segment record whose capacity is not a number. *)
Definition malformed_row : gmap string string :=
  <[ "capacidad_amp" := "2OO" ]> negative_row.

(** Hypotheses about concrete networks are settled by evaluation. *)
Ltac by_eval := refine (bool_decide_unpack _ _); vm_compute; exact I.

Ltac by_built :=
  repeat (apply built_add_edge || apply built_add_node); apply built_init.

(** * Proofs *)

(** ** [int] and [float] on examples *)

Example py_int_ex1 : py_int " -12_0 " = Ret (-120).
Proof. reflexivity. Qed.

Example py_int_ex2 : py_int "1.5" = Raise ValueError.
Proof. reflexivity. Qed.

Example py_int_ex3 : py_int "" = Raise ValueError.
Proof. reflexivity. Qed.

Example py_float_ex1 : py_float "-5.25" = Ret (FDec true 525 (-2)).
Proof. vm_compute. reflexivity. Qed.

Example py_float_ex2 : py_float "1e3" = Ret (FDec false 1 3).
Proof. vm_compute. reflexivity. Qed.

Example py_float_ex3 : py_float ".5" = Ret (FDec false 5 (-1)).
Proof. vm_compute. reflexivity. Qed.

Example py_float_ex4 : py_float "." = Raise ValueError.
Proof. vm_compute. reflexivity. Qed.

Example py_float_ex5 : py_float "5." = Ret (FDec false 5 0).
Proof. vm_compute. reflexivity. Qed.

Example py_float_ex6 : py_float "abc" = Raise ValueError.
Proof. vm_compute. reflexivity. Qed.

Example py_float_ex7 : py_float "-Inf" = Ret (FInf true).
Proof. vm_compute. reflexivity. Qed.

Example py_float_ex8 : py_float "1.5e-3x" = Raise ValueError.
Proof. vm_compute. reflexivity. Qed.


(** ** Facts about paths *)
Section paths.
Context (get_neighbors : Z → outcome (list Z)).
Local Abbreviation edge := (edge get_neighbors).
Local Abbreviation path := (path get_neighbors).

Lemma path_app x y z n m : path x y n → path y z m → path x z (n + m).
Proof.
  induction 1 as [|x y' z' n He Hp IH]; intros Hq; simpl; [done|].
  eapply path_step; eauto.
Qed.

Lemma path_snoc x y z n : path x y n → edge y z → path x z (S n).
Proof.
  intros Hp He. replace (S n) with (n + 1)%nat by lia.
  eapply path_app; [done|]. eapply path_step; [done|]. constructor.
Qed.

Lemma path_rev x y n :
  (∀ a b, edge a b → edge b a) → path x y n → path y x n.
Proof.
  intros Hsym. induction 1 as [|x y z n He Hp IH]; [constructor|].
  eapply path_snoc; eauto.
Qed.

Lemma distance_unique x y n m :
  distance get_neighbors x y n → distance get_neighbors x y m → n = m.
Proof.
  intros [Hn Hn'] [Hm Hm']. apply Hn' in Hm. apply Hm' in Hn. lia.
Qed.
End paths.

(** ** Parent chains *)
Section tree.
Context (get_neighbors : Z → outcome (list Z)) (root : Z).
Local Abbreviation edge := (edge get_neighbors).
Local Abbreviation path := (path get_neighbors).
Local Abbreviation tree := (tree get_neighbors root).

Lemma walk_parents_ups pm dep d :
  tree pm dep →
  ∀ n x k acc fuel, dep !! x = Some n → (n ≤ fuel)%nat →
    walk_parents fuel pm d x k acc = Ret (acc ++ ups pm d x k n).
Proof.
  intros Ht. induction n as [|n IH]; intros x k acc fuel Hx Hf.
  - apply (tree_zero _ _ _ _ Ht) in Hx as [_ Hx].
    destruct fuel; simpl; rewrite Hx, ?app_nil_r; done.
  - apply (tree_succ _ _ _ _ Ht) in Hx as (p & Hp & Hd & _).
    destruct fuel as [|fuel]; [lia|]. simpl. rewrite Hp.
    rewrite (IH p (k + 1) _ fuel Hd) by lia.
    by rewrite <-app_assoc.
Qed.

Lemma ups_insert_fresh pm dep d y v :
  tree pm dep → pm !! y = None →
  ∀ n x k, dep !! x = Some n → ups (<[y := v]> pm) d x k n = ups pm d x k n.
Proof.
  intros Ht Hy. induction n as [|n IH]; intros x k Hx; [done|].
  apply (tree_succ _ _ _ _ Ht) in Hx as (p & Hp & Hd & _).
  simpl. rewrite lookup_insert_ne by congruence.
  rewrite Hp. f_equal. by apply IH.
Qed.

(** What the chain of a node at level [n] contains. *)
Lemma ups_spec pm dep d :
  tree pm dep →
  ∀ n x k e, dep !! x = Some n → e ∈ ups pm d x k n →
    ∃ m, dep !! ancestor e = Some m ∧ (m < n)%nat ∧ descendant e = d ∧
         depth e = k + Z.of_nat (n - m) ∧ path (ancestor e) x (n - m).
Proof.
  intros Ht. induction n as [|n IH]; intros x k e Hx He; [by inversion He|].
  apply (tree_succ _ _ _ _ Ht) in Hx as (p & Hp & Hd & Hpx).
  simpl in He. rewrite Hp in He. apply elem_of_cons in He as [->|He].
  - exists n. split_and!; [done|lia|done| |].
    + unfold depth; simpl. lia.
    + replace (S n - n)%nat with 1%nat by lia. simpl.
      eapply path_step; [done|constructor].
  - destruct (IH _ _ _ Hd He) as (m & Hm & Hlt & Hde & Hk & Hpath).
    exists m. split_and!; [done|lia|done| |].
    + rewrite Hk. lia.
    + replace (S n - m)%nat with (S (n - m)) by lia.
      eapply path_snoc; eauto.
Qed.

Lemma ups_depths pm dep d :
  tree pm dep →
  ∀ n x k, dep !! x = Some n →
    depth <$> ups pm d x k n = (λ i : nat, k + Z.of_nat i) <$> seq 1 n.
Proof.
  intros Ht. induction n as [|n IH]; intros x k Hx; [done|].
  apply (tree_succ _ _ _ _ Ht) in Hx as (p & Hp & Hd & Hpx).
  simpl. rewrite Hp. simpl. f_equal.
  change (list_fmap entry Z depth ?l) with (depth <$> l).
  rewrite (IH _ _ Hd). rewrite <-(fmap_S_seq 1), <-list_fmap_compose.
  apply list_fmap_ext. intros _ i _. simpl. lia.
Qed.

Lemma ups_NoDup pm dep d :
  tree pm dep →
  ∀ n x k, dep !! x = Some n → NoDup (ancestor <$> ups pm d x k n).
Proof.
  intros Ht. induction n as [|n IH]; intros x k Hx; [constructor|].
  pose proof Hx as Hx'.
  apply (tree_succ _ _ _ _ Ht) in Hx as (p & Hp & Hd & Hpx).
  simpl. rewrite Hp. simpl. constructor; [|by eapply IH].
  intros Hin. apply list_elem_of_fmap in Hin as (e & Hpe & He).
  destruct (ups_spec _ _ _ Ht _ _ _ _ Hd He) as (m & Hm & Hlt & _).
  rewrite <-Hpe in Hm. unfold ancestor in Hm; simpl in Hm.
  rewrite Hd in Hm. injection Hm as ->. lia.
Qed.
End tree.

(** ** Lists *)

Lemma sorted_by_snoc (f g : entry → nat) q x :
  sorted_by f q → (∀ e, e ∈ q → g e = f e) → (∀ e, e ∈ q → (g e ≤ g x)%nat) →
  sorted_by g (q ++ [x]).
Proof.
  induction q as [|e q IH]; simpl; intros Hs Hfg Hx.
  - split; [|done]. intros e' He'. by inversion He'.
  - destruct Hs as [Hhd Hs]. split.
    + intros e' [He'|He']%elem_of_app.
      * rewrite !Hfg by (set_solver). by apply Hhd.
      * apply list_elem_of_singleton in He' as ->. apply Hx. set_solver.
    + apply IH; [done|intros; apply Hfg; set_solver|intros; apply Hx; set_solver].
Qed.

Lemma flat_map_ext_elem {A B : Type} (f g : A → list B) (l : list A) :
  (∀ a, a ∈ l → f a = g a) → flat_map f l = flat_map g l.
Proof.
  induction l as [|a l IH]; intros Hfg; simpl; [done|].
  rewrite Hfg by set_solver. f_equal. apply IH. intros; apply Hfg; set_solver.
Qed.

(** ** The invariants under new discoveries *)
Section invariants.
Context (get_neighbors : Z → outcome (list Z)) (V : gset Z) (root : Z).
Local Abbreviation edge := (edge get_neighbors).
Local Abbreviation path := (path get_neighbors).
Local Abbreviation tree := (tree get_neighbors root).
Local Abbreviation closed := (closed get_neighbors).

Lemma closed_weaken dep dep' w : dep ⊆ dep' → closed dep w → closed dep' w.
Proof.
  intros Hsub Hc y Hy. destruct (Hc y Hy) as (n & m & Hn & Hm & Hle).
  exists n, m. split_and!; [by eapply lookup_weaken|by eapply lookup_weaken|done].
Qed.

Lemma chain_insert_fresh pm dep d y v w :
  tree pm dep → pm !! y = None → is_Some (dep !! d) →
  chain (<[y := v]> pm) (<[y := w]> dep) d = chain pm dep d.
Proof.
  intros Ht Hy [k Hk]. unfold chain.
  assert (d ≠ y) as Hdy.
  { intros ->. apply (tree_dom _ _ _ _ Ht) in Hy. congruence. }
  rewrite lookup_insert_ne by done.
  destruct k as [|k].
  - apply (tree_zero _ _ _ _ Ht) in Hk as [_ ->]. done.
  - apply (tree_succ _ _ _ _ Ht) in Hk as (c & -> & Hc & _).
    assert (c ≠ y) as Hcy.
    { intros ->. apply (tree_dom _ _ _ _ Ht) in Hy. congruence. }
    rewrite lookup_insert_ne by done. rewrite Hc. simpl.
    f_equal. by eapply ups_insert_fresh.
Qed.
End invariants.

(** ** The loops preserve the invariants and terminate *)
Section preservation.
Context (get_neighbors : Z → outcome (list Z)) (V : gset Z) (root : Z).
Hypothesis nb_total : ∀ x, x ∈ V → ∃ l, get_neighbors x = Ret l.
Hypothesis nb_closed : ∀ x l y, x ∈ V → get_neighbors x = Ret l → y ∈ l → y ∈ V.
Hypothesis root_in : root ∈ V.
Local Abbreviation edge := (edge get_neighbors).
Local Abbreviation path := (path get_neighbors).
Local Abbreviation tree := (tree get_neighbors root).
Local Abbreviation core_inv := (core_inv get_neighbors V root).
Local Abbreviation loop_inv := (loop_inv get_neighbors root).
Local Abbreviation for_inv := (for_inv get_neighbors root).
Local Abbreviation measure := (measure V).

Lemma dq_insert_fresh dep y w e :
  dep !! y = None → is_Some (dep !! descendant e) →
  dq (<[y := w]> dep) e = dq dep e.
Proof.
  intros Hy [k Hk]. unfold dq. rewrite lookup_insert_ne; [done|congruence].
Qed.

Lemma visit_neighbor_ok wfuel u du dep order st y :
  (size V ≤ wfuel)%nat →
  core_inv dep order st → for_inv u du dep st → edge u y → y ∈ V →
  ∃ st' dep' order',
    visit_neighbor wfuel u st y = Ret st' ∧
    core_inv dep' order' st' ∧ for_inv u du dep' st' ∧
    y ∈ visited st' ∧ visited st ⊆ visited st' ∧ measure st' = measure st.
Proof.
  intros Hfuel Hc Hf Huy HyV. unfold visit_neighbor.
  destruct (decide (y ∈ visited st)) as [Hy|Hy].
  { exists st, dep, order. by split_and!. }
  destruct Hc as [Ht Hvis HV Hsize Hnd Hord Hq Hsort Hent].
  destruct Hf as [Hu Hcl Hbd Hlow Hnr].
  assert (dep !! y = None) as Hyd.
  { apply eq_None_not_Some. by rewrite <-Hvis. }
  assert (parent_map st !! y = None) as Hyp by by apply (tree_dom _ _ _ _ Ht).
  assert (u ≠ y) as Huy' by congruence.
  assert (root ≠ y) as Hry.
  { intros <-. rewrite (tree_root _ _ _ _ Ht) in Hyd. done. }
  set (dep' := <[y := S du]> dep).
  set (pm' := <[y := Some u]> (parent_map st)).
  assert (dep ⊆ dep') as Hsub by by apply insert_subseteq.
  assert (tree pm' dep') as Ht'.
  { split.
    - intros x. unfold pm', dep'. destruct (decide (x = y)) as [->|Hxy].
      + rewrite !lookup_insert_eq. done.
      + rewrite !lookup_insert_ne by done. apply (tree_dom _ _ _ _ Ht).
    - unfold dep'. rewrite lookup_insert_ne by done. apply (tree_root _ _ _ _ Ht).
    - intros x. unfold pm', dep'. destruct (decide (x = y)) as [->|Hxy].
      + rewrite lookup_insert_eq. done.
      + rewrite !lookup_insert_ne by done. apply (tree_zero _ _ _ _ Ht).
    - intros x n. unfold pm', dep'. destruct (decide (x = y)) as [->|Hxy].
      + rewrite !lookup_insert_eq. intros [= <-]. exists u.
        rewrite lookup_insert_ne by done. done.
      + rewrite !lookup_insert_ne by done. intros Hx.
        apply (tree_succ _ _ _ _ Ht) in Hx as (p & Hp & Hd & Hpx).
        exists p. split_and!; [done| |done].
        rewrite lookup_insert_ne; [done|congruence]. }
  assert (dep' !! u = Some du) as Hu'.
  { unfold dep'. by rewrite lookup_insert_ne. }
  assert (du < size (visited st))%nat as Hdu by by eapply Hsize.
  assert (size (visited st) ≤ size V)%nat as HsV by by apply subseteq_size.
  rewrite (walk_parents_ups _ _ _ _ _ Ht' du u 1 _ wfuel Hu') by lia.
  simpl.
  eexists (BfsState _ _ _ _), dep', (order ++ [y]).
  split; [reflexivity|].
  assert (∀ x, x ∈ {[y]} ∪ visited st ↔ is_Some (dep' !! x)) as Hvis'.
  { intros x. unfold dep'. destruct (decide (x = y)) as [->|Hxy].
    - rewrite lookup_insert_eq. split; [eauto|set_solver].
    - rewrite lookup_insert_ne by done. rewrite <-Hvis. set_solver. }
  assert (∀ e, e ∈ queue st → dq dep' e = dq dep e) as Hdq.
  { intros e He. apply dq_insert_fresh; [done|]. apply Hvis, Hq, He. }
  split_and!.
  - split; simpl.
    + done.
    + done.
    + set_solver.
    + intros x n. unfold dep'. destruct (decide (x = y)) as [->|Hxy].
      * rewrite lookup_insert_eq. intros [= <-].
        rewrite size_union by set_solver. rewrite size_singleton. lia.
      * rewrite lookup_insert_ne by done. intros Hx%Hsize.
        rewrite size_union by set_solver. lia.
    + apply NoDup_app. split_and!; [done| |apply NoDup_singleton].
      intros x Hx%Hord ->%list_elem_of_singleton. tauto.
    + intros x. rewrite elem_of_app, Hord, list_elem_of_singleton. 
      split; [intros [[??]| ->]|intros [[->%elem_of_singleton|?]%elem_of_union ?]];
        try set_solver.
    + intros e [He| ->%list_elem_of_singleton]%elem_of_app.
      * destruct (Hq e He). split; [set_solver|done].
      * split; [unfold descendant; simpl; set_solver|].
        right. unfold ancestor, descendant. simpl. done.
    + eapply sorted_by_snoc; [exact Hsort|exact Hdq|].
      intros e He. rewrite (Hdq e He).
      destruct (Hq e He) as [[k Hk]%Hvis _]. unfold dq at 1. rewrite Hk. simpl.
      unfold dq, descendant, dep'. simpl. rewrite lookup_insert_eq. simpl.
      by eapply Hbd.
    + rewrite Hent. unfold self_part.
      rewrite (decide_False (P := _ ∈ queue st)) by done.
      rewrite decide_False.
      2:{ intros [?| [=]%list_elem_of_singleton]%elem_of_app. done. }
      rewrite flat_map_app. simpl. rewrite app_nil_r.
      rewrite <-!app_assoc. simpl. f_equal. f_equal.
      * apply flat_map_ext_elem. intros d Hd. unfold pm', dep'. symmetry.
        apply chain_insert_fresh with (get_neighbors := get_neighbors) (root := root);
          [done|done|]. apply Hvis, Hord, Hd.
      * unfold chain, pm'. rewrite lookup_insert_eq, Hu'. done.
  - split; simpl.
    + done.
    + intros w Hw Hwu Hnq. eapply closed_weaken; [done|].
      assert (w ≠ y) as Hwy.
      { intros ->. eapply (Hnq (u, y, 1)); [set_solver|done]. }
      apply Hcl; [set_solver|done|]. intros e He. apply Hnq. set_solver.
    + intros v n. unfold dep'. destruct (decide (v = y)) as [->|Hvy].
      * rewrite lookup_insert_eq. intros [= <-]. done.
      * rewrite lookup_insert_ne by done. apply Hbd.
    + intros e [He| ->%list_elem_of_singleton]%elem_of_app.
      * rewrite (Hdq e He). by apply Hlow.
      * unfold dq, descendant, dep'. simpl. rewrite lookup_insert_eq. simpl. lia.
    + intros [?| [=]%list_elem_of_singleton]%elem_of_app. done.
  - simpl. set_solver.
  - simpl. set_solver.
  - unfold measure. simpl. rewrite length_app. simpl.
    assert (V ∖ visited st = {[y]} ∪ (V ∖ ({[y]} ∪ visited st))) as ->.
    { apply set_eq. intros x. destruct (decide (x = y)) as [->|?]; set_solver. }
    rewrite (size_union {[y]}) by set_solver. rewrite size_singleton. lia.
Qed.
Lemma for_each_ok wfuel u du nbrs :
  (size V ≤ wfuel)%nat →
  ∀ dep order st,
  core_inv dep order st → for_inv u du dep st →
  (∀ y, y ∈ nbrs → edge u y ∧ y ∈ V) →
  ∃ st' dep' order',
    for_each (visit_neighbor wfuel u) st nbrs = Ret st' ∧
    core_inv dep' order' st' ∧ for_inv u du dep' st' ∧
    (∀ y, y ∈ nbrs → y ∈ visited st') ∧ visited st ⊆ visited st' ∧
    measure st' = measure st.
Proof.
  intros Hfuel. induction nbrs as [|y nbrs IH]; intros dep order st Hc Hf Hn.
  { exists st, dep, order. split_and!; [done..|set_solver|done|done]. }
  destruct (Hn y) as [Huy HyV]; [set_solver|].
  destruct (visit_neighbor_ok wfuel u du dep order st y Hfuel Hc Hf Huy HyV)
    as (st1 & dep1 & order1 & Hrun & Hc1 & Hf1 & Hy1 & Hsub1 & Hm1).
  destruct (IH dep1 order1 st1 Hc1 Hf1) as
    (st2 & dep2 & order2 & Hrun2 & Hc2 & Hf2 & Hy2 & Hsub2 & Hm2).
  { intros; apply Hn; set_solver. }
  exists st2, dep2, order2. simpl. rewrite Hrun. simpl.
  split_and!; [done..| |set_solver|congruence].
  intros z [->|Hz]%elem_of_cons; [set_solver|by apply Hy2].
Qed.

Lemma process_item_ok wfuel dep order st item rest :
  (size V ≤ wfuel)%nat →
  core_inv dep order st → loop_inv dep order st → queue st = item :: rest →
  ∃ st' dep' order',
    process_item get_neighbors wfuel item
      (BfsState (closure_entries st) (visited st) rest (parent_map st)) = Ret st' ∧
    core_inv dep' order' st' ∧ loop_inv dep' order' st' ∧
    S (measure st') = measure st.
Proof.
  intros Hfuel Hc Hl Hqueue.
  destruct Hc as [Ht Hvis HV Hsize Hnd Hord Hq Hsort Hent].
  destruct Hl as [Hcl Hbd Hst].
  destruct item as [[a u] k]. unfold process_item.
  rewrite Hqueue in *. simpl in Hsort. destruct Hsort as [Hhd Hsort].
  destruct (Hq (a, u, k)) as [Huv Hitem]; [set_solver|].
  unfold descendant, ancestor in Huv, Hitem; simpl in Huv, Hitem.
  pose proof Huv as [du Hdu]%Hvis.
  destruct (nb_total u) as [l Hl]; [set_solver|]. rewrite Hl. simpl.
  assert (dq dep (a, u, k) = du) as Hdqu.
  { unfold dq, descendant. simpl. by rewrite Hdu. }
  set (entries0 := if decide (a = u) then closure_entries st ++ [(u, u, 0)]
                   else closure_entries st).
  set (st0 := BfsState entries0 (visited st) rest (parent_map st)).
  assert ((root, root, 0) ∉ rest ∧
          entries0 = self_part root rest ++ flat_map (chain (parent_map st) dep) order)
    as [Hnoroot Hent0].
  { unfold entries0. destruct (decide (a = u)) as [->|Hau].
    - destruct Hitem as [[= Hur Hk]|?]; [|done]. subst u k.
      destruct Hst as [[= Hrest] ->]; [set_solver|].
      rewrite Hrest. split; [set_solver|].
      rewrite Hent. unfold self_part.
      rewrite decide_True by set_solver. rewrite decide_False by set_solver. done.
    - assert ((root, root, 0) ∉ (a, u, k) :: rest) as Hnr.
      { intros Hin. destruct (Hst Hin) as [[= -> -> ->] _]. done. }
      split; [set_solver|]. rewrite Hent. unfold self_part.
      rewrite decide_False by done. rewrite decide_False by set_solver. done. }
  assert (core_inv dep order st0) as Hc0.
  { split; simpl; try done.
    - intros e He. apply Hq. set_solver. }
  assert (for_inv u du dep st0) as Hf0.
  { split; simpl.
    - done.
    - intros w Hw Hwu Hnq. apply Hcl; [done|].
      intros e [->|He]%elem_of_cons; [done|by apply Hnq].
    - intros v n Hv. rewrite <-Hdqu. eapply Hbd; [done|set_solver].
    - intros e He. rewrite <-Hdqu. by apply Hhd.
    - done. }
  destruct (for_each_ok wfuel u du l Hfuel dep order st0 Hc0 Hf0)
    as (st' & dep' & order' & Hrun & Hc' & Hf' & Hall & Hsub & Hm).
  { intros y Hy. split; [by exists l|]. eapply nb_closed; [|done..]. set_solver. }
  exists st', dep', order'. split; [exact Hrun|]. split; [done|]. split.
  - destruct Hf' as [Hu' Hcl' Hbd' Hlow' Hnr']. split.
    + intros w Hw Hnq. destruct (decide (w = u)) as [->|Hwu].
      * intros y [l' [Hl' Hy]]. rewrite Hl in Hl'. injection Hl' as <-.
        apply Hall in Hy. apply (ci_vis _ _ _ _ _ _ Hc') in Hy as [m Hm'].
        exists du, m. split_and!; [done..|]. by eapply Hbd'.
      * by apply Hcl'.
    + intros v n e Hv He. etrans; [by eapply Hbd'|].
      apply le_n_S. by apply Hlow'.
    + done.
  - rewrite Hm. unfold measure. rewrite Hqueue. simpl. lia.
Qed.

Lemma bfs_loop_ok wfuel :
  (size V ≤ wfuel)%nat →
  ∀ fuel dep order st,
  core_inv dep order st → loop_inv dep order st → (measure st ≤ fuel)%nat →
  ∃ st' dep' order',
    bfs_loop get_neighbors wfuel fuel st = Ret st' ∧
    core_inv dep' order' st' ∧ loop_inv dep' order' st' ∧ queue st' = [].
Proof.
  intros Hfuel. induction fuel as [|fuel IH]; intros dep order st Hc Hl Hm.
  - destruct (queue st) as [|item rest] eqn:Hq.
    + exists st, dep, order. simpl. rewrite Hq. done.
    + unfold measure in Hm. rewrite Hq in Hm. simpl in Hm. lia.
  - destruct (queue st) as [|item rest] eqn:Hq.
    + exists st, dep, order. simpl. rewrite Hq. done.
    + destruct (process_item_ok wfuel dep order st item rest Hfuel Hc Hl Hq)
        as (st1 & dep1 & order1 & Hrun & Hc1 & Hl1 & Hm1).
      destruct (IH dep1 order1 st1 Hc1 Hl1) as (st2 & dep2 & order2 & Hrun2 & ?);
        [lia|].
      exists st2, dep2, order2. simpl. rewrite Hq, Hrun. simpl. done.
Qed.

Lemma bfs_init_inv :
  core_inv {[root := 0%nat]} [] (bfs_init root) ∧
  loop_inv {[root := 0%nat]} [] (bfs_init root) ∧
  measure (bfs_init root) = size V.
Proof.
  unfold bfs_init. split_and!.
  - split; cbn [visited queue parent_map closure_entries].
    + split.
      * intros x. destruct (decide (x = root)) as [->|?].
        -- rewrite !lookup_singleton_eq. done.
        -- rewrite !lookup_singleton_ne by done. done.
      * apply lookup_singleton_eq.
      * intros x [-> _]%lookup_singleton_Some.
        by rewrite lookup_singleton_eq.
      * intros x n [_ [=]]%lookup_singleton_Some.
    + intros x. rewrite elem_of_singleton. split.
      * intros ->. rewrite lookup_singleton_eq. eauto.
      * intros [n [-> _]%lookup_singleton_Some]. done.
    + set_solver.
    + intros x n [_ <-]%lookup_singleton_Some. rewrite size_singleton. lia.
    + constructor.
    + intros x. split; [by inversion 1|set_solver].
    + intros e ->%list_elem_of_singleton. split; [set_solver|by left].
    + split; [|done]. intros e'. by inversion 1.
    + unfold self_part. rewrite decide_True by set_solver. done.
  - split; cbn [visited queue parent_map closure_entries].
    + intros w ->%elem_of_singleton Hnq. exfalso.
      eapply (Hnq (root, root, 0)); [set_solver|done].
    + intros v n e [_ <-]%lookup_singleton_Some _. lia.
    + done.
  - unfold measure. cbn [visited queue parent_map closure_entries length].
    assert (V = {[root]} ∪ (V ∖ {[root]})) as Heq.
    { apply set_eq. intros x. destruct (decide (x = root)) as [->|?]; set_solver. }
    rewrite Heq at 2. rewrite (size_union {[root]}) by set_solver.
    rewrite size_singleton. lia.
Qed.

(** With a budget of at least the number of nodes the traversal returns, in
    a state with an empty queue that satisfies the invariants. *)
Lemma bfs_run_ok fuel :
  (size V ≤ fuel)%nat →
  ∃ st dep order,
    bfs_run get_neighbors fuel root = Ret st ∧
    core_inv dep order st ∧ loop_inv dep order st ∧ queue st = [].
Proof.
  intros Hfuel. destruct bfs_init_inv as (Hc & Hl & Hm).
  apply (bfs_loop_ok fuel Hfuel fuel _ _ _ Hc Hl). lia.
Qed.
End preservation.

(** ** What the traversal returns *)
Section results.
Context (get_neighbors : Z → outcome (list Z)) (V : gset Z) (root : Z).
Hypothesis nb_total : ∀ x, x ∈ V → ∃ l, get_neighbors x = Ret l.
Hypothesis nb_closed : ∀ x l y, x ∈ V → get_neighbors x = Ret l → y ∈ l → y ∈ V.
Hypothesis root_in : root ∈ V.
Local Abbreviation edge := (edge get_neighbors).
Local Abbreviation path := (path get_neighbors).
Local Abbreviation distance := (distance get_neighbors).
Local Abbreviation tree := (tree get_neighbors root).
Local Abbreviation core_inv := (core_inv get_neighbors V root).
Local Abbreviation loop_inv := (loop_inv get_neighbors root).
Local Abbreviation final := (final get_neighbors V root).

Lemma tree_path pm dep : tree pm dep → ∀ n v, dep !! v = Some n → path root v n.
Proof.
  intros Ht. induction n as [|n IH]; intros v Hv.
  - apply (tree_zero _ _ _ _ Ht) in Hv as [-> _]. constructor.
  - apply (tree_succ _ _ _ _ Ht) in Hv as (p & _ & Hp & Hpv).
    eapply path_snoc; eauto.
Qed.

Lemma final_closed dep order st w :
  final dep order st → w ∈ visited st → closed get_neighbors dep w.
Proof.
  intros (Hc & Hl & Hq) Hw. apply (li_closed _ _ _ _ _ Hl); [done|].
  rewrite Hq. intros e He. by inversion He.
Qed.

Lemma final_reach dep order st :
  final dep order st →
  ∀ x v n, path x v n → ∀ k, dep !! x = Some k →
    ∃ m, dep !! v = Some m ∧ (m ≤ k + n)%nat.
Proof.
  intros Hfin. induction 1 as [x|x y z n Hxy Hp IH]; intros k Hk.
  - exists k. split; [done|lia].
  - assert (x ∈ visited st) as Hx.
    { apply (ci_vis _ _ _ _ _ _ (proj1 Hfin)). eauto. }
    destruct (final_closed _ _ _ _ Hfin Hx y Hxy) as (k' & m' & Hk' & Hm' & Hle).
    destruct (IH m' Hm') as (m & Hm & Hle'). exists m. split; [done|].
    rewrite Hk in Hk'. injection Hk' as <-. lia.
Qed.

(** Levels are distances from the start node. *)
Lemma final_distance dep order st v n :
  final dep order st → dep !! v = Some n → distance root v n.
Proof.
  intros Hfin Hv. split.
  - eapply tree_path; [apply Hfin|done].
  - intros m Hm.
    destruct (final_reach _ _ _ Hfin _ _ _ Hm 0%nat) as (n' & Hn' & Hle).
    { apply (tree_root _ _ _ _ (ci_tree _ _ _ _ _ _ (proj1 Hfin))). }
    rewrite Hv in Hn'. injection Hn' as <-. lia.
Qed.

Lemma final_visited dep order st v :
  final dep order st → v ∈ visited st ↔ reachable get_neighbors root v.
Proof.
  intros Hfin. rewrite (ci_vis _ _ _ _ _ _ (proj1 Hfin)). split.
  - intros [n Hn]. exists n. eapply tree_path; [apply Hfin|done].
  - intros [n Hn].
    destruct (final_reach _ _ _ Hfin _ _ _ Hn 0%nat) as (m & Hm & _); [|eauto].
    apply (tree_root _ _ _ _ (ci_tree _ _ _ _ _ _ (proj1 Hfin))).
Qed.

(** The entries with descendant [d], a node at level [n]. *)
Lemma chain_spec pm dep d n e :
  tree pm dep → dep !! d = Some n → e ∈ chain pm dep d →
  descendant e = d ∧
  ∃ m, dep !! ancestor e = Some m ∧ (m < n)%nat ∧
       depth e = Z.of_nat (n - m) ∧ path (ancestor e) d (n - m).
Proof.
  intros Ht Hd He. unfold chain in He. destruct n as [|n].
  { apply (tree_zero _ _ _ _ Ht) in Hd as [_ Hd]. rewrite Hd in He.
    by inversion He. }
  apply (tree_succ _ _ _ _ Ht) in Hd as (c & Hc & Hdc & Hcd).
  rewrite Hc, Hdc in He. simpl in He. apply elem_of_cons in He as [->|He].
  - split; [done|]. exists n. unfold ancestor, depth. simpl.
    replace (S n - n)%nat with 1%nat by lia.
    split_and!; [done|lia|done|]. eapply path_step; [done|constructor].
  - destruct (ups_spec _ _ _ _ _ Ht _ _ _ _ Hdc He) as (m & Hm & Hlt & Hde & Hk & Hp).
    split; [done|]. exists m. split_and!; [done|lia|lia|].
    replace (S n - m)%nat with (S (n - m)) by lia. eapply path_snoc; eauto.
Qed.

Lemma chain_depths pm dep d n :
  tree pm dep → dep !! d = Some n →
  depth <$> chain pm dep d = Z.of_nat <$> seq 1 n.
Proof.
  intros Ht Hd. unfold chain. destruct n as [|n].
  { apply (tree_zero _ _ _ _ Ht) in Hd as [_ Hd]. by rewrite Hd. }
  apply (tree_succ _ _ _ _ Ht) in Hd as (c & Hc & Hdc & Hcd).
  rewrite Hc, Hdc. simpl. f_equal.
  change (list_fmap entry Z depth ?l) with (depth <$> l).
  rewrite (ups_depths _ _ _ _ _ Ht _ _ _ Hdc).
  rewrite <-(fmap_S_seq 1), <-list_fmap_compose.
  apply list_fmap_ext. intros _ i _. simpl. lia.
Qed.

Lemma chain_NoDup pm dep d n :
  tree pm dep → dep !! d = Some n → NoDup (ancestor <$> chain pm dep d).
Proof.
  intros Ht Hd. unfold chain. destruct n as [|n].
  { apply (tree_zero _ _ _ _ Ht) in Hd as [_ Hd]. rewrite Hd. constructor. }
  apply (tree_succ _ _ _ _ Ht) in Hd as (c & Hc & Hdc & Hcd).
  rewrite Hc, Hdc. simpl. constructor; [|by eapply ups_NoDup].
  intros (e & Hce & He)%list_elem_of_fmap.
  destruct (ups_spec _ _ _ _ _ Ht _ _ _ _ Hdc He) as (m & Hm & Hlt & _).
  rewrite <-Hce in Hm. unfold ancestor in Hm; simpl in Hm.
  rewrite Hdc in Hm. injection Hm as ->. lia.
Qed.

Lemma final_entries dep order st :
  final dep order st →
  closure_entries st = (root, root, 0) :: flat_map (chain (parent_map st) dep) order.
Proof.
  intros (Hc & _ & Hq). rewrite (ci_entries _ _ _ _ _ _ Hc), Hq. done.
Qed.
End results.

(** ** Dictionaries *)
Section odict_facts.
Context {K A : Type} `{EqDecision K}.
Implicit Types (d : list (K * A)) (k : K) (v : A).

Lemma od_get_set_eq d k v : od_get k (od_set k v d) = Some v.
Proof.
  induction d as [|[k' v'] d IH]; simpl.
  - by rewrite decide_True.
  - destruct (decide (k = k')) as [->|Hne]; simpl.
    + by rewrite decide_True.
    + by rewrite decide_False.
Qed.

Lemma od_get_set_ne d k k' v : k ≠ k' → od_get k' (od_set k v d) = od_get k' d.
Proof.
  intros Hne. induction d as [|[k1 v1] d IH]; simpl.
  - by rewrite decide_False.
  - destruct (decide (k = k1)) as [->|Hne1]; simpl.
    + by rewrite !decide_False by done.
    + destruct (decide (k' = k1)); done.
Qed.

Lemma od_get_None d k : od_get k d = None ↔ k ∉ od_keys d.
Proof.
  unfold od_keys. induction d as [|[k' v'] d IH]; simpl.
  - split; [intros _; by inversion 1|done].
  - destruct (decide (k = k')) as [->|Hne].
    + split; [done|]. intros []. left.
    + rewrite IH. rewrite not_elem_of_cons. tauto.
Qed.

Lemma od_get_is_Some d k : is_Some (od_get k d) ↔ k ∈ od_keys d.
Proof.
  rewrite <-not_eq_None_Some, od_get_None.
  destruct (decide (k ∈ od_keys d)); tauto.
Qed.

(** Assigning to a key that is present keeps the keys and their order. *)
Lemma od_keys_set_present d k v : k ∈ od_keys d → od_keys (od_set k v d) = od_keys d.
Proof.
  unfold od_keys. induction d as [|[k' v'] d IH]; simpl; [by inversion 1|].
  intros Hin. destruct (decide (k = k')) as [->|Hne]; simpl; [done|].
  f_equal. apply IH. by apply elem_of_cons in Hin as [?|?].
Qed.

(** A new key goes to the end. *)
Lemma od_keys_set_absent d k v : k ∉ od_keys d → od_keys (od_set k v d) = od_keys d ++ [k].
Proof.
  unfold od_keys. induction d as [|[k' v'] d IH]; simpl; [done|].
  intros [Hne Hin]%not_elem_of_cons. rewrite decide_False by done. simpl.
  f_equal. by apply IH.
Qed.

Lemma elem_of_od_keys_set d k k' v : k' ∈ od_keys (od_set k v d) ↔ k' = k ∨ k' ∈ od_keys d.
Proof.
  destruct (decide (k ∈ od_keys d)) as [Hin|Hin].
  - rewrite od_keys_set_present by done. split; [tauto|]. by intros [->|?].
  - rewrite od_keys_set_absent by done. rewrite elem_of_app, list_elem_of_singleton.
    tauto.
Qed.
End odict_facts.

(** ** The adapters satisfy the traversal laws *)

Section manual_facts.
Context `{SetIteration}.
Local Abbreviation t := ManualNetworkAdapter.t.
Local Abbreviation edges := ManualNetworkAdapter.edges.

Lemma set_list_elem (s : gset Z) (n : Z) : n ∈ set_list s ↔ n ∈ s.
Proof. rewrite (set_list_perm s). apply elem_of_elements. Qed.


Lemma manual_edge self a b :
  edge (get_neighbors self) a b ↔ adjacent self a b.
Proof.
  unfold edge, adjacent. simpl. unfold ManualNetworkAdapter.get_neighbors. split.
  - intros (l & [= <-] & Hb). apply set_list_elem in Hb.
    destruct (edges self !! a) as [s|]; [by exists s|]. set_solver.
  - intros (s & Hs & Hb). eexists. split; [done|].
    rewrite Hs. simpl. by apply set_list_elem.
Qed.

Lemma manual_universe_closed self r n l m :
  n ∈ manual_universe self r → get_neighbors self n = Ret l → m ∈ l →
  m ∈ manual_universe self r.
Proof.
  intros _ Hl Hm.
  assert (edge (get_neighbors self) n m) as (s & Hs & Hms)%manual_edge by by exists l.
  unfold manual_universe. apply elem_of_union_r, elem_of_union_list.
  exists s. split; [|done]. apply list_elem_of_fmap. exists (n, s).
  split; [done|]. by apply elem_of_map_to_list.
Qed.

Lemma adjacent_add_node self n attrs a b :
  adjacent (add_node self n attrs) a b ↔ adjacent self a b.
Proof.
  unfold adjacent. simpl. unfold ManualNetworkAdapter.add_node. simpl.
  destruct (decide (n ∈ dom (edges self))) as [Hin|Hin]; [done|].
  apply not_elem_of_dom in Hin. split; intros (s & Hs & Hb).
  - apply lookup_insert_Some in Hs as [[_ <-]|[_ Hs]]; [set_solver|eauto].
  - exists s. split; [|done]. rewrite lookup_insert_ne; [done|congruence].
Qed.

Lemma adjacent_add_edge self u v attrs a b :
  adjacent (add_edge self u v attrs) a b ↔
  adjacent self a b ∨ (a = u ∧ b = v) ∨ (a = v ∧ b = u).
Proof.
  unfold adjacent. simpl. unfold ManualNetworkAdapter.add_edge. simpl.
  set (edges1 := if decide (u ∈ dom (edges self)) then edges self
                 else <[u := ∅]> (edges self)).
  set (edges2 := if decide (v ∈ dom edges1) then edges1 else <[v := ∅]> edges1).
  assert (∀ x, default ∅ (edges1 !! x) = default ∅ (edges self !! x)) as H1.
  { intros x. unfold edges1. destruct (decide (u ∈ dom (edges self))) as [|Hin]; [done|].
    apply not_elem_of_dom in Hin. destruct (decide (u = x)) as [->|?].
    - by rewrite lookup_insert_eq, Hin.
    - by rewrite lookup_insert_ne. }
  assert (∀ x, default ∅ (edges2 !! x) = default ∅ (edges self !! x)) as H2.
  { intros x. rewrite <-H1. unfold edges2.
    destruct (decide (v ∈ dom edges1)) as [|Hin]; [done|].
    apply not_elem_of_dom in Hin. destruct (decide (v = x)) as [->|?].
    - by rewrite lookup_insert_eq, Hin.
    - by rewrite lookup_insert_ne. }
  assert (is_Some (edges2 !! u) ∧ is_Some (edges2 !! v)) as [[su Hu] [sv Hv]].
  { rewrite <-!elem_of_dom. unfold edges2, edges1.
    repeat case_decide; rewrite ?dom_insert; set_solver. }
  assert (∀ x, (∃ s', edges2 !! x = Some s' ∧ b ∈ s') ↔
                 (∃ s', edges self !! x = Some s' ∧ b ∈ s')) as Hold.
  { intros x. specialize (H2 x). split; intros (s' & Hs' & Hb).
    - rewrite Hs' in H2. simpl in H2.
      destruct (edges self !! x) as [s''|]; simpl in H2; [|set_solver].
      exists s''. split; [done|]. by rewrite <-H2.
    - destruct (edges2 !! x) as [s''|] eqn:Hx.
      + rewrite Hs' in H2. simpl in H2. exists s''. split; [done|]. by rewrite H2.
      + rewrite Hs' in H2. simpl in H2. set_solver. }
  rewrite <-(Hold a).
  split.
  - intros (s & Hs & Hb). rewrite !lookup_alter in Hs.
    destruct (decide (v = a)) as [->|Hva], (decide (u = a)) as [->|Hua];
      simpl in Hs.
    + rewrite Hu in Hs. simpl in Hs. injection Hs as <-.
      apply elem_of_union in Hb as [Hb|Hb]; [|set_solver].
      apply elem_of_union in Hb as [Hb|Hb]; [|set_solver]. left; eauto.
    + rewrite Hv in Hs. simpl in Hs. injection Hs as <-.
      apply elem_of_union in Hb as [Hb|Hb]; [|set_solver]. left; eauto.
    + rewrite Hu in Hs. simpl in Hs. injection Hs as <-.
      apply elem_of_union in Hb as [Hb|Hb]; [|set_solver]. left; eauto.
    + left; eauto.
  - intros Hcases. rewrite !lookup_alter.
    destruct (decide (v = a)) as [->|Hva], (decide (u = a)) as [->|Hua]; simpl.
    + rewrite Hu. simpl. eexists; split; [done|].
      destruct Hcases as [(s & Hs & Hb)|[[_ ->]|[_ ->]]]; [|set_solver..].
      rewrite Hu in Hs. injection Hs as <-. set_solver.
    + rewrite Hv. simpl. eexists; split; [done|].
      destruct Hcases as [(s & Hs & Hb)|[[? ->]|[_ ->]]]; [|done|set_solver].
      rewrite Hv in Hs. injection Hs as <-. set_solver.
    + rewrite Hu. simpl. eexists; split; [done|].
      destruct Hcases as [(s & Hs & Hb)|[[_ ->]|[? ->]]]; [|set_solver|done].
      rewrite Hu in Hs. injection Hs as <-. set_solver.
    + destruct Hcases as [?|[[? ?]|[? ?]]]; [done|congruence..].
Qed.

Lemma manual_built_undirected (g : t) a b :
  built g → adjacent g a b → adjacent g b a.
Proof.
  intros Hb. revert a b. induction Hb as [|g n attrs Hb IH|g u v attrs Hb IH]; intros a b.
  - intros (s & Hs & _). simpl in Hs. unfold ManualNetworkAdapter.init in Hs.
    simpl in Hs. by rewrite lookup_empty in Hs.
  - simpl. rewrite !adjacent_add_node. apply IH.
  - simpl. rewrite !adjacent_add_edge. intros [?%IH|[[-> ->]|[-> ->]]]; tauto.
Qed.

#[global] Instance manual_laws : TraversalLaws ManualNetworkAdapter.t.
Proof.
  refine {| valid_start _ _ := True; universe := manual_universe |}.
  - done.
  - intros g r _. unfold manual_universe. set_solver.
  - intros g r n _ _. simpl. eauto.
  - intros g r n l m _. apply manual_universe_closed.
  - intros g a b Hb. rewrite !manual_edge. by apply manual_built_undirected.
Defined.
End manual_facts.

Section networkx_facts.
Local Abbreviation Graph := NetworkXAdapter.Graph.
Local Abbreviation _adj := NetworkXAdapter._adj.
Local Abbreviation _node := NetworkXAdapter._node.

Lemma nx_edge (G : Graph) a b :
  edge (get_neighbors G) a b ↔ nx_adjacent G a b.
Proof.
  unfold edge, nx_adjacent. simpl.
  unfold NetworkXAdapter.get_neighbors, NetworkXAdapter.nx_neighbors. split.
  - intros (l & Hl & Hb). destruct (_adj G !! a) as [nbrs|]; [|done].
    injection Hl as <-. eauto.
  - intros (nbrs & -> & Hb). eauto.
Qed.

Lemma nx_adjacent_dom G a b : nx_wf G → nx_adjacent G a b → a ∈ dom (_adj G) ∧ b ∈ dom (_adj G).
Proof.
  intros Hwf Hab. pose proof (nx_wf_sym _ Hwf _ _ Hab) as Hba.
  destruct Hab as (? & ? & _), Hba as (? & ? & _).
  split; apply elem_of_dom; eauto.
Qed.

Lemma nx_ensure_node_wf G u : nx_wf G → nx_wf (NetworkXAdapter.nx_ensure_node G u).
Proof.
  intros Hwf. unfold NetworkXAdapter.nx_ensure_node.
  destruct (od_get u (_node G)) eqn:Hu; [done|].
  apply od_get_None in Hu.
  assert (u ∉ dom (_adj G)) as Hu' by by rewrite <-(nx_wf_keys _ Hwf).
  assert (∀ a b, nx_adjacent (NetworkXAdapter.BuildGraph (od_set u ∅ (_node G))
                                (<[u := []]> (_adj G))) a b ↔ nx_adjacent G a b) as Hadj.
  { intros a b. unfold nx_adjacent. simpl. split; intros (nbrs & Hn & Hb).
    - apply lookup_insert_Some in Hn as [[_ <-]|[_ Hn]]; [by inversion Hb|eauto].
    - exists nbrs. split; [|done]. rewrite lookup_insert_ne; [done|].
      intros <-. apply Hu', elem_of_dom. eauto. }
  split.
  - intros n. simpl. rewrite elem_of_od_keys_set, dom_insert, (nx_wf_keys _ Hwf).
    set_solver.
  - intros a b. rewrite !Hadj. apply (nx_wf_sym _ Hwf).
Qed.

Lemma nx_ensure_node_in G u :
  nx_wf G → u ∈ dom (_adj (NetworkXAdapter.nx_ensure_node G u)).
Proof.
  intros Hwf. unfold NetworkXAdapter.nx_ensure_node.
  destruct (od_get u (_node G)) eqn:Hu; simpl.
  - apply (nx_wf_keys _ Hwf), od_get_is_Some. eauto.
  - rewrite dom_insert. set_solver.
Qed.

Lemma nx_ensure_node_dom G u n :
  n ∈ dom (_adj G) → n ∈ dom (_adj (NetworkXAdapter.nx_ensure_node G u)).
Proof.
  unfold NetworkXAdapter.nx_ensure_node. destruct (od_get u (_node G)); simpl; [done|].
  rewrite dom_insert. set_solver.
Qed.

Lemma nx_ensure_node_adjacent G u a b :
  nx_wf G → nx_adjacent (NetworkXAdapter.nx_ensure_node G u) a b ↔ nx_adjacent G a b.
Proof.
  intros Hwf. unfold NetworkXAdapter.nx_ensure_node.
  destruct (od_get u (_node G)) eqn:Hu; [done|].
  apply od_get_None in Hu.
  assert (u ∉ dom (_adj G)) as Hu' by by rewrite <-(nx_wf_keys _ Hwf).
  unfold nx_adjacent. simpl. split; intros (nbrs & Hn & Hb).
  - apply lookup_insert_Some in Hn as [[_ <-]|[_ Hn]]; [by inversion Hb|eauto].
  - exists nbrs. split; [|done]. rewrite lookup_insert_ne; [done|].
    intros <-. apply Hu', elem_of_dom. eauto.
Qed.

(** The adjacency that the two assignments [_adj[u][v] = _adj[v][u] = datadict]
    leave. *)
Lemma nx_assign_adjacent (adj : gmap Z (list (Z * attributes))) u v dd a b :
  u ∈ dom adj → v ∈ dom adj →
  (∃ nbrs, alter (od_set u dd) v (alter (od_set v dd) u adj) !! a = Some nbrs ∧
           b ∈ od_keys nbrs) ↔
  (∃ nbrs, adj !! a = Some nbrs ∧ b ∈ od_keys nbrs) ∨
  (a = u ∧ b = v) ∨ (a = v ∧ b = u).
Proof.
  intros [du Hu]%elem_of_dom [dv Hv]%elem_of_dom. rewrite !lookup_alter.
  destruct (decide (v = a)) as [->|Hva], (decide (u = a)) as [->|Hua]; simpl.
  - rewrite Hu. simpl. split.
    + intros (nbrs & [= <-] & Hb). rewrite !elem_of_od_keys_set in Hb.
      destruct Hb as [->|[->|Hb]]; eauto.
    + intros Hc. eexists; split; [done|]. rewrite !elem_of_od_keys_set.
      destruct Hc as [(nbrs & [= <-] & Hb)|[[_ ->]|[_ ->]]]; eauto.
  - rewrite Hv. simpl. split.
    + intros (nbrs & [= <-] & Hb). rewrite !elem_of_od_keys_set in Hb.
      destruct Hb as [->|Hb]; eauto.
    + intros Hc. eexists; split; [done|]. rewrite !elem_of_od_keys_set.
      destruct Hc as [(nbrs & [= <-] & Hb)|[[? ->]|[_ ->]]]; eauto; done.
  - rewrite Hu. simpl. split.
    + intros (nbrs & [= <-] & Hb). rewrite !elem_of_od_keys_set in Hb.
      destruct Hb as [->|Hb]; eauto.
    + intros Hc. eexists; split; [done|]. rewrite !elem_of_od_keys_set.
      destruct Hc as [(nbrs & [= <-] & Hb)|[[_ ->]|[? ->]]]; eauto; done.
  - split; [eauto|]. intros [?|[[? ?]|[? ?]]]; [done|congruence..].
Qed.

Lemma nx_adjacent_add_edge G u v attr a b :
  nx_wf G →
  nx_adjacent (NetworkXAdapter.nx_add_edge G u v attr) a b ↔
  nx_adjacent G a b ∨ (a = u ∧ b = v) ∨ (a = v ∧ b = u).
Proof.
  intros Hwf. unfold NetworkXAdapter.nx_add_edge, nx_adjacent. simpl.
  pose proof (nx_ensure_node_wf _ u Hwf) as Hwf1.
  rewrite nx_assign_adjacent.
  - fold (nx_adjacent (NetworkXAdapter.nx_ensure_node (NetworkXAdapter.nx_ensure_node G u) v) a b).
    rewrite !nx_ensure_node_adjacent by done. done.
  - apply nx_ensure_node_dom. by apply nx_ensure_node_in.
  - by apply nx_ensure_node_in.
Qed.

Lemma nx_add_edge_wf G u v attr : nx_wf G → nx_wf (NetworkXAdapter.nx_add_edge G u v attr).
Proof.
  intros Hwf.
  pose proof (nx_ensure_node_wf _ v (nx_ensure_node_wf _ u Hwf)) as Hwf2.
  split.
  - intros n. unfold NetworkXAdapter.nx_add_edge. simpl.
    rewrite !dom_alter. apply (nx_wf_keys _ Hwf2).
  - intros a b. rewrite !nx_adjacent_add_edge by done.
    intros [?%(nx_wf_sym _ Hwf)|[[-> ->]|[-> ->]]]; tauto.
Qed.

Lemma nx_add_node_adjacent G n attr a b :
  nx_wf G → nx_adjacent (NetworkXAdapter.nx_add_node G n attr) a b ↔ nx_adjacent G a b.
Proof.
  intros Hwf. unfold NetworkXAdapter.nx_add_node.
  destruct (od_get n (_node G)) eqn:Hn; [done|].
  apply od_get_None in Hn.
  assert (n ∉ dom (_adj G)) as Hn' by by rewrite <-(nx_wf_keys _ Hwf).
  unfold nx_adjacent. simpl. split; intros (nbrs & Hl & Hb).
  - apply lookup_insert_Some in Hl as [[_ <-]|[_ Hl]]; [by inversion Hb|eauto].
  - exists nbrs. split; [|done]. rewrite lookup_insert_ne; [done|].
    intros <-. apply Hn', elem_of_dom. eauto.
Qed.

Lemma nx_add_node_wf G n attr : nx_wf G → nx_wf (NetworkXAdapter.nx_add_node G n attr).
Proof.
  intros Hwf. split.
  - intros m. unfold NetworkXAdapter.nx_add_node.
    destruct (od_get n (_node G)) eqn:Hn; simpl.
    + rewrite elem_of_od_keys_set, <-(nx_wf_keys _ Hwf).
      assert (n ∈ od_keys (_node G)) by (apply od_get_is_Some; eauto).
      split; [intros [->|?]; done|tauto].
    + rewrite elem_of_od_keys_set, dom_insert, (nx_wf_keys _ Hwf). set_solver.
  - intros a b. rewrite !nx_add_node_adjacent by done. apply (nx_wf_sym _ Hwf).
Qed.

Lemma nx_built_wf (G : Graph) : built G → nx_wf G.
Proof.
  induction 1 as [|g n attrs Hb IH|g u v attrs Hb IH].
  - split.
    + intros n. simpl. rewrite dom_empty. split; [by inversion 1|set_solver].
    + intros a b (nbrs & Hn & _). simpl in Hn. by rewrite lookup_empty in Hn.
  - by apply nx_add_node_wf.
  - by apply nx_add_edge_wf.
Qed.

#[global] Instance networkx_laws : TraversalLaws NetworkXAdapter.t.
Proof.
  refine {| valid_start G r := nx_wf G ∧ r ∈ dom (_adj G);
            universe G _ := dom (_adj G) |}.
  - intros g r Hb Hr. pose proof (nx_built_wf g Hb) as Hwf.
    split; [done|]. by apply (nx_wf_keys _ Hwf).
  - by intros g r [_ ?].
  - intros g r n _ [nbrs Hn]%elem_of_dom. simpl.
    unfold NetworkXAdapter.get_neighbors, NetworkXAdapter.nx_neighbors.
    rewrite Hn. eauto.
  - intros g r n l m [Hwf _] _ Hl Hm.
    assert (edge (get_neighbors g) n m) as Hnm%nx_edge by by exists l.
    by apply (nx_adjacent_dom _ _ _ Hwf) in Hnm as [_ ?].
  - intros g a b Hb. rewrite !nx_edge. apply nx_wf_sym. by apply nx_built_wf.
Defined.
End networkx_facts.

(** ** The closure table of a traversal *)

Lemma elem_of_flat_map {A B : Type} (f : A → list B) (l : list A) (b : B) :
  b ∈ flat_map f l ↔ ∃ a, a ∈ l ∧ b ∈ f a.
Proof.
  induction l as [|a l IH]; simpl.
  - split; [by inversion 1|]. intros (a & Ha & _). by inversion Ha.
  - rewrite elem_of_app, IH. split.
    + intros [Hb|(a' & Ha' & Hb)]; [exists a|exists a']; set_solver.
    + intros (a' & [->|Ha']%elem_of_cons & Hb); [by left|right; eauto].
Qed.

Lemma NoDup_flat_map_pairs (f : Z → list entry) (order : list Z) :
  NoDup order →
  (∀ d e, d ∈ order → e ∈ f d → descendant e = d) →
  (∀ d, d ∈ order → NoDup (ancestor <$> f d)) →
  NoDup (pair_of <$> flat_map f order).
Proof.
  induction 1 as [|d order Hd Hnd IH]; intros Hdesc Hanc; simpl; [constructor|].
  rewrite fmap_app. apply NoDup_app. split_and!.
  - apply (NoDup_fmap_1 fst). rewrite <-list_fmap_compose. apply Hanc. set_solver.
  - intros p (e & -> & He)%list_elem_of_fmap (e' & Hp & He')%list_elem_of_fmap.
    apply elem_of_flat_map in He' as (d' & Hd' & He').
    apply Hdesc in He; [|set_solver]. apply Hdesc in He'; [|set_solver].
    unfold pair_of in Hp. congruence.
  - apply IH; [intros; apply Hdesc; set_solver|intros; apply Hanc; set_solver].
Qed.

Section closure_table.
Context {G : Type} `{TraversalLaws G}.
Implicit Types (g : G) (root : Z) (st : bfs_state).

Lemma traversal_final g root fuel :
  valid_start g root → (size (universe g root) ≤ fuel)%nat →
  ∃ st dep order,
    bfs_run (get_neighbors g) fuel root = Ret st ∧
    final (get_neighbors g) (universe g root) root dep order st.
Proof.
  intros Hv Hfuel.
  destruct (bfs_run_ok (get_neighbors g) (universe g root) root) with (fuel := fuel)
    as (st & dep & order & Hrun & Hfin); [| | |done|by exists st, dep, order].
  - intros n. by apply universe_total.
  - intros n l m. by apply universe_closed.
  - by apply universe_root.
Qed.

Lemma traversal_returns g root fuel st :
  bfs_run (get_neighbors g) fuel root = Ret st →
  adapter_bfs_traversal g fuel root = Ret (closure_entries st).
Proof. intros Hrun. unfold adapter_bfs_traversal, bfs_traversal. by rewrite Hrun. Qed.

Lemma final_order_dep g root dep order st d :
  final (get_neighbors g) (universe g root) root dep order st →
  d ∈ order → d ≠ root ∧ ∃ n, dep !! d = Some n.
Proof.
  intros (Hc & _) [Hd Hne]%(ci_order _ _ _ _ _ _ Hc).
  split; [done|]. by apply (ci_vis _ _ _ _ _ _ Hc) in Hd as [n Hn]; eauto.
Qed.

(** An entry of the table is the self-entry of the start node or an entry
    of the chain of a discovered node. *)
Lemma final_elem_of g root dep order st e :
  final (get_neighbors g) (universe g root) root dep order st →
  e ∈ closure_entries st ↔
  e = (root, root, 0) ∨ ∃ d, d ∈ order ∧ e ∈ chain (parent_map st) dep d.
Proof.
  intros Hfin. rewrite (final_entries _ _ _ _ _ _ Hfin).
  by rewrite elem_of_cons, elem_of_flat_map.
Qed.
End closure_table.

Section pairs_and_depths.
Context {G : Type} `{TraversalLaws G}.
Implicit Types (g : G) (root : Z) (st : bfs_state).

(** C3 (uniqueness). For every graph of an adapter and every valid start
    node, [bfs_traversal] returns, given an iteration budget of at least the
    number of nodes, an entry list in which no two entries have the same
    (ancestor, descendant) pair. *)
Theorem bfs_unique_pairs g root fuel :
  valid_start g root → (size (universe g root) ≤ fuel)%nat →
  ∃ entries,
    adapter_bfs_traversal g fuel root = Ret entries ∧
    NoDup (pair_of <$> entries).
Proof.
  intros Hv Hfuel.
  destruct (traversal_final g root fuel Hv Hfuel) as (st & dep & order & Hrun & Hfin).
  exists (closure_entries st). split; [by apply traversal_returns|].
  pose proof Hfin as (Hc & _ & _).
  pose proof (ci_tree _ _ _ _ _ _ Hc) as Ht.
  rewrite (final_entries _ _ _ _ _ _ Hfin). simpl. constructor.
  - intros (e & Hp & (d & Hd & He)%elem_of_flat_map)%list_elem_of_fmap.
    destruct (final_order_dep _ _ _ _ _ _ Hfin Hd) as (Hne & n & Hn).
    destruct (chain_spec _ _ _ _ _ _ _ Ht Hn He) as [Hde _].
    unfold pair_of, ancestor, descendant in *. simpl in *. congruence.
  - apply NoDup_flat_map_pairs.
    + apply (ci_nodup _ _ _ _ _ _ Hc).
    + intros d e Hd He.
      destruct (final_order_dep _ _ _ _ _ _ Hfin Hd) as (_ & n & Hn).
      by destruct (chain_spec _ _ _ _ _ _ _ Ht Hn He).
    + intros d Hd.
      destruct (final_order_dep _ _ _ _ _ _ Hfin Hd) as (_ & n & Hn).
      by eapply chain_NoDup.
Qed.

(** C2 (depth correctness). In an undirected graph, for every entry
    [(a, d, k)] with [k > 0] that [bfs_traversal] returns, [k] is the minimum
    number of edges of a path between [a] and [d], in either direction. *)
Theorem bfs_depth_is_distance g root fuel :
  valid_start g root → (size (universe g root) ≤ fuel)%nat →
  (∀ a b, edge (get_neighbors g) a b → edge (get_neighbors g) b a) →
  ∃ entries,
    adapter_bfs_traversal g fuel root = Ret entries ∧
    ∀ a d k, (a, d, k) ∈ entries → 0 < k →
      distance (get_neighbors g) a d (Z.to_nat k) ∧
      distance (get_neighbors g) d a (Z.to_nat k).
Proof.
  intros Hv Hfuel Hsym.
  destruct (traversal_final g root fuel Hv Hfuel) as (st & dep & order & Hrun & Hfin).
  exists (closure_entries st). split; [by apply traversal_returns|].
  pose proof Hfin as (Hc & _ & _).
  pose proof (ci_tree _ _ _ _ _ _ Hc) as Ht.
  intros a d k [[= -> -> ->]|(d' & Hd' & He)]%(final_elem_of _ _ _ _ _ _ Hfin) Hk; [lia|].
  destruct (final_order_dep _ _ _ _ _ _ Hfin Hd') as (_ & n & Hn).
  destruct (chain_spec _ _ _ _ _ _ _ Ht Hn He) as (Hde & m & Hm & Hlt & Hdepth & Hpath).
  unfold descendant, ancestor, depth in *. simpl in *. subst d' k.
  rewrite Nat2Z.id.
  assert (∀ j, path (get_neighbors g) a d j → (n - m ≤ j)%nat) as Hmin.
  { intros j Hj.
    destruct (final_reach _ _ _ _ _ _ Hfin _ _ _ Hj m Hm) as (n' & Hn' & Hle).
    rewrite Hn in Hn'. injection Hn' as <-. lia. }
  split; (split; [|]).
  - done.
  - done.
  - by apply path_rev.
  - intros j Hj. apply Hmin. by apply path_rev.
Qed.
End pairs_and_depths.

(** ** The entries of one node *)

Lemma omap_seq_shift {A : Type} (f : nat → option A) (s n : nat) :
  omap f (seq (S s) n) = omap (λ j, f (S j)) (seq s n).
Proof.
  revert s. induction n as [|n IH]; intros s; [done|].
  simpl. destruct (f (S s)); [f_equal|]; apply IH.
Qed.

Lemma omap_ext_all {A B : Type} (f g : A → option B) (l : list A) :
  (∀ a, f a = g a) → omap f l = omap g l.
Proof.
  intros Hfg. induction l as [|a l IH]; simpl; [done|].
  rewrite Hfg. destruct (g a); [f_equal|]; exact IH.
Qed.

Lemma filter_all {A : Type} (P : A → Prop) `{∀ a, Decision (P a)} (l : list A) :
  (∀ a, a ∈ l → P a) → filter P l = l.
Proof.
  induction l as [|a l IH]; intros Hall; [done|].
  rewrite filter_cons_True by (apply Hall; left).
  f_equal. apply IH. intros; apply Hall. by right.
Qed.

Lemma filter_none {A : Type} (P : A → Prop) `{∀ a, Decision (P a)} (l : list A) :
  (∀ a, a ∈ l → ¬ P a) → filter P l = [].
Proof.
  induction l as [|a l IH]; intros Hall; [done|].
  rewrite filter_cons_False by (apply Hall; left).
  apply IH. intros; apply Hall. by right.
Qed.

Lemma filter_flat_map_descendant (f : Z → list entry) (order : list Z) (n : Z) :
  NoDup order →
  (∀ d e, d ∈ order → e ∈ f d → descendant e = d) →
  filter (λ e, descendant e = n) (flat_map f order) =
  if decide (n ∈ order) then f n else [].
Proof.
  induction 1 as [|d order Hd Hnd IH]; intros Hdesc; cbn [flat_map].
  { destruct (decide (n ∈ [])) as [Hin|]; [by inversion Hin|done]. }
  rewrite filter_app, IH by (intros; eapply Hdesc; [by right|done]).
  destruct (decide (d = n)) as [->|Hdn].
  - rewrite filter_all by (intros; eapply Hdesc; [by left|done]).
    destruct (decide (n ∈ order)); [done|].
    destruct (decide (n ∈ n :: order)) as [|Hn]; [by rewrite app_nil_r|].
    exfalso. apply Hn. by left.
  - rewrite filter_none.
    2:{ intros e He. rewrite (Hdesc d e); [done|by left|done]. }
    simpl. destruct (decide (n ∈ order)) as [Hin|Hin].
    + destruct (decide (n ∈ d :: order)) as [|Hn]; [done|].
      exfalso. apply Hn. by right.
    + destruct (decide (n ∈ d :: order)) as [[?|?]%elem_of_cons|Hn]; done.
Qed.

Section ancestors.
Context (get_neighbors : Z → outcome (list Z)) (root : Z).
Local Abbreviation tree := (tree get_neighbors root).

Lemma ups_nth pm dep d :
  tree pm dep →
  ∀ n x k, dep !! x = Some n →
    ups pm d x k n =
    omap (λ j, a ← nth_ancestor pm j x; Some (a, d, k + Z.of_nat j)) (seq 1 n).
Proof.
  intros Ht. induction n as [|n IH]; intros x k Hx; [done|].
  apply (tree_succ _ _ _ _ Ht) in Hx as (p & Hp & Hd & _).
  cbn [ups seq omap list_omap]. rewrite Hp. simpl. rewrite Hp. simpl.
  f_equal. rewrite (IH _ _ Hd), (omap_seq_shift _ 1).
  apply omap_ext_all. intros j. simpl. rewrite Hp.
  destruct (nth_ancestor pm j p); simpl; [|done]. do 2 f_equal. lia.
Qed.

Lemma chain_nth pm dep d n :
  tree pm dep → dep !! d = Some n →
  chain pm dep d = omap (ancestor_entry pm d) (seq 1 n).
Proof.
  intros Ht Hd. unfold chain. destruct n as [|n].
  { apply (tree_zero _ _ _ _ Ht) in Hd as [_ Hd]. by rewrite Hd. }
  apply (tree_succ _ _ _ _ Ht) in Hd as (c & Hc & Hdc & _).
  rewrite Hc, Hdc. cbn [default seq omap list_omap].
  unfold ancestor_entry at 1. simpl. rewrite Hc. simpl. f_equal.
  rewrite (ups_nth _ _ _ Ht _ _ _ Hdc), (omap_seq_shift _ 1).
  apply omap_ext_all. intros j. unfold ancestor_entry. simpl. rewrite Hc.
  destruct (nth_ancestor pm j c); simpl; [|done]. do 2 f_equal. lia.
Qed.

Lemma nth_ancestor_dep pm dep :
  tree pm dep →
  ∀ j d n a, dep !! d = Some n → nth_ancestor pm j d = Some a →
    (j ≤ n)%nat ∧ dep !! a = Some (n - j)%nat.
Proof.
  intros Ht. induction j as [|j IH]; intros d n a Hd Ha; simpl in Ha.
  - injection Ha as <-. split; [lia|]. by rewrite Nat.sub_0_r.
  - destruct n as [|n].
    + apply (tree_zero _ _ _ _ Ht) in Hd as [_ Hd]. by rewrite Hd in Ha.
    + apply (tree_succ _ _ _ _ Ht) in Hd as (p & Hp & Hdp & _).
      rewrite Hp in Ha. destruct (IH _ _ _ Hdp Ha) as [Hle Hda].
      split; [lia|done].
Qed.
End ancestors.

Lemma same_neighbors_sym nb1 nb2 : same_neighbors nb1 nb2 → same_neighbors nb2 nb1.
Proof.
  intros Hs n. specialize (Hs n). destruct (nb1 n), (nb2 n); try done; by symmetry.
Qed.

Lemma same_neighbors_edge nb1 nb2 a b :
  same_neighbors nb1 nb2 → edge nb1 a b → edge nb2 a b.
Proof.
  intros Hs (l & Hl & Hb). specialize (Hs a). rewrite Hl in Hs.
  destruct (nb2 a) as [l2| |] eqn:H2; [|done..]. exists l2. split; [done|].
  by rewrite <-Hs.
Qed.

Lemma same_neighbors_path nb1 nb2 a b n :
  same_neighbors nb1 nb2 → path nb1 a b n → path nb2 a b n.
Proof.
  intros Hs. induction 1 as [|x y z n He Hp IH]; [constructor|].
  eapply path_step; [|done]. by eapply same_neighbors_edge.
Qed.

Lemma same_neighbors_distance nb1 nb2 a b n :
  same_neighbors nb1 nb2 → distance nb1 a b n → distance nb2 a b n.
Proof.
  intros Hs [Hp Hmin]. split; [by eapply same_neighbors_path|].
  intros m Hm. apply Hmin. eapply same_neighbors_path; [|done].
  by apply same_neighbors_sym.
Qed.

Lemma length_flat_map {A B : Type} (f : A → list B) (l : list A) :
  length (flat_map f l) = sum_list_with (λ a, length (f a)) l.
Proof. induction l as [|a l IH]; simpl; [done|]. by rewrite length_app, IH. Qed.

Lemma sum_list_with_ext_elem {A : Type} (f g : A → nat) (l : list A) :
  (∀ a, a ∈ l → f a = g a) → sum_list_with f l = sum_list_with g l.
Proof.
  induction l as [|a l IH]; intros Hfg; simpl; [done|].
  rewrite Hfg by (by left). f_equal. apply IH. intros; apply Hfg. by right.
Qed.

Section closure_shape.
Context {G : Type} `{TraversalLaws G}.
Implicit Types (g : G) (root : Z) (st : bfs_state).

Lemma final_dep_distance g root dep order st d n :
  final (get_neighbors g) (universe g root) root dep order st →
  distance (get_neighbors g) root d n → dep !! d = Some n.
Proof.
  intros Hfin Hdist.
  assert (d ∈ visited st) as [n' Hn']%(ci_vis _ _ _ _ _ _ (proj1 Hfin)).
  { apply (final_visited _ _ _ _ _ _ _ Hfin). exists n. apply Hdist. }
  rewrite Hn'. f_equal. eapply distance_unique; [|done].
  by eapply final_distance.
Qed.

(** At which depths a node occurs as descendant. *)
Lemma final_depths_of g root dep order st d k :
  final (get_neighbors g) (universe g root) root dep order st →
  (∃ a, (a, d, k) ∈ closure_entries st) ↔
  (d = root ∧ k = 0) ∨
  (d ≠ root ∧ ∃ n, distance (get_neighbors g) root d n ∧ 1 ≤ k ≤ Z.of_nat n).
Proof.
  intros Hfin. pose proof Hfin as (Hc & _ & _).
  pose proof (ci_tree _ _ _ _ _ _ Hc) as Ht. split.
  - intros (a & [[= -> -> ->]|(d' & Hd' & He)]%(final_elem_of _ _ _ _ _ _ Hfin));
      [by left|right].
    destruct (final_order_dep _ _ _ _ _ _ Hfin Hd') as (Hne & n & Hn).
    destruct (chain_spec _ _ _ _ _ _ _ Ht Hn He) as (Hde & m & Hm & Hlt & Hdepth & _).
    unfold descendant, depth in *. simpl in *. subst d'.
    split; [done|]. exists n. split; [by eapply final_distance|lia].
  - intros [[-> ->]|(Hne & n & Hdist & Hk)].
    + exists root. apply (final_elem_of _ _ _ _ _ _ Hfin). by left.
    + pose proof (final_dep_distance _ _ _ _ _ _ _ Hfin Hdist) as Hn.
      assert (d ∈ order) as Hd.
      { apply (ci_order _ _ _ _ _ _ Hc). split; [|done].
        apply (ci_vis _ _ _ _ _ _ Hc). eauto. }
      assert (k ∈ depth <$> chain (parent_map st) dep d) as (e & He & Hin)%list_elem_of_fmap.
      { rewrite (chain_depths _ _ _ _ _ _ Ht Hn). apply list_elem_of_fmap.
        exists (Z.to_nat k). split; [lia|]. apply elem_of_seq. lia. }
      destruct (chain_spec _ _ _ _ _ _ _ Ht Hn Hin) as (Hde & _).
      destruct e as [[a d'] k']. unfold descendant, depth in *. simpl in *. subst.
      exists a. apply (final_elem_of _ _ _ _ _ _ Hfin). right. eauto.
Qed.

(** The entries whose ancestor is the start node. *)
Lemma final_root_entries g root dep order st d k :
  final (get_neighbors g) (universe g root) root dep order st →
  (root, d, k) ∈ closure_entries st ↔
  (d = root ∧ k = 0) ∨
  (d ≠ root ∧ 0 < k ∧ distance (get_neighbors g) root d (Z.to_nat k)).
Proof.
  intros Hfin. pose proof Hfin as (Hc & _ & _).
  pose proof (ci_tree _ _ _ _ _ _ Hc) as Ht. split.
  - intros [[= -> ->]|(d' & Hd' & He)]%(final_elem_of _ _ _ _ _ _ Hfin);
      [by left|right].
    destruct (final_order_dep _ _ _ _ _ _ Hfin Hd') as (Hne & n & Hn).
    destruct (chain_spec _ _ _ _ _ _ _ Ht Hn He) as (Hde & m & Hm & Hlt & Hdepth & _).
    unfold descendant, ancestor, depth in *. simpl in *. subst d'.
    rewrite (tree_root _ _ _ _ Ht) in Hm. injection Hm as <-.
    split; [done|]. split; [lia|]. subst k. rewrite Nat.sub_0_r, Nat2Z.id.
    by eapply final_distance.
  - intros [[-> ->]|(Hne & Hk & Hdist)].
    { apply (final_elem_of _ _ _ _ _ _ Hfin). by left. }
    destruct (proj2 (final_depths_of g root dep order st d k Hfin)) as [a Ha].
    { right. split; [done|]. exists (Z.to_nat k). split; [done|lia]. }
    pose proof Ha as [[= -> -> ->]|(d' & Hd' & He)]%(final_elem_of _ _ _ _ _ _ Hfin);
      [done|].
    destruct (final_order_dep _ _ _ _ _ _ Hfin Hd') as (_ & n & Hn).
    destruct (chain_spec _ _ _ _ _ _ _ Ht Hn He) as (Hde & m & Hm & Hlt & Hdepth & _).
    unfold descendant, ancestor, depth in *. simpl in *. subst d'.
    pose proof (final_dep_distance _ _ _ _ _ _ _ Hfin Hdist) as Hn'.
    rewrite Hn in Hn'. injection Hn' as ->.
    assert (m = 0%nat) as -> by lia.
    apply (tree_zero _ _ _ _ Ht) in Hm as [-> _]. done.
Qed.

Lemma final_length g root dep order st :
  final (get_neighbors g) (universe g root) root dep order st →
  length (closure_entries st) = S (sum_list_with (λ d, default 0%nat (dep !! d)) order).
Proof.
  intros Hfin. pose proof Hfin as (Hc & _ & _).
  pose proof (ci_tree _ _ _ _ _ _ Hc) as Ht.
  rewrite (final_entries _ _ _ _ _ _ Hfin). simpl. f_equal.
  rewrite length_flat_map. apply sum_list_with_ext_elem. intros d Hd.
  destruct (final_order_dep _ _ _ _ _ _ Hfin Hd) as (_ & n & Hn).
  rewrite Hn. simpl.
  rewrite <-(length_fmap depth), (chain_depths _ _ _ _ _ _ Ht Hn).
  by rewrite length_fmap, length_seq.
Qed.
End closure_shape.

Lemma nth_ancestor_top get_neighbors root pm dep :
  tree get_neighbors root pm dep →
  ∀ n d, dep !! d = Some n → nth_ancestor pm n d = Some root.
Proof.
  intros Ht. induction n as [|n IH]; intros d Hd; simpl.
  - by apply (tree_zero _ _ _ _ Ht) in Hd as [-> _].
  - apply (tree_succ _ _ _ _ Ht) in Hd as (p & -> & Hp & _). by apply IH.
Qed.

Section entries_of_node.
Context {G : Type} `{TraversalLaws G}.
Implicit Types (g : G) (root : Z) (st : bfs_state).

(** C1 (reflexivity), as the code has it. [bfs_traversal] returns, given an
    iteration budget of at least the number of nodes; the nodes it visits
    are the reachable ones; the only entry with the start node as descendant
    is its self-entry [(root, root, 0)]; every other reachable node [n], at
    distance [k] from the start node, has the entries
    [(a1, n, 1), ..., (ak, n, k)], where [aj] is its [j]-th tree ancestor and
    [ak] is the start node: one entry for each proper tree ancestor and no
    entry at depth 0. *)
Theorem bfs_entries_of_node g root fuel :
  valid_start g root → (size (universe g root) ≤ fuel)%nat →
  ∃ st,
    bfs_run (get_neighbors g) fuel root = Ret st ∧
    adapter_bfs_traversal g fuel root = Ret (closure_entries st) ∧
    (∀ n, n ∈ visited st ↔ reachable (get_neighbors g) root n) ∧
    filter (λ e, descendant e = root) (closure_entries st) = [(root, root, 0)] ∧
    ∀ n, reachable (get_neighbors g) root n → n ≠ root →
      ∃ k, distance (get_neighbors g) root n k ∧ (0 < k)%nat ∧
        filter (λ e, descendant e = n) (closure_entries st) =
          omap (ancestor_entry (parent_map st) n) (seq 1 k) ∧
        depth <$> filter (λ e, descendant e = n) (closure_entries st) =
          Z.of_nat <$> seq 1 k ∧
        nth_ancestor (parent_map st) k n = Some root.
Proof.
  intros Hv Hfuel.
  destruct (traversal_final g root fuel Hv Hfuel) as (st & dep & order & Hrun & Hfin).
  exists st. split; [done|]. split; [by apply traversal_returns|].
  pose proof Hfin as (Hc & _ & _).
  pose proof (ci_tree _ _ _ _ _ _ Hc) as Ht.
  assert (∀ d e, d ∈ order → e ∈ chain (parent_map st) dep d → descendant e = d)
    as Hdesc.
  { intros d e Hd He.
    destruct (final_order_dep _ _ _ _ _ _ Hfin Hd) as (_ & n & Hn).
    by destruct (chain_spec _ _ _ _ _ _ _ Ht Hn He). }
  split; [intros n; by eapply final_visited|]. split.
  - rewrite (final_entries _ _ _ _ _ _ Hfin).
    rewrite filter_cons_True by done.
    rewrite filter_flat_map_descendant;
      [|apply (ci_nodup _ _ _ _ _ _ Hc)|done].
    rewrite decide_False; [done|].
    intros [_ ?]%(ci_order _ _ _ _ _ _ Hc). done.
  - intros n Hn Hne.
    apply (final_visited _ _ _ _ _ _ _ Hfin) in Hn.
    pose proof Hn as [k Hk]%(ci_vis _ _ _ _ _ _ Hc).
    exists k. split; [by eapply final_distance|]. split.
    { destruct k; [|lia]. by apply (tree_zero _ _ _ _ Ht) in Hk as [? _]. }
    assert (filter (λ e, descendant e = n) (closure_entries st) =
            chain (parent_map st) dep n) as ->.
    { rewrite (final_entries _ _ _ _ _ _ Hfin).
      rewrite filter_cons_False by (unfold descendant; simpl; congruence).
      rewrite filter_flat_map_descendant;
        [|apply (ci_nodup _ _ _ _ _ _ Hc)|done].
      rewrite decide_True; [done|]. by apply (ci_order _ _ _ _ _ _ Hc). }
    split; [by eapply chain_nth|]. split; [by eapply chain_depths|].
    by eapply nth_ancestor_top.
Qed.
End entries_of_node.

Lemma omap_elem_ext {A B : Type} (f g : A → option B) (l : list A) :
  (∀ a, a ∈ l → f a = g a) → omap f l = omap g l.
Proof.
  induction l as [|a l IH]; intros Hfg; simpl; [done|].
  rewrite Hfg by (by left). destruct (g a); [f_equal|]; apply IH;
    intros; apply Hfg; by right.
Qed.

Section two_traversals.
Context {G1 : Type} `{TraversalLaws G1} {G2 : Type} `{TraversalLaws G2}.
Context (g1 : G1) (g2 : G2) (root : Z).
Context (dep1 dep2 : gmap Z nat) (order1 order2 : list Z) (st1 st2 : bfs_state).
Hypothesis Hsame : same_neighbors (get_neighbors g1) (get_neighbors g2).
Hypothesis Hfin1 : final (get_neighbors g1) (universe g1 root) root dep1 order1 st1.
Hypothesis Hfin2 : final (get_neighbors g2) (universe g2 root) root dep2 order2 st2.

Lemma two_distance d n :
  distance (get_neighbors g1) root d n ↔ distance (get_neighbors g2) root d n.
Proof.
  split; apply same_neighbors_distance; [done|by apply same_neighbors_sym].
Qed.

Lemma two_dep d : dep1 !! d = dep2 !! d.
Proof.
  destruct (dep1 !! d) as [n|] eqn:H1n.
  - symmetry. eapply final_dep_distance; [done|].
    apply two_distance. by eapply final_distance.
  - destruct (dep2 !! d) as [n|] eqn:H2n; [|done].
    erewrite (final_dep_distance g1) in H1n; [done|done|].
    apply two_distance. by eapply final_distance.
Qed.

Lemma two_order : order1 ≡ₚ order2.
Proof.
  pose proof Hfin1 as (Hc1 & _ & _). pose proof Hfin2 as (Hc2 & _ & _).
  apply NoDup_Permutation;
    [apply (ci_nodup _ _ _ _ _ _ Hc1)|apply (ci_nodup _ _ _ _ _ _ Hc2)|].
  intros d. rewrite (ci_order _ _ _ _ _ _ Hc1), (ci_order _ _ _ _ _ _ Hc2).
  rewrite (ci_vis _ _ _ _ _ _ Hc1), (ci_vis _ _ _ _ _ _ Hc2).
  by rewrite two_dep.
Qed.

(** In a tree the two traversals build the same parent chains. *)
Lemma two_ancestors :
  unique_parent (get_neighbors g1) root →
  ∀ j d n, dep1 !! d = Some n → (j ≤ n)%nat →
    nth_ancestor (parent_map st1) j d = nth_ancestor (parent_map st2) j d.
Proof.
  intros Huniq.
  pose proof (ci_tree _ _ _ _ _ _ (proj1 Hfin1)) as Ht1.
  pose proof (ci_tree _ _ _ _ _ _ (proj1 Hfin2)) as Ht2.
  induction j as [|j IH]; intros d n Hd Hj; [done|].
  destruct n as [|n]; [lia|]. simpl.
  pose proof Hd as Hd2. rewrite two_dep in Hd2.
  pose proof (final_distance _ _ _ _ _ _ _ _ Hfin1 Hd) as Hdist.
  apply (tree_succ _ _ _ _ Ht1) in Hd as (p & -> & Hp & Hpd).
  apply (tree_succ _ _ _ _ Ht2) in Hd2 as (q & -> & Hq & Hqd).
  assert (p = q) as <-.
  { apply (Huniq d p q n); [done|by eapply final_distance| |done|].
    - apply two_distance. by eapply final_distance.
    - eapply same_neighbors_edge; [by apply same_neighbors_sym|done]. }
  apply (IH p n); [done|lia].
Qed.

Lemma two_chains d :
  unique_parent (get_neighbors g1) root → d ∈ order1 →
  chain (parent_map st1) dep1 d = chain (parent_map st2) dep2 d.
Proof.
  intros Huniq Hd.
  pose proof (ci_tree _ _ _ _ _ _ (proj1 Hfin1)) as Ht1.
  pose proof (ci_tree _ _ _ _ _ _ (proj1 Hfin2)) as Ht2.
  destruct (final_order_dep _ _ _ _ _ _ Hfin1 Hd) as (_ & n & Hn).
  pose proof Hn as Hn2. rewrite two_dep in Hn2.
  rewrite (chain_nth _ _ _ _ _ _ Ht1 Hn), (chain_nth _ _ _ _ _ _ Ht2 Hn2).
  apply omap_elem_ext. intros j [_ Hj]%elem_of_seq. unfold ancestor_entry.
  rewrite (two_ancestors Huniq j d n Hn); [done|lia].
Qed.

Lemma two_same_entries :
  unique_parent (get_neighbors g1) root →
  ∀ e, e ∈ closure_entries st1 ↔ e ∈ closure_entries st2.
Proof.
  intros Huniq e.
  rewrite (final_elem_of _ _ _ _ _ _ Hfin1), (final_elem_of _ _ _ _ _ _ Hfin2).
  split; (intros [?|(d & Hd & He)]; [by left|right; exists d]).
  - split; [by rewrite <-two_order|]. by rewrite <-two_chains.
  - rewrite <-two_order in Hd. split; [done|]. by rewrite two_chains.
Qed.
End two_traversals.

(** C4 (neighbour order), as the code has it. Two traversals from the same
    start node that differ only in the order in which neighbours are
    enumerated return lists of the same length, with the same descendants at
    the same depths and the same entries from the start node; when every
    node has a single neighbour one step nearer to the start node, as in a
    tree, they contain the same entries. *)
Theorem bfs_neighbor_order {G1 : Type} `{TraversalLaws G1} {G2 : Type} `{TraversalLaws G2}
    (g1 : G1) (g2 : G2) (root : Z) (fuel : nat) :
  valid_start g1 root → valid_start g2 root →
  same_neighbors (get_neighbors g1) (get_neighbors g2) →
  (size (universe g1 root) ≤ fuel)%nat → (size (universe g2 root) ≤ fuel)%nat →
  ∃ entries1 entries2,
    adapter_bfs_traversal g1 fuel root = Ret entries1 ∧
    adapter_bfs_traversal g2 fuel root = Ret entries2 ∧
    length entries1 = length entries2 ∧
    (∀ d k, (∃ a, (a, d, k) ∈ entries1) ↔ (∃ a, (a, d, k) ∈ entries2)) ∧
    (∀ d k, (root, d, k) ∈ entries1 ↔ (root, d, k) ∈ entries2) ∧
    (unique_parent (get_neighbors g1) root →
     ∀ e, e ∈ entries1 ↔ e ∈ entries2).
Proof.
  intros Hv1 Hv2 Hsame Hf1 Hf2.
  destruct (traversal_final g1 root fuel Hv1 Hf1) as (st1 & dep1 & order1 & Hrun1 & Hfin1).
  destruct (traversal_final g2 root fuel Hv2 Hf2) as (st2 & dep2 & order2 & Hrun2 & Hfin2).
  exists (closure_entries st1), (closure_entries st2).
  split; [by apply traversal_returns|]. split; [by apply traversal_returns|].
  pose proof (two_distance g1 g2 root Hsame) as Hdist.
  split_and!.
  - rewrite (final_length _ _ _ _ _ Hfin1), (final_length _ _ _ _ _ Hfin2). f_equal.
    rewrite (two_order g1 g2 root _ _ _ _ _ _ Hsame Hfin1 Hfin2).
    apply sum_list_with_ext_elem. intros d Hd.
    by rewrite (two_dep g1 g2 root _ _ _ _ _ _ Hsame Hfin1 Hfin2).
  - intros d k.
    rewrite (final_depths_of _ _ _ _ _ _ _ Hfin1), (final_depths_of _ _ _ _ _ _ _ Hfin2).
    by setoid_rewrite Hdist.
  - intros d k.
    rewrite (final_root_entries _ _ _ _ _ _ _ Hfin1), (final_root_entries _ _ _ _ _ _ _ Hfin2).
    by rewrite Hdist.
  - intros Huniq.
    exact (two_same_entries g1 g2 root dep1 dep2 order1 order2 st1 st2
             Hsame Hfin1 Hfin2 Huniq).
Qed.

(** ** The closure table of concrete networks *)

Lemma nx_chain4_valid : valid_start nx_chain4 1.
Proof. apply valid_start_built; [unfold nx_chain4; by_built|by_eval]. Qed.

Lemma nx_segment_valid : valid_start nx_segment 1.
Proof. apply valid_start_built; [unfold nx_segment; by_built|by_eval]. Qed.

(** C1, as stated, fails on the segment 1 - 2: node 2 is reachable from the
    start node 1 and has no self-entry [(2, 2, 0)]. *)
Lemma bfs_self_entry_counterexample :
  reachable (get_neighbors nx_segment) 1 2 ∧
  adapter_bfs_traversal nx_segment 2 1 = Ret [(1, 1, 0); (1, 2, 1)] ∧
  (2, 2, 0) ∉ [(1, 1, 0); (1, 2, 1)].
Proof.
  split_and!.
  - exists 1%nat. eapply path_step; [|constructor].
    exists [2]. split; [reflexivity|by_eval].
  - vm_compute. reflexivity.
  - by_eval.
Qed.

Lemma bfs_entries_of_node_witness :
  valid_start nx_chain4 1 ∧ (size (universe nx_chain4 1) ≤ 4)%nat ∧
  ∃ st,
    bfs_run (get_neighbors nx_chain4) 4 1 = Ret st ∧
    adapter_bfs_traversal nx_chain4 4 1 = Ret (closure_entries st) ∧
    (∀ n, n ∈ visited st ↔ reachable (get_neighbors nx_chain4) 1 n) ∧
    filter (λ e, descendant e = 1) (closure_entries st) = [(1, 1, 0)] ∧
    ∀ n, reachable (get_neighbors nx_chain4) 1 n → n ≠ 1 →
      ∃ k, distance (get_neighbors nx_chain4) 1 n k ∧ (0 < k)%nat ∧
        filter (λ e, descendant e = n) (closure_entries st) =
          omap (ancestor_entry (parent_map st) n) (seq 1 k) ∧
        depth <$> filter (λ e, descendant e = n) (closure_entries st) =
          Z.of_nat <$> seq 1 k ∧
        nth_ancestor (parent_map st) k n = Some 1.
Proof.
  assert (size (universe nx_chain4 1) ≤ 4)%nat as Hsize by by_eval.
  split; [exact nx_chain4_valid|]. split; [exact Hsize|].
  exact (bfs_entries_of_node nx_chain4 1 4 nx_chain4_valid Hsize).
Defined.

Lemma bfs_unique_pairs_witness :
  valid_start nx_chain4 1 ∧ (size (universe nx_chain4 1) ≤ 4)%nat ∧
  ∃ entries,
    adapter_bfs_traversal nx_chain4 4 1 = Ret entries ∧
    NoDup (pair_of <$> entries).
Proof.
  assert (size (universe nx_chain4 1) ≤ 4)%nat as Hsize by by_eval.
  split; [exact nx_chain4_valid|]. split; [exact Hsize|].
  exact (bfs_unique_pairs nx_chain4 1 4 nx_chain4_valid Hsize).
Defined.

Lemma nx_chain4_undirected a b :
  edge (get_neighbors nx_chain4) a b → edge (get_neighbors nx_chain4) b a.
Proof. apply built_undirected. unfold nx_chain4. by_built. Qed.

Lemma bfs_depth_is_distance_witness :
  valid_start nx_chain4 1 ∧ (size (universe nx_chain4 1) ≤ 4)%nat ∧
  (∀ a b, edge (get_neighbors nx_chain4) a b → edge (get_neighbors nx_chain4) b a) ∧
  ∃ entries,
    adapter_bfs_traversal nx_chain4 4 1 = Ret entries ∧
    ∀ a d k, (a, d, k) ∈ entries → 0 < k →
      distance (get_neighbors nx_chain4) a d (Z.to_nat k) ∧
      distance (get_neighbors nx_chain4) d a (Z.to_nat k).
Proof.
  assert (size (universe nx_chain4 1) ≤ 4)%nat as Hsize by by_eval.
  split; [exact nx_chain4_valid|]. split; [exact Hsize|].
  split; [exact nx_chain4_undirected|].
  exact (bfs_depth_is_distance nx_chain4 1 4 nx_chain4_valid Hsize nx_chain4_undirected).
Defined.

Lemma manual_same_neighbors (so1 so2 : SetIteration) (self : ManualNetworkAdapter.t) :
  same_neighbors (@get_neighbors _ (@manual_interface so1) self)
                 (@get_neighbors _ (@manual_interface so2) self).
Proof.
  intros n. simpl. unfold ManualNetworkAdapter.get_neighbors.
  by rewrite !set_list_perm.
Qed.

(** C4, as stated, fails on the square 1 - 2 - 4 - 3 - 1: with the neighbours
    of node 1 enumerated as 3, 2 the traversal records node 3 as the parent
    of node 4, with 2, 3 it records node 2. *)
Lemma bfs_neighbor_order_counterexample :
  same_neighbors (@get_neighbors _ (@manual_interface elements_order) manual_square)
                 (@get_neighbors _ (@manual_interface reverse_order) manual_square) ∧
  @adapter_bfs_traversal _ (@manual_interface elements_order) manual_square 4 1 =
    Ret [(1, 1, 0); (1, 3, 1); (1, 2, 1); (3, 4, 1); (1, 4, 2)] ∧
  @adapter_bfs_traversal _ (@manual_interface reverse_order) manual_square 4 1 =
    Ret [(1, 1, 0); (1, 2, 1); (1, 3, 1); (2, 4, 1); (1, 4, 2)] ∧
  (3, 4, 1) ∈ [(1, 1, 0); (1, 3, 1); (1, 2, 1); (3, 4, 1); (1, 4, 2)] ∧
  (3, 4, 1) ∉ [(1, 1, 0); (1, 2, 1); (1, 3, 1); (2, 4, 1); (1, 4, 2)].
Proof.
  split_and!.
  - apply manual_same_neighbors.
  - vm_compute. reflexivity.
  - vm_compute. reflexivity.
  - by_eval.
  - by_eval.
Qed.

Lemma manual_star_unique_parent (order : SetIteration) :
  unique_parent (@get_neighbors _ (@manual_interface order) manual_star) 1.
Proof.
  assert (∀ p d, edge (@get_neighbors _ (@manual_interface order) manual_star) p d →
                 (p = 1 ∧ d ≠ 1) ∨ (p ≠ 1 ∧ d = 1)) as Hedge.
  { intros p d. rewrite manual_edge. unfold manual_star.
    rewrite !adjacent_add_edge.
    intros [[(s & Hs & _)|?]|?]; [|lia..].
    unfold ManualNetworkAdapter.init in Hs. simpl in Hs.
    by rewrite lookup_empty in Hs. }
  intros d p q n Hd Hp Hq Hpd Hqd.
  assert (d ≠ 1) as Hne.
  { intros ->.
    assert (distance (@get_neighbors _ (@manual_interface order) manual_star) 1 1 0)
      as H0 by (split; [constructor|lia]).
    by pose proof (distance_unique _ _ _ _ _ Hd H0). }
  apply Hedge in Hpd as [[-> _]|[_ ?]]; [|done].
  apply Hedge in Hqd as [[-> _]|[_ ?]]; done.
Qed.

Lemma bfs_neighbor_order_witness :
  (@valid_start _ _ (@manual_laws elements_order) manual_square 1 ∧
   @valid_start _ _ (@manual_laws reverse_order) manual_square 1 ∧
   same_neighbors (@get_neighbors _ (@manual_interface elements_order) manual_square)
                  (@get_neighbors _ (@manual_interface reverse_order) manual_square) ∧
   (size (@universe _ _ (@manual_laws elements_order) manual_square 1) ≤ 4)%nat ∧
   (size (@universe _ _ (@manual_laws reverse_order) manual_square 1) ≤ 4)%nat ∧
   ∃ entries1 entries2,
     @adapter_bfs_traversal _ (@manual_interface elements_order) manual_square 4 1 =
       Ret entries1 ∧
     @adapter_bfs_traversal _ (@manual_interface reverse_order) manual_square 4 1 =
       Ret entries2 ∧
     length entries1 = length entries2 ∧
     (∀ d k, (∃ a, (a, d, k) ∈ entries1) ↔ (∃ a, (a, d, k) ∈ entries2)) ∧
     (∀ d k, (1, d, k) ∈ entries1 ↔ (1, d, k) ∈ entries2) ∧
     (unique_parent (@get_neighbors _ (@manual_interface elements_order) manual_square) 1 →
      ∀ e, e ∈ entries1 ↔ e ∈ entries2)) ∧
  (unique_parent (@get_neighbors _ (@manual_interface elements_order) manual_star) 1 ∧
   ∃ entries1 entries2,
     @adapter_bfs_traversal _ (@manual_interface elements_order) manual_star 3 1 =
       Ret entries1 ∧
     @adapter_bfs_traversal _ (@manual_interface reverse_order) manual_star 3 1 =
       Ret entries2 ∧
     ∀ e, e ∈ entries1 ↔ e ∈ entries2).
Proof.
  assert (size (@universe _ _ (@manual_laws elements_order) manual_square 1) ≤ 4)%nat
    as Hsize1 by by_eval.
  assert (size (@universe _ _ (@manual_laws reverse_order) manual_square 1) ≤ 4)%nat
    as Hsize2 by by_eval.
  assert (size (@universe _ _ (@manual_laws elements_order) manual_star 1) ≤ 3)%nat
    as Hsize3 by by_eval.
  assert (size (@universe _ _ (@manual_laws reverse_order) manual_star 1) ≤ 3)%nat
    as Hsize4 by by_eval.
  split.
  - split; [exact I|]. split; [exact I|].
    split; [apply manual_same_neighbors|]. split; [exact Hsize1|]. split; [exact Hsize2|].
    exact (@bfs_neighbor_order _ _ (@manual_laws elements_order)
             _ _ (@manual_laws reverse_order) manual_square manual_square 1 4
             I I (manual_same_neighbors elements_order reverse_order manual_square)
             Hsize1 Hsize2).
  - split; [apply manual_star_unique_parent|].
    destruct (@bfs_neighbor_order _ _ (@manual_laws elements_order)
                _ _ (@manual_laws reverse_order) manual_star manual_star 1 3
                I I (manual_same_neighbors elements_order reverse_order manual_star)
                Hsize3 Hsize4)
      as (entries1 & entries2 & Hrun1 & Hrun2 & _ & _ & _ & Hsame).
    exists entries1, entries2. split; [exact Hrun1|]. split; [exact Hrun2|].
    exact (Hsame (manual_star_unique_parent elements_order)).
Defined.

(** ** Operations of the adapters *)




Lemma manual_add_edge_twice (self : ManualNetworkAdapter.t) a b u v attrs1 attrs2 :
  (u = a ∧ v = b) ∨ (u = b ∧ v = a) →
  ManualNetworkAdapter.add_edge (ManualNetworkAdapter.add_edge self a b attrs1) u v attrs2 =
  ManualNetworkAdapter.add_edge self a b attrs1.
Proof.
  intros Huv. unfold ManualNetworkAdapter.add_edge. simpl. f_equal.
  set (edges1 := if decide (a ∈ dom (ManualNetworkAdapter.edges self))
                 then ManualNetworkAdapter.edges self
                 else <[a := ∅]> (ManualNetworkAdapter.edges self)).
  set (edges2 := if decide (b ∈ dom edges1) then edges1 else <[b := ∅]> edges1).
  set (edges4 := alter (λ s, s ∪ {[a]}) b (alter (λ s, s ∪ {[b]}) a edges2)).
  assert (a ∈ dom edges4 ∧ b ∈ dom edges4) as [Ha Hb].
  { unfold edges4, edges2, edges1. rewrite !dom_alter.
    repeat case_decide; rewrite ?dom_insert; set_solver. }
  assert (u ∈ dom edges4 ∧ v ∈ dom edges4) as [Hu Hv].
  { destruct Huv as [[-> ->]|[-> ->]]; done. }
  rewrite (decide_True (P := u ∈ dom edges4)) by done.
  rewrite (decide_True (P := v ∈ dom edges4)) by done.
  apply map_eq. intros k. unfold edges4. rewrite !lookup_alter.
  destruct Huv as [[-> ->]|[-> ->]];
    repeat case_decide; subst; destruct (edges2 !! k) as [s|]; simpl; try done;
    f_equal; set_solver.
Qed.

Lemma od_keys_set_twice {A : Type} (d : list (Z * A)) k v v' :
  od_keys (od_set k v' (od_set k v d)) = od_keys (od_set k v d).
Proof. apply od_keys_set_present. apply elem_of_od_keys_set. by left. Qed.

Lemma od_keys_set_comm_present {A : Type} (d : list (Z * A)) k k' v v' v'' :
  od_keys (od_set k v'' (od_set k' v' (od_set k v d))) =
  od_keys (od_set k' v' (od_set k v d)).
Proof.
  apply od_keys_set_present. apply elem_of_od_keys_set. right.
  apply elem_of_od_keys_set. by left.
Qed.

Lemma nx_ensure_node_present (G : NetworkXAdapter.Graph) u :
  u ∈ od_keys (NetworkXAdapter._node G) → NetworkXAdapter.nx_ensure_node G u = G.
Proof.
  intros [? Hu]%od_get_is_Some. unfold NetworkXAdapter.nx_ensure_node. by rewrite Hu.
Qed.

Lemma nx_ensure_node_keys (G : NetworkXAdapter.Graph) u n :
  n ∈ od_keys (NetworkXAdapter._node (NetworkXAdapter.nx_ensure_node G u)) ↔
  n = u ∨ n ∈ od_keys (NetworkXAdapter._node G).
Proof.
  unfold NetworkXAdapter.nx_ensure_node.
  destruct (od_get u (NetworkXAdapter._node G)) eqn:Hu; simpl.
  - split; [tauto|]. intros [->|?]; [|done]. apply od_get_is_Some. eauto.
  - apply elem_of_od_keys_set.
Qed.

Lemma nx_add_edge_present (G : NetworkXAdapter.Graph) u v attr :
  u ∈ od_keys (NetworkXAdapter._node G) → v ∈ od_keys (NetworkXAdapter._node G) →
  NetworkXAdapter.nx_add_edge G u v attr =
  let datadict' :=
    attr ∪ default ∅ (od_get v (default [] (NetworkXAdapter._adj G !! u))) in
  NetworkXAdapter.BuildGraph (NetworkXAdapter._node G)
    (alter (od_set u datadict') v (alter (od_set v datadict') u (NetworkXAdapter._adj G))).
Proof.
  intros Hu Hv. unfold NetworkXAdapter.nx_add_edge.
  by rewrite (nx_ensure_node_present G u Hu), (nx_ensure_node_present G v Hv).
Qed.

Lemma nx_add_edge_twice (G : NetworkXAdapter.Graph) a b u v attr1 attr2 :
  (u = a ∧ v = b) ∨ (u = b ∧ v = a) →
  let G1 := NetworkXAdapter.nx_add_edge G a b attr1 in
  let G2 := NetworkXAdapter.nx_add_edge G1 u v attr2 in
  od_keys (NetworkXAdapter._node G2) = od_keys (NetworkXAdapter._node G1) ∧
  ∀ n, od_keys <$> (NetworkXAdapter._adj G2 !! n) =
       od_keys <$> (NetworkXAdapter._adj G1 !! n).
Proof.
  intros Huv G1 G2.
  assert (a ∈ od_keys (NetworkXAdapter._node G1) ∧
          b ∈ od_keys (NetworkXAdapter._node G1)) as [Ha Hb].
  { unfold G1, NetworkXAdapter.nx_add_edge. simpl.
    rewrite !nx_ensure_node_keys. tauto. }
  assert (u ∈ od_keys (NetworkXAdapter._node G1) ∧
          v ∈ od_keys (NetworkXAdapter._node G1)) as [Hu Hv].
  { destruct Huv as [[-> ->]|[-> ->]]; done. }
  unfold G2. rewrite (nx_add_edge_present G1 u v attr2 Hu Hv). simpl.
  split; [done|]. intros n.
  set (dd2 := attr2 ∪ _). clearbody dd2.
  unfold G1, NetworkXAdapter.nx_add_edge. simpl.
  set (G0 := NetworkXAdapter.nx_ensure_node (NetworkXAdapter.nx_ensure_node G a) b).
  set (dd1 := attr1 ∪ _). clearbody dd1.
  rewrite !lookup_alter.
  destruct Huv as [[-> ->]|[-> ->]];
    repeat case_decide; subst;
    destruct (NetworkXAdapter._adj G0 !! n) as [d|]; simpl; try done; f_equal;
    rewrite ?od_keys_set_twice, ?od_keys_set_comm_present, ?od_keys_set_twice; done.
Qed.

Lemma nx_neighbors_keys (G G' : NetworkXAdapter.Graph) n :
  od_keys <$> (NetworkXAdapter._adj G !! n) = od_keys <$> (NetworkXAdapter._adj G' !! n) →
  NetworkXAdapter.nx_neighbors G n = NetworkXAdapter.nx_neighbors G' n.
Proof.
  unfold NetworkXAdapter.nx_neighbors.
  destruct (NetworkXAdapter._adj G !! n), (NetworkXAdapter._adj G' !! n);
    simpl; congruence.
Qed.

(** C9 (one undirected edge). Adding the edge [(a, b)] again, or [(b, a)]
    after [(a, b)], changes nothing in [ManualNetworkAdapter] and leaves the
    nodes and the neighbours of every node, in their order, as they are in
    [NetworkXAdapter]. *)
Theorem add_edge_idempotent :
  (∀ (self : ManualNetworkAdapter.t) a b attrs1 attrs2,
     let self1 := ManualNetworkAdapter.add_edge self a b attrs1 in
     ManualNetworkAdapter.add_edge self1 a b attrs2 = self1 ∧
     ManualNetworkAdapter.add_edge self1 b a attrs2 = self1) ∧
  (∀ (self : NetworkXAdapter.t) a b attrs1 attrs2 n,
     let self1 := add_edge self a b attrs1 in
     get_nodes (add_edge self1 a b attrs2) = get_nodes self1 ∧
     get_nodes (add_edge self1 b a attrs2) = get_nodes self1 ∧
     get_neighbors (add_edge self1 a b attrs2) n = get_neighbors self1 n ∧
     get_neighbors (add_edge self1 b a attrs2) n = get_neighbors self1 n).
Proof.
  split.
  - intros self a b attrs1 attrs2 self1. split; apply manual_add_edge_twice; tauto.
  - intros self a b attrs1 attrs2 n self1.
    destruct (nx_add_edge_twice self a b a b attrs1 attrs2) as [Hk1 Hn1]; [tauto|].
    destruct (nx_add_edge_twice self a b b a attrs1 attrs2) as [Hk2 Hn2]; [tauto|].
    split_and!; [exact Hk1|exact Hk2| |].
    + apply nx_neighbors_keys, Hn1.
    + apply nx_neighbors_keys, Hn2.
Qed.



(** ** Records *)

Lemma py_int_cases (s : string) : (∃ n, py_int s = Ret n) ∨ py_int s = Raise ValueError.
Proof.
  unfold py_int. destruct (read_sign _) as [negative cs].
  destruct (digitpart cs) as [[[v n] [|c rest]]|]; eauto.
Qed.

Lemma py_float_cases (s : string) :
  (∃ x, py_float s = Ret x) ∨ py_float s = Raise ValueError.
Proof.
  unfold py_float. destruct (read_sign _) as [negative cs].
  repeat case_decide; eauto. destruct (read_floatnumber negative cs); eauto.
Qed.

(** C8, as stated, fails: a record with the length -5.0 and the capacity -10
    is constructed, with these values. *)
Lemma from_csv_row_counterexample :
  Segmento.from_csv_row negative_row =
    Ret (Segmento.Build 7 "C1" 1 2 (FDec true 50 (-1)) 1 (-10)) ∧
  float_negative (FDec true 50 (-1)) = true ∧ -10 < 0.
Proof. split_and!; [vm_compute; reflexivity|reflexivity|lia]. Qed.

(** C8 (malformed records), as the code has it. With all columns present,
    [Segmento.from_csv_row] and [Nodo.from_csv_row] raise [ValueError] when
    [int] or [float] rejects the text of a numeric column, and otherwise
    return the record of the values read: no value is rejected for its sign
    or range. *)
Theorem from_csv_row_numeric :
  (∀ (row : gmap string string) s1 s2 s3 s4 s5 s6 s7,
     row !! "id_segmento" = Some s1 → row !! "id_circuito" = Some s2 →
     row !! "nodo_inicio" = Some s3 → row !! "nodo_fin" = Some s4 →
     row !! "longitud_m" = Some s5 → row !! "tipo_conductor" = Some s6 →
     row !! "capacidad_amp" = Some s7 →
     (py_int s1 = Raise ValueError ∨ py_int s3 = Raise ValueError ∨
      py_int s4 = Raise ValueError ∨ py_float s5 = Raise ValueError ∨
      py_int s6 = Raise ValueError ∨ py_int s7 = Raise ValueError →
      Segmento.from_csv_row row = Raise ValueError) ∧
     (∀ v1 v3 v4 v5 v6 v7,
        py_int s1 = Ret v1 → py_int s3 = Ret v3 → py_int s4 = Ret v4 →
        py_float s5 = Ret v5 → py_int s6 = Ret v6 → py_int s7 = Ret v7 →
        Segmento.from_csv_row row = Ret (Segmento.Build v1 s2 v3 v4 v5 v6 v7))) ∧
  (∀ (row : gmap string string) s1 s2 s3 s4 s5 s6,
     row !! "id_nodo" = Some s1 → row !! "nombre" = Some s2 →
     row !! "tipo" = Some s3 → row !! "voltaje_kv" = Some s4 →
     row !! "x" = Some s5 → row !! "y" = Some s6 →
     (py_int s1 = Raise ValueError ∨ py_float s4 = Raise ValueError ∨
      py_float s5 = Raise ValueError ∨ py_float s6 = Raise ValueError →
      Nodo.from_csv_row row = Raise ValueError) ∧
     (∀ v1 v4 v5 v6,
        py_int s1 = Ret v1 → py_float s4 = Ret v4 →
        py_float s5 = Ret v5 → py_float s6 = Ret v6 →
        Nodo.from_csv_row row = Ret (Nodo.Build v1 s2 s3 v4 v5 v6))).
Proof.
  split.
  - intros row s1 s2 s3 s4 s5 s6 s7 H1 H2 H3 H4 H5 H6 H7.
    unfold Segmento.from_csv_row, row_get. rewrite H1, H2, H3, H4, H5, H6, H7.
    cbn -[py_int py_float]. split.
    + intros Hbad.
      destruct (py_int_cases s1) as [[? E1]|E1], (py_int_cases s3) as [[? E3]|E3],
        (py_int_cases s4) as [[? E4]|E4], (py_float_cases s5) as [[? E5]|E5],
        (py_int_cases s6) as [[? E6]|E6], (py_int_cases s7) as [[? E7]|E7];
        rewrite ?E1, ?E3, ?E4, ?E5, ?E6, ?E7 in *; simpl; try done;
        exfalso; intuition discriminate.
    + intros v1 v3 v4 v5 v6 v7 -> -> -> -> -> ->. done.
  - intros row s1 s2 s3 s4 s5 s6 H1 H2 H3 H4 H5 H6.
    unfold Nodo.from_csv_row, row_get. rewrite H1, H2, H3, H4, H5, H6.
    cbn -[py_int py_float]. split.
    + intros Hbad.
      destruct (py_int_cases s1) as [[? E1]|E1], (py_float_cases s4) as [[? E4]|E4],
        (py_float_cases s5) as [[? E5]|E5], (py_float_cases s6) as [[? E6]|E6];
        rewrite ?E1, ?E4, ?E5, ?E6 in *; simpl; try done;
        exfalso; intuition discriminate.
    + intros v1 v4 v5 v6 -> -> -> ->. done.
Qed.

Lemma from_csv_row_numeric_witness :
  Segmento.from_csv_row malformed_row = Raise ValueError ∧
  Segmento.from_csv_row negative_row =
    Ret (Segmento.Build 7 "C1" 1 2 (FDec true 50 (-1)) 1 (-10)).
Proof.
  split.
  - apply (proj1 (proj1 from_csv_row_numeric malformed_row
                    "7" "C1" "1" "2" "-5.0" "1" "2OO"
                    eq_refl eq_refl eq_refl eq_refl eq_refl eq_refl eq_refl)).
    do 5 right. reflexivity.
  - apply (proj2 (proj1 from_csv_row_numeric negative_row
                    "7" "C1" "1" "2" "-5.0" "1" "-10"
                    eq_refl eq_refl eq_refl eq_refl eq_refl eq_refl eq_refl));
      reflexivity.
Defined.

(** ** Placeholder nodes and the choice of the start node *)

(** C6 on [ManualNetworkAdapter]: node 1 is registered and a segment joins
    it to the unseen node 99. [add_edge] gives node 99 a neighbour set and
    empty attributes, and the traversal from node 1 reaches it, but
    [get_nodes] does not list it; [NetworkXAdapter] lists it. *)
Theorem manual_placeholder_not_listed :
  let manual : ManualNetworkAdapter.t :=
    @build_network _ (@manual_interface elements_order) ManualNetworkAdapter.init
      [subestacion 1] [segmento 1 1 99] in
  let networkx : NetworkXAdapter.t :=
    build_network init [subestacion 1] [segmento 1 1 99] in
  @get_nodes _ (@manual_interface elements_order) manual = [1] ∧
  @get_neighbors _ (@manual_interface elements_order) manual 1 = Ret [99] ∧
  @get_node_attributes _ (@manual_interface elements_order) manual 99 = Ret ∅ ∧
  @adapter_bfs_traversal _ (@manual_interface elements_order) manual 2 1 =
    Ret [(1, 1, 0); (1, 99, 1)] ∧
  get_nodes networkx = [1; 99].
Proof. split_and!; vm_compute; reflexivity. Qed.

(** [add_edge] of [ManualNetworkAdapter] never changes the list of nodes. *)
Lemma manual_add_edge_get_nodes (self : ManualNetworkAdapter.t) a b attrs :
  ManualNetworkAdapter.get_nodes (ManualNetworkAdapter.add_edge self a b attrs) =
  ManualNetworkAdapter.get_nodes self.
Proof. reflexivity. Qed.

Lemma foldl_visited_global (entries : list entry) (vg : gset Z) (n : Z) :
  n ∈ foldl (λ vg e, {[descendant e]} ∪ ({[ancestor e]} ∪ vg)) vg entries ↔
  n ∈ vg ∨ covered entries n.
Proof.
  unfold covered. revert vg. induction entries as [|e entries IH]; intros vg; simpl.
  - split; [by left|]. intros [?|(e & He & _)]; [done|by inversion He].
  - rewrite IH, !elem_of_union, !elem_of_singleton. split.
    + intros [[->|[->|?]]|(e' & He' & Hn)].
      * right. exists e. split; [by left|by right].
      * right. exists e. split; [by left|by left].
      * by left.
      * right. exists e'. split; [by right|done].
    + intros [?|(e' & [->|He']%elem_of_cons & Hn)].
      * left. by right; right.
      * left. destruct Hn as [->| ->]; [right; by left|by left].
      * right. by exists e'.
Qed.

Section main_loop.
Context {G : Type} `{TraversalLaws G}.
Implicit Types (g : G) (vg : gset Z).

Lemma main_visit_ok fuel g all vg s :
  valid_start g s → (size (universe g s) ≤ fuel)%nat →
  (∀ n, n ∈ vg ↔ covered all n) →
  ∃ all' vg',
    main_visit fuel g (all, vg) s = Ret (all', vg') ∧
    (∀ n, n ∈ vg' ↔ covered all' n) ∧ s ∈ vg' ∧ vg ⊆ vg'.
Proof.
  intros Hv Hfuel Hinv. unfold main_visit.
  destruct (decide (s ∈ vg)) as [Hs|Hs].
  { exists all, vg. by split_and!. }
  destruct (traversal_final g s fuel Hv Hfuel) as (st & dep & order & Hrun & Hfin).
  rewrite (traversal_returns g s fuel st Hrun). simpl.
  eexists _, _. split; [reflexivity|].
  assert (∀ n, covered (all ++ closure_entries st) n ↔
               covered all n ∨ covered (closure_entries st) n) as Happ.
  { intros n. unfold covered. split.
    - intros (e & [?|?]%elem_of_app & ?); [left|right]; eauto.
    - intros [(e & ? & ?)|(e & ? & ?)]; exists e; rewrite elem_of_app; eauto. }
  split_and!.
  - intros n. by rewrite foldl_visited_global, Happ, Hinv.
  - apply foldl_visited_global. right. exists (s, s, 0). split; [|by left].
    rewrite (final_entries _ _ _ _ _ _ Hfin). by left.
  - intros n Hn. apply foldl_visited_global. by left.
Qed.

(** The loop of [main] returns, and every node that [get_nodes] lists occurs
    in the closure entries. *)
Lemma main_traversal_covers fuel g :
  (∀ s, s ∈ get_nodes g → valid_start g s ∧ (size (universe g s) ≤ fuel)%nat) →
  ∃ all vg,
    main_traversal fuel g = Ret (all, vg) ∧
    ∀ n, n ∈ get_nodes g → covered all n.
Proof.
  intros Hok. unfold main_traversal.
  assert (∀ nodes all vg,
            (∀ s, s ∈ nodes → valid_start g s ∧ (size (universe g s) ≤ fuel)%nat) →
            (∀ n, n ∈ vg ↔ covered all n) →
            ∃ all' vg',
              for_each (main_visit fuel g) (all, vg) nodes = Ret (all', vg') ∧
              (∀ n, n ∈ vg' ↔ covered all' n) ∧ vg ⊆ vg' ∧
              ∀ n, n ∈ nodes → n ∈ vg') as Hloop.
  { induction nodes as [|s nodes IH]; intros all vg Hnodes Hinv.
    - exists all, vg. split_and!; [done..|]. intros n Hn. by inversion Hn.
    - destruct (Hnodes s) as [Hv Hfuel]; [by left|].
      destruct (main_visit_ok fuel g all vg s Hv Hfuel Hinv)
        as (all1 & vg1 & Hrun1 & Hinv1 & Hs1 & Hsub1).
      destruct (IH all1 vg1) as (all2 & vg2 & Hrun2 & Hinv2 & Hsub2 & Hall2);
        [intros; apply Hnodes; by right|done|].
      exists all2, vg2. cbn [for_each]. rewrite Hrun1. simpl.
      split_and!; [done|done|set_solver|].
      intros n [->|Hn]%elem_of_cons; [set_solver|by apply Hall2]. }
  destruct (Hloop (get_nodes g) [] ∅ Hok) as (all & vg & Hrun & Hinv & _ & Hall).
  { intros n. split; [set_solver|]. intros (e & He & _). by inversion He. }
  exists all, vg. split; [done|]. intros n Hn. by apply Hinv, Hall.
Qed.
End main_loop.

(** The three tests of [test_subestacion.py]. *)
Example test_find_subestacion_success :
  find_subestacion_node test_network_1 = Ret 1.
Proof. reflexivity. Qed.

Example test_find_subestacion_error :
  find_subestacion_node test_network_2 = Raise ValueError.
Proof. reflexivity. Qed.

Example test_bfs_from_subestacion :
  ∃ closure_entries,
    adapter_bfs_traversal test_network_3 4 1 = Ret closure_entries ∧
    (0 < length closure_entries)%nat ∧
    length (filter (λ e, ancestor e = 1 ∧ descendant e = 1) closure_entries) = 1%nat ∧
    list_to_set
      (descendant <$> filter (λ e, ancestor e = 1 ∧ 0 < depth e) closure_entries)
    = ({[2; 3; 4]} : gset Z).
Proof.
  exists [(1, 1, 0); (1, 2, 1); (2, 3, 1); (1, 3, 2); (3, 4, 1); (2, 4, 2); (1, 4, 3)].
  split_and!; [vm_compute; reflexivity|simpl; lia|reflexivity|by_eval].
Qed.

(** C5: node 2 is listed before the substation node 1 of its component.
    [find_subestacion_node] returns node 1, and the loop of [main] starts the
    traversal at node 2: node 1 is recorded as a descendant of node 2. *)
Theorem main_starts_at_first_node :
  let network : NetworkXAdapter.t :=
    build_network init [poste 2; subestacion 1] [segmento 1 2 1] in
  get_nodes network = [2; 1] ∧
  find_subestacion_node network = Ret 1 ∧
  main_traversal 2 network = Ret ([(2, 2, 0); (2, 1, 1)], {[1; 2]}).
Proof. split_and!; vm_compute; reflexivity. Qed.


(** * Further properties of the code *)

(** ** The closure table as a relation *)

Lemma nth_ancestor_add pm j :
  ∀ k d b a, nth_ancestor pm k d = Some b → nth_ancestor pm j b = Some a →
    nth_ancestor pm (k + j) d = Some a.
Proof.
  induction k as [|k IH]; intros d b a Hk Hj; simpl in *.
  - by injection Hk as ->.
  - destruct (pm !! d) as [[p|]|]; [|done..]. by eapply IH.
Qed.

Lemma path_zero nb a b : path nb a b 0 → a = b.
Proof. by inversion 1. Qed.

Lemma path_one nb a b : path nb a b 1 → edge nb a b.
Proof. inversion 1 as [|? y ? ? He Hp]; subst. by apply path_zero in Hp as ->. Qed.

Section closure_relation.
Context {G : Type} `{TraversalLaws G}.
Implicit Types (g : G) (root : Z) (st : bfs_state).

(** An entry other than the self-entry relates a visited node to the node
    that many steps above it in the traversal tree. *)
Lemma final_entry_nth g root dep order st a d k :
  final (get_neighbors g) (universe g root) root dep order st →
  (a, d, k) ∈ closure_entries st ↔
  (a = root ∧ d = root ∧ k = 0) ∨
  ∃ j, (0 < j)%nat ∧ k = Z.of_nat j ∧ d ∈ visited st ∧
       nth_ancestor (parent_map st) j d = Some a.
Proof.
  intros Hfin. pose proof Hfin as (Hc & _ & _).
  pose proof (ci_tree _ _ _ _ _ _ Hc) as Ht.
  rewrite (final_elem_of _ _ _ _ _ _ Hfin). split.
  - intros [[= -> -> ->]|(d' & Hd' & He)]; [by left|right].
    destruct (final_order_dep _ _ _ _ _ _ Hfin Hd') as (Hne & n & Hn).
    rewrite (chain_nth _ _ _ _ _ _ Ht Hn) in He.
    apply list_elem_of_omap in He as (j & Hj & He). apply elem_of_seq in Hj.
    unfold ancestor_entry in He.
    destruct (nth_ancestor (parent_map st) j d') as [a'|] eqn:Ha; [|done].
    simpl in He. injection He as <- <- <-.
    exists j. split_and!; [lia|done| |done].
    by apply (ci_order _ _ _ _ _ _ Hc) in Hd' as [? _].
  - intros [(-> & -> & ->)|(j & Hj & -> & Hd & Ha)]; [by left|right].
    apply (ci_vis _ _ _ _ _ _ Hc) in Hd as Hn. destruct Hn as [n Hn].
    destruct (nth_ancestor_dep _ _ _ _ Ht _ _ _ _ Hn Ha) as [Hle _].
    assert (d ≠ root) as Hne.
    { intros ->. rewrite (tree_root _ _ _ _ Ht) in Hn. injection Hn as <-. lia. }
    exists d. split; [by apply (ci_order _ _ _ _ _ _ Hc)|].
    rewrite (chain_nth _ _ _ _ _ _ Ht Hn). apply list_elem_of_omap.
    exists j. split; [apply elem_of_seq; lia|].
    unfold ancestor_entry. by rewrite Ha.
Qed.

(** The levels of the two nodes of an entry differ by its depth. *)
Lemma final_entry_levels g root dep order st a d k :
  final (get_neighbors g) (universe g root) root dep order st →
  (a, d, k) ∈ closure_entries st →
  ∃ n m, dep !! a = Some m ∧ dep !! d = Some n ∧ Z.of_nat n = Z.of_nat m + k ∧
         path (get_neighbors g) a d (n - m).
Proof.
  intros Hfin. pose proof Hfin as (Hc & _ & _).
  pose proof (ci_tree _ _ _ _ _ _ Hc) as Ht.
  intros [[= -> -> ->]|(d' & Hd' & He)]%(final_elem_of _ _ _ _ _ _ Hfin).
  - exists 0%nat, 0%nat. rewrite (tree_root _ _ _ _ Ht).
    split_and!; [done|done|done|constructor].
  - destruct (final_order_dep _ _ _ _ _ _ Hfin Hd') as (_ & n & Hn).
    destruct (chain_spec _ _ _ _ _ _ _ Ht Hn He) as (Hde & m & Hm & Hlt & Hdepth & Hp).
    unfold descendant, ancestor, depth in *. simpl in *. subst d' k.
    exists n, m. split_and!; [done|done|lia|done].
Qed.

(** X1. The entries that [bfs_traversal] returns form a transitive relation
    in which depths add up: with [(a, b, j)] and [(b, c, k)] the list has
    [(a, c, j + k)]. *)
Theorem bfs_closure_transitive g root fuel :
  valid_start g root → (size (universe g root) ≤ fuel)%nat →
  ∃ entries,
    adapter_bfs_traversal g fuel root = Ret entries ∧
    ∀ a b c j k, (a, b, j) ∈ entries → (b, c, k) ∈ entries →
      (a, c, j + k) ∈ entries.
Proof.
  intros Hv Hfuel.
  destruct (traversal_final g root fuel Hv Hfuel) as (st & dep & order & Hrun & Hfin).
  exists (closure_entries st). split; [by apply traversal_returns|].
  pose proof Hfin as (Hc & _ & _).
  pose proof (ci_tree _ _ _ _ _ _ Hc) as Ht.
  intros a b c j k Hab Hbc.
  apply (final_entry_nth _ _ _ _ _ _ _ _ Hfin) in Hab, Hbc.
  destruct Hab as [(-> & -> & ->)|(j' & Hj' & -> & Hb & Ha)].
  { apply (final_entry_nth _ _ _ _ _ _ _ _ Hfin). by rewrite Z.add_0_l. }
  destruct Hbc as [(-> & -> & ->)|(k' & Hk' & -> & Hcv & Hbn)].
  { destruct (nth_ancestor_dep _ _ _ _ Ht _ _ _ _ (tree_root _ _ _ _ Ht) Ha). lia. }
  apply (final_entry_nth _ _ _ _ _ _ _ _ Hfin). right.
  exists (k' + j')%nat. split_and!; [lia|lia|done|].
  by eapply nth_ancestor_add.
Qed.


(** X3. The entries of depth 1 are the edges of the traversal tree: each is
    an edge of the graph, and every node reachable from the start node, other
    than the start node, has exactly one of them, to its parent. *)
Theorem bfs_parent_entries g root fuel :
  valid_start g root → (size (universe g root) ≤ fuel)%nat →
  ∃ entries,
    adapter_bfs_traversal g fuel root = Ret entries ∧
    (∀ a d, (a, d, 1) ∈ entries → edge (get_neighbors g) a d) ∧
    (∀ d, reachable (get_neighbors g) root d → d ≠ root →
       ∃ a, (a, d, 1) ∈ entries ∧ ∀ a', (a', d, 1) ∈ entries → a' = a).
Proof.
  intros Hv Hfuel.
  destruct (traversal_final g root fuel Hv Hfuel) as (st & dep & order & Hrun & Hfin).
  exists (closure_entries st). split; [by apply traversal_returns|].
  pose proof Hfin as (Hc & _ & _).
  pose proof (ci_tree _ _ _ _ _ _ Hc) as Ht. split.
  - intros a d (n & m & _ & _ & Hk & Hp)%(final_entry_levels _ _ _ _ _ _ _ _ Hfin).
    apply path_one. by replace (n - m)%nat with 1%nat in Hp by lia.
  - intros d Hd%(final_visited _ _ _ _ _ _ _ Hfin) Hne.
    apply (ci_vis _ _ _ _ _ _ Hc) in Hd as Hn. destruct Hn as [[|n] Hn].
    { by apply (tree_zero _ _ _ _ Ht) in Hn as [? _]. }
    destruct (tree_succ _ _ _ _ Ht _ _ Hn) as (p & Hp & _).
    exists p. split.
    + apply (final_entry_nth _ _ _ _ _ _ _ _ Hfin). right.
      exists 1%nat. split_and!; [lia|done|done|]. simpl. by rewrite Hp.
    + intros a' [(_ & _ & ?)|(j & Hj & Hk & _ & Ha)]%(final_entry_nth _ _ _ _ _ _ _ _ Hfin);
        [done|].
      assert (j = 1%nat) as -> by lia. simpl in Ha. rewrite Hp in Ha. congruence.
Qed.

(** X4. The entries of [bfs_traversal] stay inside the part of the graph that
    can be reached from the start node, and the start node is an ancestor of
    all of it: [(start, d, k)] is an entry exactly when [k] is the distance of
    [d] from the start node. *)
Theorem bfs_component g root fuel :
  valid_start g root → (size (universe g root) ≤ fuel)%nat →
  ∃ entries,
    adapter_bfs_traversal g fuel root = Ret entries ∧
    (∀ a d k, (a, d, k) ∈ entries →
       reachable (get_neighbors g) root a ∧ reachable (get_neighbors g) root d) ∧
    (∀ d k, (root, d, k) ∈ entries ↔
       0 ≤ k ∧ distance (get_neighbors g) root d (Z.to_nat k)).
Proof.
  intros Hv Hfuel.
  destruct (traversal_final g root fuel Hv Hfuel) as (st & dep & order & Hrun & Hfin).
  exists (closure_entries st). split; [by apply traversal_returns|].
  pose proof Hfin as (Hc & _ & _).
  pose proof (ci_tree _ _ _ _ _ _ Hc) as Ht. split.
  - intros a d k (n & m & Hm & Hn & _)%(final_entry_levels _ _ _ _ _ _ _ _ Hfin).
    split; apply (final_visited _ _ _ _ _ _ _ Hfin), (ci_vis _ _ _ _ _ _ Hc); eauto.
  - intros d k. rewrite (final_root_entries _ _ _ _ _ _ _ Hfin). split.
    + intros [[-> ->]|(Hne & Hk & Hd)]; [|split; [lia|done]].
      split; [done|]. split; [constructor|lia].
    + intros [Hk Hd]. destruct (decide (d = root)) as [->|Hne].
      * left. split; [done|].
        assert (Z.to_nat k = 0%nat); [|lia].
        eapply distance_unique; [done|]. split; [constructor|lia].
      * right. split_and!; [done| |done].
        destruct (decide (k = 0)) as [->|]; [|lia].
        destruct Hd as [Hp _]. by apply path_zero in Hp.
Qed.
End closure_relation.

(** ** Start nodes without neighbours *)

Lemma bfs_traversal_isolated nb (start_node : Z) (fuel : nat) :
  nb start_node = Ret [] →
  bfs_traversal nb (S fuel) start_node = Ret [(start_node, start_node, 0)].
Proof.
  intros Hnb. unfold bfs_traversal, bfs_run, bfs_init.
  cbn [bfs_loop queue process_item]. rewrite decide_True by done.
  rewrite Hnb. simpl. by destruct fuel.
Qed.

Lemma bfs_traversal_raise nb (start_node : Z) (fuel : nat) e :
  nb start_node = Raise e → bfs_traversal nb (S fuel) start_node = Raise e.
Proof.
  intros Hnb. unfold bfs_traversal, bfs_run, bfs_init.
  cbn [bfs_loop queue process_item]. rewrite decide_True by done.
  by rewrite Hnb.
Qed.

(** X5. [bfs_traversal] from a start node whose neighbour list is empty
    returns the self-entry alone, and an exception of [get_neighbors] for the
    start node leaves [bfs_traversal]. *)
Theorem bfs_start_without_neighbors {G : Type} `{NetworkInterface G}
    (g : G) (start_node : Z) (fuel : nat) :
  (get_neighbors g start_node = Ret [] →
   adapter_bfs_traversal g (S fuel) start_node =
     Ret [(start_node, start_node, 0)]) ∧
  (∀ e, get_neighbors g start_node = Raise e →
     adapter_bfs_traversal g (S fuel) start_node = Raise e).
Proof.
  split.
  - apply bfs_traversal_isolated.
  - intros e. apply bfs_traversal_raise.
Qed.

Lemma bfs_start_without_neighbors_witness :
  @adapter_bfs_traversal _ (@manual_interface elements_order) manual_square 1 99 =
    Ret [(99, 99, 0)] ∧
  adapter_bfs_traversal nx_segment 1 99 = Raise NetworkXError.
Proof.
  split.
  - apply (proj1 (@bfs_start_without_neighbors _ (@manual_interface elements_order)
                    manual_square 99 0)).
    vm_compute. reflexivity.
  - apply (proj2 (bfs_start_without_neighbors nx_segment 99 0)).
    vm_compute. reflexivity.
Defined.

(** ** The loop of [main] over all start nodes *)

Lemma covered_app (all entries : list entry) (n : Z) :
  covered (all ++ entries) n ↔ covered all n ∨ covered entries n.
Proof.
  unfold covered. split.
  - intros (e & [?|?]%elem_of_app & ?); [left|right]; eauto.
  - intros [(e & ? & ?)|(e & ? & ?)]; exists e; rewrite elem_of_app; eauto.
Qed.

Lemma closed_path nb (vg : gset Z) :
  (∀ a b, a ∈ vg → edge nb a b → b ∈ vg) →
  ∀ a b n, path nb a b n → a ∈ vg → b ∈ vg.
Proof. intros Hcl a b n. induction 1 as [|x y z n He _ IH]; eauto. Qed.

Section main_partition.
Context {G : Type} `{TraversalLaws G}.
Implicit Types (g : G) (vg : gset Z) (all : list entry).

Lemma final_unique_pairs g root dep order st :
  final (get_neighbors g) (universe g root) root dep order st →
  NoDup (pair_of <$> closure_entries st).
Proof.
  intros Hfin. pose proof Hfin as (Hc & _ & _).
  pose proof (ci_tree _ _ _ _ _ _ Hc) as Ht.
  rewrite (final_entries _ _ _ _ _ _ Hfin). simpl. constructor.
  - intros (e & Hp & (d & Hd & He)%elem_of_flat_map)%list_elem_of_fmap.
    destruct (final_order_dep _ _ _ _ _ _ Hfin Hd) as (Hne & n & Hn).
    destruct (chain_spec _ _ _ _ _ _ _ Ht Hn He) as [Hde _].
    unfold pair_of, ancestor, descendant in *. simpl in *. congruence.
  - apply NoDup_flat_map_pairs.
    + apply (ci_nodup _ _ _ _ _ _ Hc).
    + intros d e Hd He.
      destruct (final_order_dep _ _ _ _ _ _ Hfin Hd) as (_ & n & Hn).
      by destruct (chain_spec _ _ _ _ _ _ _ Ht Hn He).
    + intros d Hd.
      destruct (final_order_dep _ _ _ _ _ _ Hfin Hd) as (_ & n & Hn).
      by eapply chain_NoDup.
Qed.

(** The nodes of the entries of one traversal are the nodes that can be
    reached, and each of them is a descendant. *)
Lemma final_covered g root dep order st n :
  final (get_neighbors g) (universe g root) root dep order st →
  (covered (closure_entries st) n ↔ reachable (get_neighbors g) root n) ∧
  (reachable (get_neighbors g) root n → ∃ a k, (a, n, k) ∈ closure_entries st).
Proof.
  intros Hfin. pose proof Hfin as (Hc & _ & _).
  pose proof (ci_tree _ _ _ _ _ _ Hc) as Ht.
  assert (reachable (get_neighbors g) root n → ∃ a k, (a, n, k) ∈ closure_entries st)
    as Hdesc.
  { intros Hn%(final_visited _ _ _ _ _ _ _ Hfin).
    apply (ci_vis _ _ _ _ _ _ Hc) in Hn as Hk. destruct Hk as [k Hk].
    exists root, (Z.of_nat k). apply (final_entry_nth _ _ _ _ _ _ _ _ Hfin).
    destruct k as [|k].
    - left. by apply (tree_zero _ _ _ _ Ht) in Hk as [-> _].
    - right. exists (S k). split_and!; [lia|done|done|].
      by eapply nth_ancestor_top. }
  split; [|done]. split.
  - intros ([[a d] k] & He & Hn).
    apply (final_entry_levels _ _ _ _ _ _ _ _ Hfin) in He as (i & j & Hj & Hi & _).
    apply (final_visited _ _ _ _ _ _ _ Hfin), (ci_vis _ _ _ _ _ _ Hc).
    unfold ancestor, descendant in Hn. simpl in Hn. destruct Hn as [->| ->]; eauto.
  - intros (a & k & He)%Hdesc. exists (a, n, k). split; [done|by right].
Qed.

Lemma final_covered_universe g root dep order st n :
  final (get_neighbors g) (universe g root) root dep order st →
  covered (closure_entries st) n → n ∈ universe g root.
Proof.
  intros Hfin Hn%(final_covered g root dep order st n Hfin).
  apply (final_visited _ _ _ _ _ _ _ Hfin) in Hn.
  by apply (ci_V _ _ _ _ _ _ (proj1 Hfin)).
Qed.

Lemma main_visit_descendants fuel g (U : gset Z) all vg s :
  valid_start g s → (size (universe g s) ≤ fuel)%nat → universe g s ⊆ U →
  (∀ n, n ∈ vg ↔ ∃ a k, (a, n, k) ∈ all) → vg ⊆ U →
  ∃ all' vg',
    main_visit fuel g (all, vg) s = Ret (all', vg') ∧
    (∀ n, n ∈ vg' ↔ ∃ a k, (a, n, k) ∈ all') ∧ vg' ⊆ U ∧ s ∈ vg' ∧ vg ⊆ vg'.
Proof.
  intros Hv Hfuel HU Hinv HvgU. unfold main_visit.
  destruct (decide (s ∈ vg)) as [Hs|Hs].
  { exists all, vg. by split_and!. }
  destruct (traversal_final g s fuel Hv Hfuel) as (st & dep & order & Hrun & Hfin).
  rewrite (traversal_returns g s fuel st Hrun). simpl.
  eexists _, _. split; [reflexivity|].
  split_and!.
  - intros n. rewrite foldl_visited_global, Hinv.
    rewrite (proj1 (final_covered g s dep order st n Hfin)). split.
    + intros [(a & k & He)|(a & k & He)%(final_covered g s dep order st n Hfin)];
        exists a, k; rewrite elem_of_app; eauto.
    + intros (a & k & [He|He]%elem_of_app); [left; eauto|right].
      apply (final_covered g s dep order st n Hfin).
      exists (a, n, k). split; [done|by right].
  - intros n [Hn|Hn]%foldl_visited_global; [by apply HvgU|].
    by apply HU, (final_covered_universe g s dep order st n Hfin).
  - apply foldl_visited_global. right. exists (s, s, 0). split; [|by left].
    rewrite (final_entries _ _ _ _ _ _ Hfin). by left.
  - intros n Hn. apply foldl_visited_global. by left.
Qed.

Lemma main_loop_descendants fuel g (U : gset Z) (nodes : list Z) : ∀ all vg,
  (∀ s, s ∈ nodes →
     valid_start g s ∧ (size (universe g s) ≤ fuel)%nat ∧ universe g s ⊆ U) →
  (∀ n, n ∈ vg ↔ ∃ a k, (a, n, k) ∈ all) → vg ⊆ U →
  ∃ all' vg',
    for_each (main_visit fuel g) (all, vg) nodes = Ret (all', vg') ∧
    (∀ n, n ∈ vg' ↔ ∃ a k, (a, n, k) ∈ all') ∧ vg' ⊆ U ∧ vg ⊆ vg' ∧
    ∀ n, n ∈ nodes → n ∈ vg'.
Proof.
  induction nodes as [|s nodes IH]; intros all vg Hnodes Hinv HvgU.
  - exists all, vg. split_and!; [done..|]. intros n Hn. by inversion Hn.
  - destruct (Hnodes s) as (Hv & Hfuel & HU); [by left|].
    destruct (main_visit_descendants fuel g U all vg s Hv Hfuel HU Hinv HvgU)
      as (all1 & vg1 & Hrun1 & Hinv1 & HU1 & Hs1 & Hsub1).
    destruct (IH all1 vg1) as (all2 & vg2 & Hrun2 & Hinv2 & HU2 & Hsub2 & Hall2);
      [intros; apply Hnodes; by right|done..|].
    exists all2, vg2. cbn [for_each]. rewrite Hrun1. simpl.
    split_and!; [done|done|done|set_solver|].
    intros n [->|Hn]%elem_of_cons; [set_solver|by apply Hall2].
Qed.

(** X6. The loop of [main] returns; [visited_global] is then the set of the
    nodes that occur as descendant in [all_closure_entries], and every node
    that [get_nodes] lists is among them. *)
Theorem main_traversal_descendants fuel g :
  (∀ s, s ∈ get_nodes g → valid_start g s ∧ (size (universe g s) ≤ fuel)%nat) →
  ∃ all vg,
    main_traversal fuel g = Ret (all, vg) ∧
    (∀ n, n ∈ vg ↔ ∃ a k, (a, n, k) ∈ all) ∧
    ∀ n, n ∈ get_nodes g → n ∈ vg.
Proof.
  intros Hok. unfold main_traversal.
  destruct (main_loop_descendants fuel g (⋃ (universe g <$> get_nodes g))
              (get_nodes g) [] ∅) as (all & vg & Hrun & Hinv & _ & _ & Hall).
  - intros s Hs. destruct (Hok s Hs) as [Hv Hfuel]. split_and!; [done..|].
    intros n Hn. apply elem_of_union_list. exists (universe g s).
    split; [|done]. by apply list_elem_of_fmap_2.
  - intros n. split; [set_solver|]. intros (a & k & He). by inversion He.
  - set_solver.
  - by exists all, vg.
Qed.

Section undirected.
Context (g : G).
Hypothesis Hsym : ∀ a b, edge (get_neighbors g) a b → edge (get_neighbors g) b a.

Lemma main_visit_unique fuel all vg s :
  valid_start g s → (size (universe g s) ≤ fuel)%nat →
  (∀ n, n ∈ vg ↔ covered all n) →
  (∀ a b, a ∈ vg → edge (get_neighbors g) a b → b ∈ vg) →
  NoDup (pair_of <$> all) →
  ∃ all' vg',
    main_visit fuel g (all, vg) s = Ret (all', vg') ∧
    (∀ n, n ∈ vg' ↔ covered all' n) ∧
    (∀ a b, a ∈ vg' → edge (get_neighbors g) a b → b ∈ vg') ∧
    NoDup (pair_of <$> all').
Proof.
  intros Hv Hfuel Hinv Hcl Hnd. unfold main_visit.
  destruct (decide (s ∈ vg)) as [Hs|Hs].
  { exists all, vg. by split_and!. }
  destruct (traversal_final g s fuel Hv Hfuel) as (st & dep & order & Hrun & Hfin).
  rewrite (traversal_returns g s fuel st Hrun). simpl.
  eexists _, _. split; [reflexivity|].
  split_and!.
  - intros n. by rewrite foldl_visited_global, covered_app, Hinv.
  - intros a b [Ha|Ha]%foldl_visited_global Hab; apply foldl_visited_global.
    + left. by eapply Hcl.
    + right. apply (final_covered g s dep order st _ Hfin).
      apply (final_covered g s dep order st _ Hfin) in Ha as [n Hp].
      exists (S n). by eapply path_snoc.
  - rewrite fmap_app. apply NoDup_app. split_and!; [done| |by eapply final_unique_pairs].
    intros p (e & -> & He)%list_elem_of_fmap (e' & Hp & He')%list_elem_of_fmap.
    assert (descendant e ∈ vg) as Hd.
    { apply Hinv. exists e. split; [done|by right]. }
    assert (reachable (get_neighbors g) s (descendant e)) as [n Hn].
    { apply (final_covered g s dep order st _ Hfin). exists e'. split; [done|].
      right. unfold pair_of in Hp. congruence. }
    apply Hs. eapply closed_path; [exact Hcl| |exact Hd].
    by apply path_rev.
Qed.

Lemma main_loop_unique fuel (nodes : list Z) : ∀ all vg,
  (∀ s, s ∈ nodes → valid_start g s ∧ (size (universe g s) ≤ fuel)%nat) →
  (∀ n, n ∈ vg ↔ covered all n) →
  (∀ a b, a ∈ vg → edge (get_neighbors g) a b → b ∈ vg) →
  NoDup (pair_of <$> all) →
  ∃ all' vg',
    for_each (main_visit fuel g) (all, vg) nodes = Ret (all', vg') ∧
    NoDup (pair_of <$> all').
Proof.
  induction nodes as [|s nodes IH]; intros all vg Hnodes Hinv Hcl Hnd.
  - by exists all, vg.
  - destruct (Hnodes s) as [Hv Hfuel]; [by left|].
    destruct (main_visit_unique fuel all vg s Hv Hfuel Hinv Hcl Hnd)
      as (all1 & vg1 & Hrun1 & Hinv1 & Hcl1 & Hnd1).
    destruct (IH all1 vg1) as (all2 & vg2 & Hrun2 & Hnd2);
      [intros; apply Hnodes; by right|done..|].
    exists all2, vg2. cbn [for_each]. rewrite Hrun1. by simpl.
Qed.

(** X7. In an undirected graph the traversals that the loop of [main] starts
    never meet: no two entries of [all_closure_entries] have the same
    (ancestor, descendant) pair. *)
Theorem main_traversal_unique_pairs fuel :
  (∀ s, s ∈ get_nodes g → valid_start g s ∧ (size (universe g s) ≤ fuel)%nat) →
  ∃ all vg,
    main_traversal fuel g = Ret (all, vg) ∧ NoDup (pair_of <$> all).
Proof.
  intros Hok. unfold main_traversal.
  apply main_loop_unique; [done| |set_solver|constructor].
  intros n. split; [set_solver|]. intros (e & He & _). by inversion He.
Qed.
End undirected.
End main_partition.

(** ** The node and neighbour listings of the adapters *)

Lemma od_keys_set_NoDup {K A : Type} `{EqDecision K} (d : list (K * A)) k v :
  NoDup (od_keys d) → NoDup (od_keys (od_set k v d)).
Proof.
  intros Hnd. destruct (decide (k ∈ od_keys d)) as [Hk|Hk].
  - by rewrite od_keys_set_present.
  - rewrite od_keys_set_absent by done. apply NoDup_app.
    split_and!; [done| |apply NoDup_singleton].
    intros x Hx ->%list_elem_of_singleton. done.
Qed.

Lemma manual_built_NoDup `{SetIteration} (self : ManualNetworkAdapter.t) :
  built self → NoDup (ManualNetworkAdapter.get_nodes self).
Proof.
  induction 1 as [|g n attrs Hb IH|g u v attrs Hb IH]; simpl.
  - constructor.
  - by apply od_keys_set_NoDup.
  - done.
Qed.

Lemma nx_ensure_node_NoDup (G : NetworkXAdapter.Graph) u :
  NoDup (od_keys (NetworkXAdapter._node G)) →
  NoDup (od_keys (NetworkXAdapter._node (NetworkXAdapter.nx_ensure_node G u))).
Proof.
  intros Hnd. unfold NetworkXAdapter.nx_ensure_node.
  destruct (od_get u (NetworkXAdapter._node G)); [done|].
  by apply od_keys_set_NoDup.
Qed.

Lemma nx_built_NoDup (self : NetworkXAdapter.t) :
  built self → NoDup (NetworkXAdapter.get_nodes self).
Proof.
  unfold NetworkXAdapter.get_nodes.
  induction 1 as [|g n attrs Hb IH|g u v attrs Hb IH]; simpl.
  - constructor.
  - unfold NetworkXAdapter.add_node, NetworkXAdapter.nx_add_node.
    destruct (od_get n (NetworkXAdapter._node g)); by apply od_keys_set_NoDup.
  - by do 2 apply nx_ensure_node_NoDup.
Qed.

Lemma nx_ensure_node_adj_NoDup (G : NetworkXAdapter.Graph) u :
  nx_adj_NoDup G → nx_adj_NoDup (NetworkXAdapter.nx_ensure_node G u).
Proof.
  intros Hnd. unfold NetworkXAdapter.nx_ensure_node.
  destruct (od_get u (NetworkXAdapter._node G)); [done|].
  intros n nbrs Hn. simpl in Hn.
  apply lookup_insert_Some in Hn as [[_ <-]|[_ Hn]]; [constructor|by eapply Hnd].
Qed.

Lemma alter_od_set_NoDup (adj : gmap Z (list (Z * attributes))) k w dd :
  (∀ n nbrs, adj !! n = Some nbrs → NoDup (od_keys nbrs)) →
  ∀ n nbrs, alter (od_set w dd) k adj !! n = Some nbrs → NoDup (od_keys nbrs).
Proof.
  intros Hnd n nbrs [[-> (x & Hx & ->)]|[_ Hn]]%lookup_alter_Some;
    [apply od_keys_set_NoDup|]; by eapply Hnd.
Qed.

Lemma nx_built_adj_NoDup (self : NetworkXAdapter.t) : built self → nx_adj_NoDup self.
Proof.
  induction 1 as [|g n attrs Hb IH|g u v attrs Hb IH]; simpl.
  - intros n nbrs Hn. simpl in Hn. by rewrite lookup_empty in Hn.
  - unfold NetworkXAdapter.add_node, NetworkXAdapter.nx_add_node.
    destruct (od_get n (NetworkXAdapter._node g)); [done|].
    intros m nbrs Hn. simpl in Hn.
    apply lookup_insert_Some in Hn as [[_ <-]|[_ Hn]]; [constructor|by eapply IH].
  - pose proof (nx_ensure_node_adj_NoDup _ v (nx_ensure_node_adj_NoDup _ u IH)) as Hnd.
    unfold NetworkXAdapter.add_edge, NetworkXAdapter.nx_add_edge.
    intros n nbrs Hn. simpl in Hn.
    eapply alter_od_set_NoDup; [|exact Hn].
    apply alter_od_set_NoDup. exact Hnd.
Qed.

(** X8. [get_nodes] of a graph that an adapter has built lists no node
    twice. *)
Theorem get_nodes_NoDup :
  (∀ (order : SetIteration) (self : ManualNetworkAdapter.t),
     built self → NoDup (get_nodes self)) ∧
  (∀ self : NetworkXAdapter.t, built self → NoDup (get_nodes self)).
Proof.
  split.
  - intros order self. apply manual_built_NoDup.
  - apply nx_built_NoDup.
Qed.

Lemma manual_registered_built :
  @built _ (@manual_interface elements_order) manual_registered.
Proof.
  unfold manual_registered.
  apply (@built_add_edge _ (@manual_interface elements_order)).
  apply (@built_add_node _ (@manual_interface elements_order)).
  apply (@built_init _ (@manual_interface elements_order)).
Qed.

Lemma nx_registered_built : built nx_registered.
Proof. unfold nx_registered. by_built. Qed.

Lemma get_nodes_NoDup_witness :
  (@built _ (@manual_interface elements_order) manual_registered ∧
   NoDup (@get_nodes _ (@manual_interface elements_order) manual_registered)) ∧
  (built nx_registered ∧ NoDup (get_nodes nx_registered)).
Proof.
  split; (split; [first [exact manual_registered_built|exact nx_registered_built]|]).
  - exact (proj1 get_nodes_NoDup elements_order _ manual_registered_built).
  - exact (proj2 get_nodes_NoDup _ nx_registered_built).
Defined.

(** X9. [get_neighbors] lists no neighbour twice: for [ManualNetworkAdapter]
    in every state, for [NetworkXAdapter] on every graph it has built. *)
Theorem get_neighbors_NoDup :
  (∀ (order : SetIteration) (self : ManualNetworkAdapter.t) (node_id : Z),
     NoDup (ManualNetworkAdapter.get_neighbors self node_id)) ∧
  (∀ (self : NetworkXAdapter.t) (node_id : Z) (l : list Z),
     built self → get_neighbors self node_id = Ret l → NoDup l).
Proof.
  split.
  - intros order self node_id. unfold ManualNetworkAdapter.get_neighbors.
    rewrite set_list_perm. apply NoDup_elements.
  - intros self node_id l Hb%nx_built_adj_NoDup. simpl.
    unfold NetworkXAdapter.get_neighbors, NetworkXAdapter.nx_neighbors.
    destruct (NetworkXAdapter._adj self !! node_id) as [nbrs|] eqn:Hn; [|done].
    intros [= <-]. by eapply Hb.
Qed.

Lemma get_neighbors_NoDup_witness :
  built nx_chain4 ∧ get_neighbors nx_chain4 2 = Ret [1; 3] ∧ NoDup [1; 3].
Proof.
  assert (built nx_chain4) as Hb by (unfold nx_chain4; by_built).
  assert (get_neighbors nx_chain4 2 = Ret [1; 3]) as Hn by (vm_compute; reflexivity).
  split; [exact Hb|]. split; [exact Hn|].
  exact (proj2 get_neighbors_NoDup nx_chain4 2 [1; 3] Hb Hn).
Defined.

(** X10. What [add_edge] does to the neighbour lists: the two end points
    become neighbours of each other, and nothing else changes. *)
Theorem add_edge_neighbors :
  (∀ (order : SetIteration) (self : ManualNetworkAdapter.t) u v attrs a b,
     edge (get_neighbors (add_edge self u v attrs)) a b ↔
     edge (get_neighbors self) a b ∨ (a = u ∧ b = v) ∨ (a = v ∧ b = u)) ∧
  (∀ (self : NetworkXAdapter.t) u v attrs a b,
     built self →
     edge (get_neighbors (add_edge self u v attrs)) a b ↔
     edge (get_neighbors self) a b ∨ (a = u ∧ b = v) ∨ (a = v ∧ b = u)).
Proof.
  split.
  - intros order self u v attrs a b. rewrite !manual_edge. apply adjacent_add_edge.
  - intros self u v attrs a b Hb%nx_built_wf. rewrite !nx_edge.
    by apply nx_adjacent_add_edge.
Qed.

Lemma add_edge_neighbors_witness :
  built nx_segment ∧
  (edge (get_neighbors (add_edge nx_segment 2 3 ∅)) 3 2 ↔
   edge (get_neighbors nx_segment) 3 2 ∨ (3 = 2 ∧ 2 = 3) ∨ (3 = 3 ∧ 2 = 2)).
Proof.
  assert (built nx_segment) as Hb by (unfold nx_segment; by_built).
  split; [exact Hb|].
  exact (proj2 add_edge_neighbors nx_segment 2 3 ∅ 3 2 Hb).
Defined.

(** X11. The graphs that the adapters build are undirected: whenever [b] is
    listed among the neighbours of [a], [a] is listed among those of [b]. *)
Theorem built_graph_undirected :
  (∀ (order : SetIteration) (self : ManualNetworkAdapter.t) a b,
     built self →
     b ∈ ManualNetworkAdapter.get_neighbors self a →
     a ∈ ManualNetworkAdapter.get_neighbors self b) ∧
  (∀ (self : NetworkXAdapter.t) a b la,
     built self → get_neighbors self a = Ret la → b ∈ la →
     ∃ lb, get_neighbors self b = Ret lb ∧ a ∈ lb).
Proof.
  split.
  - intros order self a b Hb Hab.
    assert (edge (get_neighbors self) a b) as He by by eexists.
    apply manual_edge, (manual_built_undirected _ _ _ Hb), manual_edge in He.
    destruct He as (l & [= <-] & Ha). done.
  - intros self a b la Hb Hla Hin.
    assert (edge (get_neighbors self) a b) as He by by exists la.
    apply nx_edge, (nx_wf_sym _ (nx_built_wf _ Hb)), nx_edge in He. done.
Qed.

Lemma built_graph_undirected_witness :
  (@built _ (@manual_interface elements_order) manual_registered ∧
   2 ∈ @ManualNetworkAdapter.get_neighbors elements_order manual_registered 1 ∧
   1 ∈ @ManualNetworkAdapter.get_neighbors elements_order manual_registered 2) ∧
  (built nx_chain4 ∧ get_neighbors nx_chain4 2 = Ret [1; 3] ∧ 3 ∈ [1; 3] ∧
   ∃ lb, get_neighbors nx_chain4 3 = Ret lb ∧ 2 ∈ lb).
Proof.
  assert (2 ∈ @ManualNetworkAdapter.get_neighbors elements_order manual_registered 1)
    as Hm by by_eval.
  assert (built nx_chain4) as Hb by (unfold nx_chain4; by_built).
  assert (get_neighbors nx_chain4 2 = Ret [1; 3]) as Hn by (vm_compute; reflexivity).
  assert (3 ∈ [1; 3]) as Hin by by_eval.
  split.
  - split; [exact manual_registered_built|]. split; [exact Hm|].
    exact (proj1 built_graph_undirected elements_order manual_registered 1 2
             manual_registered_built Hm).
  - split; [exact Hb|]. split; [exact Hn|]. split; [exact Hin|].
    exact (proj2 built_graph_undirected nx_chain4 2 3 [1; 3] Hb Hn Hin).
Defined.

(** X12. In a graph that [NetworkXAdapter] has built, [get_neighbors]
    returns exactly for the nodes that [get_nodes] lists, and every neighbour
    it returns is listed by [get_nodes]. *)
Theorem networkx_neighbors_are_nodes (self : NetworkXAdapter.t) :
  built self →
  (∀ n, (∃ l, get_neighbors self n = Ret l) ↔ n ∈ get_nodes self) ∧
  (∀ n l m, get_neighbors self n = Ret l → m ∈ l → m ∈ get_nodes self).
Proof.
  intros Hwf%nx_built_wf. split.
  - intros n. simpl. unfold NetworkXAdapter.get_nodes.
    rewrite (nx_wf_keys _ Hwf), elem_of_dom.
    unfold NetworkXAdapter.get_neighbors, NetworkXAdapter.nx_neighbors. split.
    + intros [l Hl]. destruct (NetworkXAdapter._adj self !! n); [eauto|done].
    + intros [nbrs ->]. eauto.
  - intros n l m Hl Hm.
    assert (edge (get_neighbors self) n m) as He%nx_edge by by exists l.
    apply (nx_wf_keys _ Hwf). by apply (nx_adjacent_dom _ _ _ Hwf) in He as [_ ?].
Qed.

Lemma networkx_neighbors_are_nodes_witness :
  built nx_chain4 ∧
  (∀ n, (∃ l, get_neighbors nx_chain4 n = Ret l) ↔ n ∈ get_nodes nx_chain4) ∧
  (∀ n l m, get_neighbors nx_chain4 n = Ret l → m ∈ l → m ∈ get_nodes nx_chain4).
Proof.
  assert (built nx_chain4) as Hb by (unfold nx_chain4; by_built).
  split; [exact Hb|]. exact (networkx_neighbors_are_nodes nx_chain4 Hb).
Defined.

(** X13. [add_node] for an identifier that [get_nodes] does not list appends
    it to the listing and stores its attributes; the attributes of the other
    nodes and all neighbour lists stay as they are. *)
Theorem add_node_new :
  (∀ (order : SetIteration) (self : ManualNetworkAdapter.t) node_id attrs,
     node_id ∉ get_nodes self →
     get_nodes (add_node self node_id attrs) = get_nodes self ++ [node_id] ∧
     get_node_attributes (add_node self node_id attrs) node_id = Ret attrs ∧
     (∀ n, n ≠ node_id →
        get_node_attributes (add_node self node_id attrs) n =
        get_node_attributes self n) ∧
     (∀ a b, edge (get_neighbors (add_node self node_id attrs)) a b ↔
             edge (get_neighbors self) a b)) ∧
  (∀ (self : NetworkXAdapter.t) node_id attrs,
     built self → node_id ∉ get_nodes self →
     get_nodes (add_node self node_id attrs) = get_nodes self ++ [node_id] ∧
     get_node_attributes (add_node self node_id attrs) node_id = Ret attrs ∧
     (∀ n, n ≠ node_id →
        get_node_attributes (add_node self node_id attrs) n =
        get_node_attributes self n) ∧
     get_neighbors (add_node self node_id attrs) node_id = Ret [] ∧
     (∀ a b, edge (get_neighbors (add_node self node_id attrs)) a b ↔
             edge (get_neighbors self) a b)).
Proof.
  split.
  - intros order self node_id attrs Hn. split_and!.
    + by apply od_keys_set_absent.
    + simpl. unfold ManualNetworkAdapter.get_node_attributes. simpl.
      by rewrite od_get_set_eq.
    + intros n Hne. simpl. unfold ManualNetworkAdapter.get_node_attributes. simpl.
      by rewrite od_get_set_ne.
    + intros a b. rewrite !manual_edge. apply adjacent_add_node.
  - intros self node_id attrs Hwf%nx_built_wf Hn.
    pose proof Hn as Hget%od_get_None. split_and!.
    + simpl. unfold NetworkXAdapter.get_nodes, NetworkXAdapter.add_node,
        NetworkXAdapter.nx_add_node. rewrite Hget. simpl.
      by apply od_keys_set_absent.
    + simpl. unfold NetworkXAdapter.get_node_attributes,
        NetworkXAdapter.nx_nodes_getitem, NetworkXAdapter.add_node,
        NetworkXAdapter.nx_add_node. rewrite Hget. simpl. by rewrite od_get_set_eq.
    + intros n Hne. simpl. unfold NetworkXAdapter.get_node_attributes,
        NetworkXAdapter.nx_nodes_getitem, NetworkXAdapter.add_node,
        NetworkXAdapter.nx_add_node. rewrite Hget. simpl. by rewrite od_get_set_ne.
    + simpl. unfold NetworkXAdapter.get_neighbors, NetworkXAdapter.nx_neighbors,
        NetworkXAdapter.add_node, NetworkXAdapter.nx_add_node. rewrite Hget. simpl.
      by rewrite lookup_insert_eq.
    + intros a b. rewrite !nx_edge. by apply nx_add_node_adjacent.
Qed.

Lemma add_node_new_witness :
  (let I := @manual_interface elements_order in
   (3 ∉ get_nodes manual_registered) ∧
   get_nodes (add_node manual_registered 3 ∅) = get_nodes manual_registered ++ [3] ∧
   get_node_attributes (add_node manual_registered 3 ∅) 3 = Ret ∅ ∧
   (∀ n, n ≠ 3 →
      get_node_attributes (add_node manual_registered 3 ∅) n =
      get_node_attributes manual_registered n) ∧
   (∀ a b, edge (get_neighbors (add_node manual_registered 3 ∅)) a b ↔
           edge (get_neighbors manual_registered) a b)) ∧
  (built nx_segment ∧ (3 ∉ get_nodes nx_segment) ∧
   get_nodes (add_node nx_segment 3 ∅) = get_nodes nx_segment ++ [3] ∧
   get_node_attributes (add_node nx_segment 3 ∅) 3 = Ret ∅ ∧
   (∀ n, n ≠ 3 →
      get_node_attributes (add_node nx_segment 3 ∅) n =
      get_node_attributes nx_segment n) ∧
   get_neighbors (add_node nx_segment 3 ∅) 3 = Ret [] ∧
   (∀ a b, edge (get_neighbors (add_node nx_segment 3 ∅)) a b ↔
           edge (get_neighbors nx_segment) a b)).
Proof.
  assert (3 ∉ @get_nodes _ (@manual_interface elements_order) manual_registered)
    as Hm by by_eval.
  assert (built nx_segment) as Hb by (unfold nx_segment; by_built).
  assert (3 ∉ get_nodes nx_segment) as Hn by by_eval.
  split.
  - intros I. split; [exact Hm|].
    exact (proj1 add_node_new elements_order manual_registered 3 ∅ Hm).
  - split; [exact Hb|]. split; [exact Hn|].
    exact (proj2 add_node_new nx_segment 3 ∅ Hb Hn).
Defined.

(** X14. [get_node_attributes] for an identifier that [get_nodes] does not
    list: [ManualNetworkAdapter] returns the empty dictionary,
    [NetworkXAdapter] raises [KeyError]; for a listed identifier both
    return. *)
Theorem get_node_attributes_absent :
  (∀ (order : SetIteration) (self : ManualNetworkAdapter.t) node_id,
     node_id ∉ get_nodes self → get_node_attributes self node_id = Ret ∅) ∧
  (∀ (self : NetworkXAdapter.t) node_id,
     (node_id ∉ get_nodes self → get_node_attributes self node_id = Raise KeyError) ∧
     (node_id ∈ get_nodes self → ∃ attrs, get_node_attributes self node_id = Ret attrs)).
Proof.
  split.
  - intros order self node_id Hn%od_get_None. simpl.
    unfold ManualNetworkAdapter.get_node_attributes. by rewrite Hn.
  - intros self node_id. simpl.
    unfold NetworkXAdapter.get_node_attributes, NetworkXAdapter.nx_nodes_getitem.
    split.
    + intros Hn%od_get_None. by rewrite Hn.
    + intros [attrs Hn]%od_get_is_Some. rewrite Hn. eauto.
Qed.

Lemma get_node_attributes_absent_witness :
  ((99 ∉ @get_nodes _ (@manual_interface elements_order) manual_registered) ∧
   @get_node_attributes _ (@manual_interface elements_order) manual_registered 99 =
     Ret ∅) ∧
  ((99 ∉ get_nodes nx_registered) ∧
   get_node_attributes nx_registered 99 = Raise KeyError) ∧
  (1 ∈ get_nodes nx_registered ∧
   ∃ attrs, get_node_attributes nx_registered 1 = Ret attrs).
Proof.
  assert (99 ∉ @get_nodes _ (@manual_interface elements_order) manual_registered)
    as H1 by by_eval.
  assert (99 ∉ get_nodes nx_registered) as H2 by by_eval.
  assert (1 ∈ get_nodes nx_registered) as H3 by by_eval.
  split; [split; [exact H1|]|split; [split; [exact H2|]|split; [exact H3|]]].
  - exact (proj1 get_node_attributes_absent elements_order manual_registered 99 H1).
  - exact (proj1 (proj2 get_node_attributes_absent nx_registered 99) H2).
  - exact (proj2 (proj2 get_node_attributes_absent nx_registered 1) H3).
Defined.

(** ** [build_network] *)

Section build_manual.
Context `{SetIteration}.
Local Abbreviation t := ManualNetworkAdapter.t.

Lemma manual_add_nodes_get_nodes (nodos : list Nodo.t) : ∀ (g : t) n,
  n ∈ get_nodes
        (foldl (λ net nodo, add_node net (Nodo.id_nodo nodo) (nodo_attributes nodo))
           g nodos) ↔
  n ∈ get_nodes g ∨ n ∈ Nodo.id_nodo <$> nodos.
Proof.
  induction nodos as [|nodo nodos IH]; intros g n; simpl.
  - split; [by left|]. intros [?|Hn]; [done|by inversion Hn].
  - rewrite IH. simpl. unfold ManualNetworkAdapter.get_nodes. simpl.
    rewrite elem_of_od_keys_set, elem_of_cons. tauto.
Qed.

Lemma manual_add_edges_nodes (segmentos : list Segmento.t) : ∀ g : t,
  ManualNetworkAdapter.nodes
    (foldl (λ net segmento,
              add_edge net (Segmento.nodo_inicio segmento) (Segmento.nodo_fin segmento)
                (segmento_attributes segmento)) g segmentos) =
  ManualNetworkAdapter.nodes g.
Proof. induction segmentos as [|s segmentos IH]; intros g; simpl; [done|by rewrite IH]. Qed.

Lemma manual_add_nodes_adjacent (nodos : list Nodo.t) : ∀ (g : t) a b,
  adjacent
    (foldl (λ net nodo, add_node net (Nodo.id_nodo nodo) (nodo_attributes nodo)) g nodos)
    a b ↔ adjacent g a b.
Proof.
  induction nodos as [|nodo nodos IH]; intros g a b; simpl; [done|].
  rewrite IH. apply adjacent_add_node.
Qed.

Lemma manual_add_edges_adjacent (segmentos : list Segmento.t) : ∀ (g : t) a b,
  adjacent
    (foldl (λ net segmento,
              add_edge net (Segmento.nodo_inicio segmento) (Segmento.nodo_fin segmento)
                (segmento_attributes segmento)) g segmentos) a b ↔
  adjacent g a b ∨ ∃ s, s ∈ segmentos ∧ joins s a b.
Proof.
  induction segmentos as [|s segmentos IH]; intros g a b; simpl.
  - split; [by left|]. intros [?|(s & Hs & _)]; [done|by inversion Hs].
  - rewrite IH. simpl. rewrite adjacent_add_edge. unfold joins. split.
    + intros [[?|Hj]|(s' & Hs' & Hj)]; [by left| |].
      * right. exists s. split; [by left|done].
      * right. exists s'. split; [by right|done].
    + intros [?|(s' & [->|Hs']%elem_of_cons & Hj)]; [by left; left|by left; right|].
      right. by exists s'.
Qed.

Lemma manual_add_nodes_get (nodos : list Nodo.t) : ∀ (g : t) nodo,
  NoDup (Nodo.id_nodo <$> nodos) → nodo ∈ nodos →
  od_get (Nodo.id_nodo nodo)
    (ManualNetworkAdapter.nodes
       (foldl (λ net nodo, add_node net (Nodo.id_nodo nodo) (nodo_attributes nodo))
          g nodos)) = Some (nodo_attributes nodo).
Proof.
  induction nodos as [|x nodos IH]; intros g nodo Hnd Hin; [by inversion Hin|].
  simpl in Hnd. apply NoDup_cons in Hnd as [Hx Hnd].
  apply elem_of_cons in Hin as [->|Hin]; simpl.
  - clear IH. revert g. induction nodos as [|y nodos IH]; intros g; simpl.
    + by rewrite od_get_set_eq.
    + simpl in Hx, Hnd. apply not_elem_of_cons in Hx as [Hxy Hx].
      apply NoDup_cons in Hnd as [_ Hnd].
      assert (∀ g' : t,
        od_get (Nodo.id_nodo x) (ManualNetworkAdapter.nodes g') = Some (nodo_attributes x) →
        od_get (Nodo.id_nodo x)
          (ManualNetworkAdapter.nodes
             (foldl (λ net nodo, add_node net (Nodo.id_nodo nodo) (nodo_attributes nodo))
                g' nodos)) = Some (nodo_attributes x)) as Hkeep.
      { clear IH. revert Hx. clear. induction nodos as [|z nodos IH]; intros Hx g' Hg';
          simpl; [done|].
        simpl in Hx. apply not_elem_of_cons in Hx as [Hxz Hx].
        apply IH; [done|]. simpl. by rewrite od_get_set_ne. }
      apply Hkeep. simpl. rewrite od_get_set_ne by done. by rewrite od_get_set_eq.
  - by apply IH.
Qed.
End build_manual.

Section build_networkx.
Local Abbreviation Graph := NetworkXAdapter.Graph.
Local Abbreviation _node := NetworkXAdapter._node.

Lemma nx_add_node_keys (G : Graph) n attr m :
  m ∈ od_keys (_node (NetworkXAdapter.nx_add_node G n attr)) ↔
  m = n ∨ m ∈ od_keys (_node G).
Proof.
  unfold NetworkXAdapter.nx_add_node.
  destruct (od_get n (_node G)); simpl; apply elem_of_od_keys_set.
Qed.

Lemma nx_add_edge_keys (G : Graph) u v attr m :
  m ∈ od_keys (_node (NetworkXAdapter.nx_add_edge G u v attr)) ↔
  m = u ∨ m = v ∨ m ∈ od_keys (_node G).
Proof.
  unfold NetworkXAdapter.nx_add_edge. simpl.
  rewrite !nx_ensure_node_keys. tauto.
Qed.

Lemma nx_add_nodes_get_nodes (nodos : list Nodo.t) : ∀ (g : Graph) n,
  n ∈ get_nodes
        (foldl (λ net nodo, add_node net (Nodo.id_nodo nodo) (nodo_attributes nodo))
           g nodos) ↔
  n ∈ get_nodes g ∨ n ∈ Nodo.id_nodo <$> nodos.
Proof.
  induction nodos as [|nodo nodos IH]; intros g n; simpl.
  - split; [by left|]. intros [?|Hn]; [done|by inversion Hn].
  - rewrite IH. simpl. unfold NetworkXAdapter.get_nodes, NetworkXAdapter.add_node.
    rewrite nx_add_node_keys, elem_of_cons. tauto.
Qed.

Lemma nx_add_edges_get_nodes (segmentos : list Segmento.t) : ∀ (g : Graph) n,
  n ∈ get_nodes
        (foldl (λ net segmento,
                  add_edge net (Segmento.nodo_inicio segmento)
                    (Segmento.nodo_fin segmento) (segmento_attributes segmento))
           g segmentos) ↔
  n ∈ get_nodes g ∨ n ∈ Segmento.nodo_inicio <$> segmentos ∨
  n ∈ Segmento.nodo_fin <$> segmentos.
Proof.
  induction segmentos as [|s segmentos IH]; intros g n; simpl.
  - split; [by left|]. intros [?|[Hn|Hn]]; [done|by inversion Hn..].
  - rewrite IH. simpl. unfold NetworkXAdapter.get_nodes, NetworkXAdapter.add_edge.
    rewrite nx_add_edge_keys, !elem_of_cons. tauto.
Qed.

Lemma nx_add_edges_adjacent (segmentos : list Segmento.t) : ∀ (g : Graph) a b,
  nx_wf g →
  nx_adjacent
    (foldl (λ net segmento,
              add_edge net (Segmento.nodo_inicio segmento) (Segmento.nodo_fin segmento)
                (segmento_attributes segmento)) g segmentos) a b ↔
  nx_adjacent g a b ∨ ∃ s, s ∈ segmentos ∧ joins s a b.
Proof.
  induction segmentos as [|s segmentos IH]; intros g a b Hwf; simpl.
  - split; [by left|]. intros [?|(s & Hs & _)]; [done|by inversion Hs].
  - rewrite IH by by apply nx_add_edge_wf.
    simpl. unfold NetworkXAdapter.add_edge.
    rewrite nx_adjacent_add_edge by done. unfold joins. split.
    + intros [[?|Hj]|(s' & Hs' & Hj)]; [by left| |].
      * right. exists s. split; [by left|done].
      * right. exists s'. split; [by right|done].
    + intros [?|(s' & [->|Hs']%elem_of_cons & Hj)]; [by left; left|by left; right|].
      right. by exists s'.
Qed.

Lemma nx_add_nodes_adjacent (nodos : list Nodo.t) : ∀ (g : Graph) a b,
  nx_wf g →
  nx_adjacent
    (foldl (λ net nodo, add_node net (Nodo.id_nodo nodo) (nodo_attributes nodo)) g nodos)
    a b ↔ nx_adjacent g a b.
Proof.
  induction nodos as [|nodo nodos IH]; intros g a b Hwf; simpl; [done|].
  rewrite IH by by apply nx_add_node_wf. by apply nx_add_node_adjacent.
Qed.

Lemma nx_add_nodes_wf (nodos : list Nodo.t) : ∀ g : Graph,
  nx_wf g →
  nx_wf (foldl (λ net nodo, add_node net (Nodo.id_nodo nodo) (nodo_attributes nodo))
           g nodos).
Proof.
  induction nodos as [|nodo nodos IH]; intros g Hwf; simpl; [done|].
  apply IH. by apply nx_add_node_wf.
Qed.

(** An end point that [add_edge] finds present keeps its attributes. *)
Lemma nx_ensure_node_get (G : Graph) u n :
  n ∈ od_keys (_node G) →
  od_get n (_node (NetworkXAdapter.nx_ensure_node G u)) = od_get n (_node G).
Proof.
  intros Hn. unfold NetworkXAdapter.nx_ensure_node.
  destruct (od_get u (_node G)) eqn:Hu; [done|]. simpl.
  apply od_get_set_ne. intros ->. by apply od_get_None in Hu.
Qed.

Lemma nx_add_edge_get (G : Graph) u v attr n :
  n ∈ od_keys (_node G) →
  od_get n (_node (NetworkXAdapter.nx_add_edge G u v attr)) = od_get n (_node G).
Proof.
  intros Hn. unfold NetworkXAdapter.nx_add_edge. simpl.
  rewrite nx_ensure_node_get, nx_ensure_node_get; [done..|].
  apply nx_ensure_node_keys. by right.
Qed.

Lemma nx_add_edges_get (segmentos : list Segmento.t) : ∀ (g : Graph) n,
  n ∈ od_keys (_node g) →
  od_get n
    (_node (foldl (λ net segmento,
                     add_edge net (Segmento.nodo_inicio segmento)
                       (Segmento.nodo_fin segmento) (segmento_attributes segmento))
              g segmentos)) = od_get n (_node g).
Proof.
  induction segmentos as [|s segmentos IH]; intros g n Hn; simpl; [done|].
  rewrite IH.
  - exact (nx_add_edge_get g _ _ _ n Hn).
  - apply (proj2 (nx_add_edge_keys g _ _ _ n)). by right; right.
Qed.

Lemma nx_add_node_get_other (G : Graph) n attr m :
  m ≠ n →
  od_get m (_node (NetworkXAdapter.nx_add_node G n attr)) = od_get m (_node G).
Proof.
  intros Hne. unfold NetworkXAdapter.nx_add_node.
  destruct (od_get n (_node G)); simpl; by apply od_get_set_ne.
Qed.

Lemma nx_add_nodes_get_other (nodos : list Nodo.t) : ∀ (g : Graph) m,
  m ∉ Nodo.id_nodo <$> nodos →
  od_get m
    (_node (foldl (λ net nodo, add_node net (Nodo.id_nodo nodo) (nodo_attributes nodo))
              g nodos)) = od_get m (_node g).
Proof.
  induction nodos as [|x nodos IH]; intros g m Hm; simpl; [done|].
  simpl in Hm. apply not_elem_of_cons in Hm as [Hmx Hm].
  rewrite IH by done. simpl. by apply nx_add_node_get_other.
Qed.

Lemma nx_add_nodes_get (nodos : list Nodo.t) : ∀ (g : Graph) nodo,
  NoDup (Nodo.id_nodo <$> nodos) → nodo ∈ nodos →
  Nodo.id_nodo nodo ∉ od_keys (_node g) →
  od_get (Nodo.id_nodo nodo)
    (_node (foldl (λ net nodo, add_node net (Nodo.id_nodo nodo) (nodo_attributes nodo))
              g nodos)) = Some (nodo_attributes nodo).
Proof.
  induction nodos as [|x nodos IH]; intros g nodo Hnd Hin Hfresh; [by inversion Hin|].
  simpl in Hnd. apply NoDup_cons in Hnd as [Hx Hnd].
  apply elem_of_cons in Hin as [->|Hin]; simpl.
  - rewrite nx_add_nodes_get_other by done. simpl.
    unfold NetworkXAdapter.add_node, NetworkXAdapter.nx_add_node.
    apply od_get_None in Hfresh. rewrite Hfresh. simpl. by rewrite od_get_set_eq.
  - apply IH; [done..|]. simpl. unfold NetworkXAdapter.add_node.
    rewrite nx_add_node_keys. intros [Heq|?]; [|done].
    apply Hx. rewrite <-Heq. by apply list_elem_of_fmap_2.
Qed.
End build_networkx.

(** X15. Which nodes [get_nodes] lists after [build_network]: with
    [ManualNetworkAdapter] the nodes it listed before and the identifiers of
    the node records; with [NetworkXAdapter] also the end points of the
    segment records. *)
Theorem build_network_nodes :
  (∀ (order : SetIteration) (g : ManualNetworkAdapter.t) nodos segmentos n,
     n ∈ get_nodes (build_network g nodos segmentos) ↔
     n ∈ get_nodes g ∨ n ∈ Nodo.id_nodo <$> nodos) ∧
  (∀ (g : NetworkXAdapter.t) nodos segmentos n,
     n ∈ get_nodes (build_network g nodos segmentos) ↔
     n ∈ get_nodes g ∨ n ∈ Nodo.id_nodo <$> nodos ∨
     n ∈ Segmento.nodo_inicio <$> segmentos ∨ n ∈ Segmento.nodo_fin <$> segmentos).
Proof.
  split.
  - intros order g nodos segmentos n. unfold build_network.
    rewrite <-manual_add_nodes_get_nodes. simpl.
    unfold ManualNetworkAdapter.get_nodes.
    by rewrite (manual_add_edges_nodes segmentos).
  - intros g nodos segmentos n. unfold build_network.
    rewrite nx_add_edges_get_nodes, nx_add_nodes_get_nodes. tauto.
Qed.

(** X16. The neighbour lists after [build_network]: [b] is a neighbour of
    [a] exactly when it was one before or a segment record joins the two, in
    either direction. *)
Theorem build_network_edges :
  (∀ (order : SetIteration) (g : ManualNetworkAdapter.t) nodos segmentos a b,
     edge (get_neighbors (build_network g nodos segmentos)) a b ↔
     edge (get_neighbors g) a b ∨ ∃ s, s ∈ segmentos ∧ joins s a b) ∧
  (∀ (g : NetworkXAdapter.t) nodos segmentos a b,
     built g →
     edge (get_neighbors (build_network g nodos segmentos)) a b ↔
     edge (get_neighbors g) a b ∨ ∃ s, s ∈ segmentos ∧ joins s a b).
Proof.
  split.
  - intros order g nodos segmentos a b. unfold build_network.
    by rewrite !manual_edge, manual_add_edges_adjacent, manual_add_nodes_adjacent.
  - intros g nodos segmentos a b Hwf%nx_built_wf. unfold build_network.
    rewrite !nx_edge, nx_add_edges_adjacent by by apply nx_add_nodes_wf.
    by rewrite nx_add_nodes_adjacent.
Qed.

Lemma build_network_edges_witness :
  built (init : NetworkXAdapter.t) ∧
  (edge (get_neighbors (build_network (init : NetworkXAdapter.t)
                          [subestacion 1] [segmento 1 1 2])) 2 1 ↔
   edge (get_neighbors (init : NetworkXAdapter.t)) 2 1 ∨
   ∃ s, s ∈ [segmento 1 1 2] ∧ joins s 2 1).
Proof.
  assert (built (init : NetworkXAdapter.t)) as Hb by apply built_init.
  split; [exact Hb|].
  exact (proj2 build_network_edges init [subestacion 1] [segmento 1 1 2] 2 1 Hb).
Defined.

(** X17. After [build_network] with node records of distinct identifiers,
    [get_node_attributes] returns for each record the attributes built from
    it (for [NetworkXAdapter]: if the identifier was not listed before). *)
Theorem build_network_attributes :
  (∀ (order : SetIteration) (g : ManualNetworkAdapter.t) nodos segmentos nodo,
     NoDup (Nodo.id_nodo <$> nodos) → nodo ∈ nodos →
     get_node_attributes (build_network g nodos segmentos) (Nodo.id_nodo nodo) =
       Ret (nodo_attributes nodo)) ∧
  (∀ (g : NetworkXAdapter.t) nodos segmentos nodo,
     NoDup (Nodo.id_nodo <$> nodos) → nodo ∈ nodos →
     Nodo.id_nodo nodo ∉ get_nodes g →
     get_node_attributes (build_network g nodos segmentos) (Nodo.id_nodo nodo) =
       Ret (nodo_attributes nodo)).
Proof.
  split.
  - intros order g nodos segmentos nodo Hnd Hin. unfold build_network. simpl.
    unfold ManualNetworkAdapter.get_node_attributes.
    rewrite (manual_add_edges_nodes segmentos).
    by rewrite (manual_add_nodes_get nodos g nodo Hnd Hin).
  - intros g nodos segmentos nodo Hnd Hin Hfresh.
    assert (∀ (g' : NetworkXAdapter.t) n attrs,
              od_get n (NetworkXAdapter._node g') = Some attrs →
              get_node_attributes g' n = Ret attrs) as Hget.
    { intros g' n attrs Hn. simpl.
      unfold NetworkXAdapter.get_node_attributes, NetworkXAdapter.nx_nodes_getitem.
      by rewrite Hn. }
    apply Hget. unfold build_network. rewrite nx_add_edges_get.
    + by apply nx_add_nodes_get.
    + apply nx_add_nodes_get_nodes. right. by apply list_elem_of_fmap_2.
Qed.

Lemma build_network_attributes_witness :
  NoDup (Nodo.id_nodo <$> [subestacion 1; poste 2]) ∧
  poste 2 ∈ [subestacion 1; poste 2] ∧
  (Nodo.id_nodo (poste 2) ∉ get_nodes (init : NetworkXAdapter.t)) ∧
  @get_node_attributes _ (@manual_interface elements_order)
    (@build_network _ (@manual_interface elements_order) ManualNetworkAdapter.init
       [subestacion 1; poste 2] [segmento 1 1 2]) (Nodo.id_nodo (poste 2)) =
    Ret (nodo_attributes (poste 2)) ∧
  get_node_attributes
    (build_network (init : NetworkXAdapter.t) [subestacion 1; poste 2]
       [segmento 1 1 2]) (Nodo.id_nodo (poste 2)) =
    Ret (nodo_attributes (poste 2)).
Proof.
  assert (NoDup (Nodo.id_nodo <$> [subestacion 1; poste 2])) as H1 by by_eval.
  assert (poste 2 ∈ [subestacion 1; poste 2]) as H2 by (right; left).
  assert (Nodo.id_nodo (poste 2) ∉ get_nodes (init : NetworkXAdapter.t)) as H3
    by by_eval.
  split; [exact H1|]. split; [exact H2|]. split; [exact H3|]. split.
  - exact (proj1 build_network_attributes elements_order ManualNetworkAdapter.init
             [subestacion 1; poste 2] [segmento 1 1 2] (poste 2) H1 H2).
  - exact (proj2 build_network_attributes init [subestacion 1; poste 2]
             [segmento 1 1 2] (poste 2) H1 H2 H3).
Defined.

(** ** [find_subestacion_node] *)

Section find_subestacion.
Context {G : Type} `{NetworkInterface G}.

(** X18. [find_subestacion_node] returns the first node, in the order of
    [get_nodes], whose attribute [tipo] is ['Subestacion'], and raises
    [ValueError] exactly when no listed node has it. *)
Theorem find_subestacion_node_spec (g : G) :
  (∀ n, n ∈ get_nodes g → ∃ attrs, get_node_attributes g n = Ret attrs) →
  (∃ id pre post,
     find_subestacion_node g = Ret id ∧ get_nodes g = pre ++ id :: post ∧
     is_subestacion g id ∧ ∀ n, n ∈ pre → ¬ is_subestacion g n) ∨
  (find_subestacion_node g = Raise ValueError ∧
   ∀ n, n ∈ get_nodes g → ¬ is_subestacion g n).
Proof.
  unfold find_subestacion_node. generalize (get_nodes g) as ids.
  induction ids as [|x ids IH]; intros Hattrs.
  { right. split; [done|]. intros n Hn. by inversion Hn. }
  destruct (Hattrs x) as [attrs Hx]; [by left|].
  cbn [find_subestacion_in]. rewrite Hx. simpl.
  destruct (decide (attrs !! "tipo" = Some (PyStr "Subestacion"))) as [Hs|Hs].
  - left. exists x, [], ids. split_and!; [done|done| |].
    + by exists attrs.
    + intros n Hn. by inversion Hn.
  - assert (¬ is_subestacion g x) as Hnot.
    { intros (attrs' & Hx' & Ht). rewrite Hx in Hx'. by injection Hx' as <-. }
    destruct IH as [(id & pre & post & Hret & -> & Hid & Hpre)|[Hret Hnone]].
    + intros n Hn. apply Hattrs. by right.
    + left. exists id, (x :: pre), post. split_and!; [done|done|done|].
      intros n [->|Hn]%elem_of_cons; [done|by apply Hpre].
    + right. split; [done|].
      intros n [->|Hn]%elem_of_cons; [done|by apply Hnone].
Qed.
End find_subestacion.

Lemma find_subestacion_node_spec_witness :
  let g : NetworkXAdapter.t :=
    build_network init [poste 2; subestacion 1] [segmento 1 2 1] in
  (∀ n, n ∈ get_nodes g → ∃ attrs, get_node_attributes g n = Ret attrs) ∧
  ((∃ id pre post,
      find_subestacion_node g = Ret id ∧ get_nodes g = pre ++ id :: post ∧
      is_subestacion g id ∧ ∀ n, n ∈ pre → ¬ is_subestacion g n) ∨
   (find_subestacion_node g = Raise ValueError ∧
    ∀ n, n ∈ get_nodes g → ¬ is_subestacion g n)).
Proof.
  intros g.
  assert (∀ n, n ∈ get_nodes g → ∃ attrs, get_node_attributes g n = Ret attrs) as Hg.
  { intros n Hn. simpl in Hn. unfold NetworkXAdapter.get_nodes in Hn.
    apply od_get_is_Some in Hn as [attrs Hn]. exists attrs. simpl.
    unfold NetworkXAdapter.get_node_attributes, NetworkXAdapter.nx_nodes_getitem.
    by rewrite Hn. }
  split; [exact Hg|]. exact (find_subestacion_node_spec g Hg).
Defined.

(** ** Records from rows *)





(** ** [DataLoader] *)

Section collect.
Context {A B : Type} (f : A → outcome B).

Lemma for_each_collect_ret (rows : list A) : ∀ acc l,
  for_each (λ acc row, x ← f row; Ret (acc ++ [x])) acc rows = Ret l ↔
  ∃ l', l = acc ++ l' ∧ Forall2 (λ row x, f row = Ret x) rows l'.
Proof.
  induction rows as [|row rows IH]; intros acc l; simpl.
  - split.
    + intros [= <-]. exists []. by rewrite app_nil_r.
    + intros (l' & -> & ->%Forall2_nil_inv_l). by rewrite app_nil_r.
  - destruct (f row) as [x| |] eqn:Hrow; simpl.
    + rewrite IH. split.
      * intros (l' & -> & Hl'). exists (x :: l'). rewrite <-app_assoc. split; [done|].
        by constructor.
      * intros (l' & -> & (x' & l'' & Hx & Hl'' & ->)%Forall2_cons_inv_l).
        rewrite Hrow in Hx. injection Hx as <-.
        exists l''. by rewrite <-app_assoc.
    + split; [done|].
      intros (l' & _ & (x' & l'' & Hx & _)%Forall2_cons_inv_l). congruence.
    + split; [done|].
      intros (l' & _ & (x' & l'' & Hx & _)%Forall2_cons_inv_l). congruence.
Qed.

Lemma for_each_collect_raise (pre : list A) row post e : ∀ acc,
  Forall (λ r, ∃ x, f r = Ret x) pre → f row = Raise e →
  for_each (λ acc row, x ← f row; Ret (acc ++ [x])) acc (pre ++ row :: post) = Raise e.
Proof.
  induction pre as [|r pre IH]; intros acc Hpre Hrow; simpl.
  - by rewrite Hrow.
  - apply Forall_cons in Hpre as [[x Hx] Hpre]. rewrite Hx. simpl. by apply IH.
Qed.
End collect.

(** X21. [load_nodos], [load_segmentos] and [load_all] return exactly when
    [from_csv_row] returns for every row; the result then has one record for
    each row, in the order of the rows. *)
Theorem load_returns :
  (∀ reader nodos,
     DataLoader.load_nodos reader = Ret nodos ↔
     Forall2 (λ row nodo, Nodo.from_csv_row row = Ret nodo) reader nodos) ∧
  (∀ reader segmentos,
     DataLoader.load_segmentos reader = Ret segmentos ↔
     Forall2 (λ row segmento, Segmento.from_csv_row row = Ret segmento)
       reader segmentos) ∧
  (∀ nodos_reader segmentos_reader nodos segmentos,
     DataLoader.load_all nodos_reader segmentos_reader = Ret (nodos, segmentos) ↔
     Forall2 (λ row nodo, Nodo.from_csv_row row = Ret nodo) nodos_reader nodos ∧
     Forall2 (λ row segmento, Segmento.from_csv_row row = Ret segmento)
       segmentos_reader segmentos).
Proof.
  assert (∀ reader nodos,
     DataLoader.load_nodos reader = Ret nodos ↔
     Forall2 (λ row nodo, Nodo.from_csv_row row = Ret nodo) reader nodos) as Hn.
  { intros reader nodos. unfold DataLoader.load_nodos.
    rewrite for_each_collect_ret. simpl. split; [by intros (l' & -> & ?)|eauto]. }
  assert (∀ reader segmentos,
     DataLoader.load_segmentos reader = Ret segmentos ↔
     Forall2 (λ row segmento, Segmento.from_csv_row row = Ret segmento)
       reader segmentos) as Hs.
  { intros reader segmentos. unfold DataLoader.load_segmentos.
    rewrite for_each_collect_ret. simpl. split; [by intros (l' & -> & ?)|eauto]. }
  split_and!; [done..|].
  intros nr sr nodos segmentos. rewrite <-Hn, <-Hs. unfold DataLoader.load_all.
  destruct (DataLoader.load_nodos nr) as [ns| |]; simpl;
    [|split; [done|by intros [? _]]..].
  destruct (DataLoader.load_segmentos sr) as [ss| |]; simpl;
    [|split; [done|by intros [_ ?]]..].
  split; [by intros [= -> ->]|by intros [[= ->] [= ->]]].
Qed.

(** X22. Loading stops at the first row for which [from_csv_row] raises: the
    exception leaves [load_nodos], [load_segmentos] and [load_all], and no
    record of an earlier row is returned; [load_all] reads the segment rows
    only after all node rows have been converted. *)
Theorem load_raises :
  (∀ pre row post e,
     Forall (λ r, ∃ nodo, Nodo.from_csv_row r = Ret nodo) pre →
     Nodo.from_csv_row row = Raise e →
     DataLoader.load_nodos (pre ++ row :: post) = Raise e ∧
     ∀ segmentos_reader,
       DataLoader.load_all (pre ++ row :: post) segmentos_reader = Raise e) ∧
  (∀ pre row post e,
     Forall (λ r, ∃ segmento, Segmento.from_csv_row r = Ret segmento) pre →
     Segmento.from_csv_row row = Raise e →
     DataLoader.load_segmentos (pre ++ row :: post) = Raise e ∧
     ∀ nodos_reader nodos,
       DataLoader.load_nodos nodos_reader = Ret nodos →
       DataLoader.load_all nodos_reader (pre ++ row :: post) = Raise e).
Proof.
  split; intros pre row post e Hpre Hrow.
  - assert (DataLoader.load_nodos (pre ++ row :: post) = Raise e) as Hn.
    { by apply for_each_collect_raise. }
    split; [done|]. intros sr. unfold DataLoader.load_all. by rewrite Hn.
  - assert (DataLoader.load_segmentos (pre ++ row :: post) = Raise e) as Hs.
    { by apply for_each_collect_raise. }
    split; [done|]. intros nr nodos Hn. unfold DataLoader.load_all.
    rewrite Hn. simpl. by rewrite Hs.
Qed.

Lemma load_raises_witness :
  (DataLoader.load_segmentos ([negative_row] ++ malformed_row :: [negative_row]) =
     Raise ValueError ∧
   ∀ nodos_reader nodos,
     DataLoader.load_nodos nodos_reader = Ret nodos →
     DataLoader.load_all nodos_reader
       ([negative_row] ++ malformed_row :: [negative_row]) = Raise ValueError) ∧
  (DataLoader.load_nodos ([] ++ negative_row :: []) = Raise KeyError ∧
   ∀ segmentos_reader,
     DataLoader.load_all ([] ++ negative_row :: []) segmentos_reader = Raise KeyError).
Proof.
  split.
  - apply (proj2 load_raises [negative_row] malformed_row [negative_row] ValueError).
    + constructor; [|constructor]. eexists. vm_compute. reflexivity.
    + vm_compute. reflexivity.
  - apply (proj1 load_raises [] negative_row [] KeyError).
    + constructor.
    + vm_compute. reflexivity.
Defined.

(** ** The size of the closure table *)

Section closure_size.
Context {G : Type} `{TraversalLaws G}.
Implicit Types (g : G) (root : Z) (st : bfs_state).

(** X23. The list that [bfs_traversal] returns starts with the self-entry of
    the start node; every other entry has a positive depth and a descendant
    other than the start node; and their number is the sum, over the nodes
    that can be reached from the start node, of their distances from it. *)
Theorem bfs_entry_count g root fuel :
  valid_start g root → (size (universe g root) ≤ fuel)%nat →
  ∃ rest order (dist : Z → nat),
    adapter_bfs_traversal g fuel root = Ret ((root, root, 0) :: rest) ∧
    (∀ e, e ∈ rest → 0 < depth e ∧ descendant e ≠ root) ∧
    NoDup order ∧
    (∀ d, d ∈ order ↔ reachable (get_neighbors g) root d ∧ d ≠ root) ∧
    (∀ d, d ∈ order → distance (get_neighbors g) root d (dist d)) ∧
    length rest = sum_list_with dist order.
Proof.
  intros Hv Hfuel.
  destruct (traversal_final g root fuel Hv Hfuel) as (st & dep & order & Hrun & Hfin).
  pose proof Hfin as (Hc & _ & _).
  pose proof (ci_tree _ _ _ _ _ _ Hc) as Ht.
  exists (flat_map (chain (parent_map st) dep) order), order,
    (λ d, default 0%nat (dep !! d)).
  split_and!.
  - rewrite <-(final_entries _ _ _ _ _ _ Hfin). by apply traversal_returns.
  - intros e (d & Hd & He)%elem_of_flat_map.
    destruct (final_order_dep _ _ _ _ _ _ Hfin Hd) as (Hne & n & Hn).
    destruct (chain_spec _ _ _ _ _ _ _ Ht Hn He) as (Hde & m & Hm & Hlt & Hdepth & _).
    split; [rewrite Hdepth; lia|congruence].
  - apply (ci_nodup _ _ _ _ _ _ Hc).
  - intros d. rewrite (ci_order _ _ _ _ _ _ Hc).
    by rewrite (final_visited _ _ _ _ _ _ _ Hfin).
  - intros d Hd.
    destruct (final_order_dep _ _ _ _ _ _ Hfin Hd) as (_ & n & Hn).
    rewrite Hn. simpl. by eapply final_distance.
  - pose proof (final_length _ _ _ _ _ Hfin) as Hlen.
    rewrite (final_entries _ _ _ _ _ _ Hfin) in Hlen. cbn [length] in Hlen.
    by injection Hlen.
Qed.
End closure_size.

Lemma bfs_entry_count_witness :
  valid_start nx_chain4 1 ∧ (size (universe nx_chain4 1) ≤ 4)%nat ∧
  ∃ rest order (dist : Z → nat),
    adapter_bfs_traversal nx_chain4 4 1 = Ret ((1, 1, 0) :: rest) ∧
    (∀ e, e ∈ rest → 0 < depth e ∧ descendant e ≠ 1) ∧
    NoDup order ∧
    (∀ d, d ∈ order ↔ reachable (get_neighbors nx_chain4) 1 d ∧ d ≠ 1) ∧
    (∀ d, d ∈ order → distance (get_neighbors nx_chain4) 1 d (dist d)) ∧
    length rest = sum_list_with dist order.
Proof.
  assert (size (universe nx_chain4 1) ≤ 4)%nat as Hsize by by_eval.
  split; [exact nx_chain4_valid|]. split; [exact Hsize|].
  exact (bfs_entry_count nx_chain4 1 4 nx_chain4_valid Hsize).
Defined.

(** ** The two adapters side by side *)

(** X24. [build_network] on a new [ManualNetworkAdapter] and on a new
    [NetworkXAdapter] gives the same neighbours: in both, [b] is listed among
    the neighbours of [a] exactly when a segment record joins the two. *)
Theorem adapters_agree_on_edges (order : SetIteration) nodos segmentos a b :
  let manual : ManualNetworkAdapter.t := build_network init nodos segmentos in
  let networkx : NetworkXAdapter.t := build_network init nodos segmentos in
  (edge (get_neighbors manual) a b ↔ ∃ s, s ∈ segmentos ∧ joins s a b) ∧
  (edge (get_neighbors networkx) a b ↔ ∃ s, s ∈ segmentos ∧ joins s a b).
Proof.
  intros manual networkx. split.
  - unfold manual, build_network.
    rewrite manual_edge, manual_add_edges_adjacent, manual_add_nodes_adjacent.
    split; [|by right]. intros [(s & Hs & _)|?]; [|done].
    simpl in Hs. by rewrite lookup_empty in Hs.
  - unfold networkx, build_network.
    assert (nx_wf (init : NetworkXAdapter.t)) as Hwf by (apply nx_built_wf, built_init).
    rewrite nx_edge, nx_add_edges_adjacent by by apply nx_add_nodes_wf.
    rewrite nx_add_nodes_adjacent by done.
    split; [|by right]. intros [(nbrs & Hn & _)|?]; [|done].
    simpl in Hn. by rewrite lookup_empty in Hn.
Qed.

(** ** From the records to the closure table *)

Lemma od_keys_set_length {K A : Type} `{EqDecision K} (d : list (K * A)) k v :
  (length (od_keys (od_set k v d)) ≤ S (length (od_keys d)))%nat.
Proof.
  destruct (decide (k ∈ od_keys d)) as [Hk|Hk].
  - rewrite od_keys_set_present by done. lia.
  - rewrite od_keys_set_absent by done. rewrite length_app. simpl. lia.
Qed.

Lemma nx_add_node_length (G : NetworkXAdapter.Graph) n attr :
  (length (od_keys (NetworkXAdapter._node (NetworkXAdapter.nx_add_node G n attr))) ≤
   S (length (od_keys (NetworkXAdapter._node G))))%nat.
Proof.
  unfold NetworkXAdapter.nx_add_node.
  destruct (od_get n (NetworkXAdapter._node G)); simpl; apply od_keys_set_length.
Qed.

Lemma nx_ensure_node_length (G : NetworkXAdapter.Graph) u :
  (length (od_keys (NetworkXAdapter._node (NetworkXAdapter.nx_ensure_node G u))) ≤
   S (length (od_keys (NetworkXAdapter._node G))))%nat.
Proof.
  unfold NetworkXAdapter.nx_ensure_node.
  destruct (od_get u (NetworkXAdapter._node G)); simpl;
    [lia|apply od_keys_set_length].
Qed.

Lemma nx_add_edge_length (G : NetworkXAdapter.Graph) u v attr :
  (length (od_keys (NetworkXAdapter._node (NetworkXAdapter.nx_add_edge G u v attr))) ≤
   2 + length (od_keys (NetworkXAdapter._node G)))%nat.
Proof.
  unfold NetworkXAdapter.nx_add_edge. simpl.
  pose proof (nx_ensure_node_length G u).
  pose proof (nx_ensure_node_length (NetworkXAdapter.nx_ensure_node G u) v). lia.
Qed.

Lemma nx_build_network_length (nodos : list Nodo.t) (segmentos : list Segmento.t)
    (g : NetworkXAdapter.t) :
  (length (get_nodes (build_network g nodos segmentos)) ≤
   length (get_nodes g) + length nodos + 2 * length segmentos)%nat.
Proof.
  unfold build_network.
  assert (∀ g' : NetworkXAdapter.t,
    (length (get_nodes
       (foldl (λ net segmento,
                 add_edge net (Segmento.nodo_inicio segmento)
                   (Segmento.nodo_fin segmento) (segmento_attributes segmento))
          g' segmentos)) ≤ length (get_nodes g') + 2 * length segmentos)%nat) as Hs.
  { induction segmentos as [|s segmentos IH]; intros g'; simpl; [lia|].
    etransitivity; [apply IH|].
    pose proof (nx_add_edge_length g' (Segmento.nodo_inicio s) (Segmento.nodo_fin s)
                  (segmento_attributes s)) as Hle.
    simpl. unfold NetworkXAdapter.get_nodes, NetworkXAdapter.add_edge. lia. }
  etransitivity; [apply Hs|].
  assert (∀ g' : NetworkXAdapter.t,
    (length (get_nodes
       (foldl (λ net nodo, add_node net (Nodo.id_nodo nodo) (nodo_attributes nodo))
          g' nodos)) ≤ length (get_nodes g') + length nodos)%nat) as Hn.
  { clear Hs. induction nodos as [|n nodos IH]; intros g'; simpl; [lia|].
    etransitivity; [apply IH|].
    pose proof (nx_add_node_length g' (Nodo.id_nodo n) (nodo_attributes n)) as Hle.
    simpl. unfold NetworkXAdapter.get_nodes, NetworkXAdapter.add_node. lia. }
  specialize (Hn g). lia.
Qed.

Lemma nx_built_size (g : NetworkXAdapter.t) :
  built g → size (dom (NetworkXAdapter._adj g)) = length (get_nodes g).
Proof.
  intros Hb. rewrite <-(size_list_to_set (C := gset Z)) by by apply nx_built_NoDup.
  f_equal. apply set_eq. intros n. rewrite elem_of_list_to_set.
  symmetry. apply (nx_wf_keys _ (nx_built_wf _ Hb)).
Qed.

Lemma build_network_built {G : Type} `{NetworkInterface G} (g : G) nodos segmentos :
  built g → built (build_network g nodos segmentos).
Proof.
  intros Hb. unfold build_network.
  assert (built (foldl (λ net nodo,
                          add_node net (Nodo.id_nodo nodo) (nodo_attributes nodo))
                   g nodos)) as Hn.
  { revert g Hb. induction nodos as [|n nodos IH]; intros g Hb; simpl; [done|].
    apply IH. by apply built_add_node. }
  revert Hn. generalize (foldl (λ net nodo,
                          add_node net (Nodo.id_nodo nodo) (nodo_attributes nodo))
                   g nodos).
  induction segmentos as [|s segmentos IH]; intros g' Hb'; simpl; [done|].
  apply IH. by apply built_add_edge.
Qed.

(** X25. From the records to the closure table with [NetworkXAdapter], for
    all lists of records: the loop of [main] over the network that
    [build_network] returns ends without an exception; no two of its entries
    have the same (ancestor, descendant) pair; and the nodes that occur as
    descendant are exactly the identifiers of the node records and the end
    points of the segment records. *)
Theorem main_networkx_total (nodos : list Nodo.t) (segmentos : list Segmento.t) :
  let network : NetworkXAdapter.t := build_network init nodos segmentos in
  ∃ all vg,
    main_traversal (length nodos + 2 * length segmentos) network = Ret (all, vg) ∧
    NoDup (pair_of <$> all) ∧
    ∀ n, (∃ a k, (a, n, k) ∈ all) ↔
         n ∈ Nodo.id_nodo <$> nodos ∨ n ∈ Segmento.nodo_inicio <$> segmentos ∨
         n ∈ Segmento.nodo_fin <$> segmentos.
Proof.
  intros network.
  assert (built network) as Hb by apply build_network_built, built_init.
  pose proof (nx_built_wf _ Hb) as Hwf.
  assert (∀ n, n ∈ get_nodes network ↔
               n ∈ Nodo.id_nodo <$> nodos ∨ n ∈ Segmento.nodo_inicio <$> segmentos ∨
               n ∈ Segmento.nodo_fin <$> segmentos) as Hnodes.
  { intros n. unfold network, build_network.
    rewrite nx_add_edges_get_nodes, nx_add_nodes_get_nodes. split; [|tauto].
    intros [[Hn|?]|?]; [by inversion Hn|tauto..]. }
  assert (∀ s, s ∈ get_nodes network →
            valid_start network s ∧
            (size (universe network s) ≤ length nodos + 2 * length segmentos)%nat)
    as Hok.
  { intros s Hs. split; [by apply valid_start_built|].
    simpl. rewrite (nx_built_size _ Hb).
    etransitivity; [apply nx_build_network_length|]. simpl. lia. }
  destruct (main_loop_descendants (length nodos + 2 * length segmentos) network
              (dom (NetworkXAdapter._adj network)) (get_nodes network) [] ∅)
    as (all & vg & Hrun & Hinv & HU & _ & Hall).
  { intros s Hs. destruct (Hok s Hs) as [Hv Hfuel]. by split_and!. }
  { intros n. split; [set_solver|]. intros (a & k & He). by inversion He. }
  { set_solver. }
  destruct (main_loop_unique network (λ a b, built_undirected network a b Hb)
              (length nodos + 2 * length segmentos) (get_nodes network) [] ∅)
    as (all' & vg' & Hrun' & Hnd); [done| |set_solver|constructor|].
  { intros n. split; [set_solver|]. intros (e & He & _). by inversion He. }
  rewrite Hrun in Hrun'. injection Hrun' as <- <-.
  exists all, vg. split_and!; [done|done|].
  intros n. rewrite <-Hinv, <-Hnodes. split.
  - intros Hn%HU. by apply (nx_wf_keys _ Hwf).
  - apply Hall.
Qed.

(** ** The outcome of a traversal with [NetworkXAdapter] *)

(** X26. [bfs_traversal] of a [NetworkXAdapter] that has built its graph:
    from a node that [get_nodes] lists it returns a list that starts with
    the self-entry of that node, within as many iterations as there are
    nodes; from any other start node it raises [NetworkXError]. *)
Theorem networkx_bfs_outcome (self : NetworkXAdapter.t) (start_node : Z) (fuel : nat) :
  built self → (length (get_nodes self) ≤ fuel)%nat → (0 < fuel)%nat →
  (start_node ∈ get_nodes self →
   ∃ rest, adapter_bfs_traversal self fuel start_node =
             Ret ((start_node, start_node, 0) :: rest)) ∧
  (start_node ∉ get_nodes self →
   adapter_bfs_traversal self fuel start_node = Raise NetworkXError).
Proof.
  intros Hb Hfuel Hpos. split.
  - intros Hin.
    destruct (traversal_final self start_node fuel) as (st & dep & order & Hrun & Hfin).
    + by apply valid_start_built.
    + simpl. by rewrite (nx_built_size _ Hb).
    + eexists. rewrite (traversal_returns _ _ _ _ Hrun).
      by rewrite (final_entries _ _ _ _ _ _ Hfin).
  - intros Hout. destruct fuel as [|fuel]; [lia|].
    apply bfs_traversal_raise. simpl.
    unfold NetworkXAdapter.get_neighbors, NetworkXAdapter.nx_neighbors.
    assert (NetworkXAdapter._adj self !! start_node = None) as ->; [|done].
    apply not_elem_of_dom. by rewrite <-(nx_wf_keys _ (nx_built_wf _ Hb)).
Qed.

Lemma networkx_bfs_outcome_witness :
  built nx_chain4 ∧ (length (get_nodes nx_chain4) ≤ 4)%nat ∧ (0 < 4)%nat ∧
  (3 ∈ get_nodes nx_chain4 ∧
   ∃ rest, adapter_bfs_traversal nx_chain4 4 3 = Ret ((3, 3, 0) :: rest)) ∧
  ((99 ∉ get_nodes nx_chain4) ∧
   adapter_bfs_traversal nx_chain4 4 99 = Raise NetworkXError).
Proof.
  assert (built nx_chain4) as Hb by (unfold nx_chain4; by_built).
  assert (length (get_nodes nx_chain4) ≤ 4)%nat as Hlen by by_eval.
  assert (0 < 4)%nat as Hpos by lia.
  assert (3 ∈ get_nodes nx_chain4) as H3 by by_eval.
  assert (99 ∉ get_nodes nx_chain4) as H99 by by_eval.
  split; [exact Hb|]. split; [exact Hlen|]. split; [exact Hpos|].
  split; (split; [done|]).
  - exact (proj1 (networkx_bfs_outcome nx_chain4 3 4 Hb Hlen Hpos) H3).
  - exact (proj2 (networkx_bfs_outcome nx_chain4 99 4 Hb Hlen Hpos) H99).
Defined.

(** ** The outcome of a traversal with [ManualNetworkAdapter] *)

(** X27. [bfs_traversal] of a [ManualNetworkAdapter] returns in every state
    and for every start node, a list that starts with the self-entry of the
    start node: it never raises. *)
Theorem manual_bfs_returns (order : SetIteration) (self : ManualNetworkAdapter.t)
    (start_node : Z) (fuel : nat) :
  (size (manual_universe self start_node) ≤ fuel)%nat →
  ∃ rest, adapter_bfs_traversal self fuel start_node =
            Ret ((start_node, start_node, 0) :: rest).
Proof.
  intros Hfuel.
  destruct (traversal_final self start_node fuel) as (st & dep & ord & Hrun & Hfin);
    [done..|].
  eexists. rewrite (traversal_returns _ _ _ _ Hrun).
  by rewrite (final_entries _ _ _ _ _ _ Hfin).
Qed.

Lemma manual_bfs_returns_witness :
  (size (manual_universe manual_square 99) ≤ 5)%nat ∧
  ∃ rest, @adapter_bfs_traversal _ (@manual_interface elements_order)
            manual_square 5 99 = Ret ((99, 99, 0) :: rest).
Proof.
  assert (size (manual_universe manual_square 99) ≤ 5)%nat as Hsize by by_eval.
  split; [exact Hsize|].
  exact (manual_bfs_returns elements_order manual_square 99 5 Hsize).
Defined.

(** ** The properties on concrete networks *)

Lemma nx_two_segments_built : built nx_two_segments.
Proof. unfold nx_two_segments. by_built. Qed.

Lemma nx_two_segments_starts s :
  s ∈ get_nodes nx_two_segments →
  valid_start nx_two_segments s ∧ (size (universe nx_two_segments s) ≤ 4)%nat.
Proof.
  intros Hs. split; [by apply valid_start_built, Hs; apply nx_two_segments_built|].
  by_eval.
Qed.

Lemma bfs_closure_transitive_witness :
  valid_start nx_chain4 1 ∧ (size (universe nx_chain4 1) ≤ 4)%nat ∧
  ∃ entries,
    adapter_bfs_traversal nx_chain4 4 1 = Ret entries ∧
    ∀ a b c j k, (a, b, j) ∈ entries → (b, c, k) ∈ entries →
      (a, c, j + k) ∈ entries.
Proof.
  assert (size (universe nx_chain4 1) ≤ 4)%nat as Hsize by by_eval.
  split; [exact nx_chain4_valid|]. split; [exact Hsize|].
  exact (bfs_closure_transitive nx_chain4 1 4 nx_chain4_valid Hsize).
Defined.


Lemma bfs_parent_entries_witness :
  valid_start nx_chain4 1 ∧ (size (universe nx_chain4 1) ≤ 4)%nat ∧
  ∃ entries,
    adapter_bfs_traversal nx_chain4 4 1 = Ret entries ∧
    (∀ a d, (a, d, 1) ∈ entries → edge (get_neighbors nx_chain4) a d) ∧
    (∀ d, reachable (get_neighbors nx_chain4) 1 d → d ≠ 1 →
       ∃ a, (a, d, 1) ∈ entries ∧ ∀ a', (a', d, 1) ∈ entries → a' = a).
Proof.
  assert (size (universe nx_chain4 1) ≤ 4)%nat as Hsize by by_eval.
  split; [exact nx_chain4_valid|]. split; [exact Hsize|].
  exact (bfs_parent_entries nx_chain4 1 4 nx_chain4_valid Hsize).
Defined.

Lemma bfs_component_witness :
  valid_start nx_two_segments 3 ∧ (size (universe nx_two_segments 3) ≤ 4)%nat ∧
  ∃ entries,
    adapter_bfs_traversal nx_two_segments 4 3 = Ret entries ∧
    (∀ a d k, (a, d, k) ∈ entries →
       reachable (get_neighbors nx_two_segments) 3 a ∧
       reachable (get_neighbors nx_two_segments) 3 d) ∧
    (∀ d k, (3, d, k) ∈ entries ↔
       0 ≤ k ∧ distance (get_neighbors nx_two_segments) 3 d (Z.to_nat k)).
Proof.
  assert (3 ∈ get_nodes nx_two_segments) as Hin by by_eval.
  destruct (nx_two_segments_starts 3 Hin) as [Hv Hsize].
  split; [exact Hv|]. split; [exact Hsize|].
  exact (bfs_component nx_two_segments 3 4 Hv Hsize).
Defined.

Lemma main_traversal_descendants_witness :
  (∀ s, s ∈ get_nodes nx_two_segments →
     valid_start nx_two_segments s ∧ (size (universe nx_two_segments s) ≤ 4)%nat) ∧
  ∃ all vg,
    main_traversal 4 nx_two_segments = Ret (all, vg) ∧
    (∀ n, n ∈ vg ↔ ∃ a k, (a, n, k) ∈ all) ∧
    ∀ n, n ∈ get_nodes nx_two_segments → n ∈ vg.
Proof.
  split; [exact nx_two_segments_starts|].
  exact (main_traversal_descendants 4 nx_two_segments nx_two_segments_starts).
Defined.

Lemma nx_two_segments_undirected a b :
  edge (get_neighbors nx_two_segments) a b → edge (get_neighbors nx_two_segments) b a.
Proof. apply built_undirected, nx_two_segments_built. Qed.

Lemma main_traversal_unique_pairs_witness :
  (∀ a b, edge (get_neighbors nx_two_segments) a b →
          edge (get_neighbors nx_two_segments) b a) ∧
  (∀ s, s ∈ get_nodes nx_two_segments →
     valid_start nx_two_segments s ∧ (size (universe nx_two_segments s) ≤ 4)%nat) ∧
  ∃ all vg,
    main_traversal 4 nx_two_segments = Ret (all, vg) ∧ NoDup (pair_of <$> all).
Proof.
  split; [exact nx_two_segments_undirected|]. split; [exact nx_two_segments_starts|].
  exact (main_traversal_unique_pairs nx_two_segments nx_two_segments_undirected 4
           nx_two_segments_starts).
Defined.
